(** * BusTub storage-engine primitives: LRU-K replacer, extendible hash
      table and B+Tree, as a shallow embedding of the C++ sources.

    - [LRUK]  embeds [src/buffer/lru_k_replacer.cpp];
    - [EHT]   embeds [src/container/hash/extendible_hash_table.cpp];
    - [BPT]   embeds [src/storage/index/b_plus_tree.cpp].

    Each public operation runs under one mutex (replacer, hash table) or
    is looked at for a single thread (tree), so an operation is a function
    from the state before the call to the state after it. *)

From stdpp Require Import gmap list sorting.
From Stdlib Require Import ZArith Lia.

Local Open Scope Z_scope.

(* ===================================================================== *)
(** * LRU-K replacer                                                      *)
(* ===================================================================== *)

Module LRUK.

(** What a call can do besides returning: [BUSTUB_ASSERT] aborts the
    process, [throw std::exception()] unwinds. *)
Inductive Result (A : Type) : Type :=
  | Ok (a : A)
  | AssertionFailure
  | Exception.
Arguments Ok {A} a.
Arguments AssertionFailure {A}.
Arguments Exception {A}.

(** The members of [LRUKReplacer].  [frame_id_t] is [int32_t]; the sizes
    and [k_] are [size_t].  [history_cnt_] and [evictable_] are used
    through [find]/[end], [erase] and [operator[]], that is, as standard
    maps keyed by the frame id; [history_list_] and [buffer_list_] are
    the history queue and the cache queue, front first. *)
Record Replacer : Type := mkReplacer {
  replacer_size_ : Z;
  k_ : nat;
  curr_size_ : Z;
  history_list_ : list Z;
  buffer_list_ : list Z;
  history_cnt_ : gmap Z nat;
  evictable_ : gmap Z bool
}.

(** [LRUKReplacer(num_frames, k)]: every other member is
    default-initialised. *)
Definition LRUKReplacer (num_frames : Z) (k : nat) : Replacer :=
  mkReplacer num_frames k 0 [] [] ∅ ∅.

(** [static_cast<frame_id_t>(replacer_size_)]: a [size_t] narrowed to a
    signed 32-bit integer. *)
Definition to_frame_id (n : Z) : Z :=
  let m := n mod 2 ^ 32 in if m <? 2 ^ 31 then m else m - 2 ^ 32.

(** [--curr_size_] and [curr_size_++] on a [size_t]. *)
Definition size_dec (n : Z) : Z := (n - 1) mod 2 ^ 64.
Definition size_inc (n : Z) : Z := (n + 1) mod 2 ^ 64.

(** [m[f]] on a standard map: a missing key is first inserted with the
    value-initialised mapped value. *)
Definition cnt_at (f : Z) (m : gmap Z nat) : nat * gmap Z nat :=
  match m !! f with
  | Some n => (n, m)
  | None => (0%nat, <[f := 0%nat]> m)
  end.

Definition ev_at (f : Z) (m : gmap Z bool) : bool * gmap Z bool :=
  match m !! f with
  | Some b => (b, m)
  | None => (false, <[f := false]> m)
  end.

(** Modelled from the spec: the queue helpers are declared in
    lru_k_replacer.h, which is not among the sources.  The spec has a
    first access insert "into the front of the history queue", the k-th
    access remove the frame from the history queue and insert it "at the
    front of the cache queue", and a frame already in the cache queue
    "moved to the front". *)
Definition remove_node (f : Z) (l : list Z) : list Z :=
  filter (λ x, x ≠ f) l.

Definition InsertHistory (f : Z) (r : Replacer) : Replacer :=
  mkReplacer (replacer_size_ r) (k_ r) (curr_size_ r)
    (f :: history_list_ r) (buffer_list_ r) (history_cnt_ r) (evictable_ r).

Definition RemoveNodeHistory (f : Z) (r : Replacer) : Replacer :=
  mkReplacer (replacer_size_ r) (k_ r) (curr_size_ r)
    (remove_node f (history_list_ r)) (buffer_list_ r)
    (history_cnt_ r) (evictable_ r).

Definition InsertBuffer (f : Z) (r : Replacer) : Replacer :=
  mkReplacer (replacer_size_ r) (k_ r) (curr_size_ r)
    (history_list_ r) (f :: remove_node f (buffer_list_ r))
    (history_cnt_ r) (evictable_ r).

Definition RemoveNodeBuffer (f : Z) (r : Replacer) : Replacer :=
  mkReplacer (replacer_size_ r) (k_ r) (curr_size_ r)
    (history_list_ r) (remove_node f (buffer_list_ r))
    (history_cnt_ r) (evictable_ r).

Definition set_evictable_ (m : gmap Z bool) (r : Replacer) : Replacer :=
  mkReplacer (replacer_size_ r) (k_ r) (curr_size_ r)
    (history_list_ r) (buffer_list_ r) (history_cnt_ r) m.

Definition set_history_cnt_ (m : gmap Z nat) (r : Replacer) : Replacer :=
  mkReplacer (replacer_size_ r) (k_ r) (curr_size_ r)
    (history_list_ r) (buffer_list_ r) m (evictable_ r).

Definition set_curr_size_ (n : Z) (r : Replacer) : Replacer :=
  mkReplacer (replacer_size_ r) (k_ r) n
    (history_list_ r) (buffer_list_ r) (history_cnt_ r) (evictable_ r).

(** The loop [for (iter = l.rbegin(); iter != l.rend(); ++iter)
    if (evictable_[*iter]) { ...; break; }], given the queue already
    reversed: the first frame whose flag is set, and the map after the
    [operator[]] reads made on the way. *)
Fixpoint scan (l : list Z) (ev : gmap Z bool) : option Z * gmap Z bool :=
  match l with
  | [] => (None, ev)
  | f :: l' =>
      let '(b, ev') := ev_at f ev in
      if b then (Some f, ev') else scan l' ev'
  end.

(** The body of a loop iteration that found its victim [f]:
    [evictable_.erase], [history_cnt_.erase], [--curr_size_]. *)
Definition drop_frame (f : Z) (r : Replacer) : Replacer :=
  set_curr_size_ (size_dec (curr_size_ r))
    (set_history_cnt_ (delete f (history_cnt_ r))
       (set_evictable_ (delete f (evictable_ r)) r)).

(** The two scans shared by [Evict] and the replacer-full branch of
    [RecordAccess]: history queue from the rear, then cache queue from
    the rear.  An empty queue is not scanned. *)
Definition evict_scan (r : Replacer) : option Z * Replacer :=
  let '(v1, ev1) := scan (reverse (history_list_ r)) (evictable_ r) in
  let r1 := set_evictable_ ev1 r in
  match v1 with
  | Some f => (Some f, RemoveNodeHistory f (drop_frame f r1))
  | None =>
      let '(v2, ev2) := scan (reverse (buffer_list_ r1)) (evictable_ r1) in
      let r2 := set_evictable_ ev2 r1 in
      match v2 with
      | Some f => (Some f, RemoveNodeBuffer f (drop_frame f r2))
      | None => (None, r2)
      end
  end.

(** [Evict(frame_id_t *frame_id) -> bool]: [Some f] is a [true] return
    with [*frame_id = f]; [None] is a [false] return, the out parameter
    untouched. *)
Definition Evict (r : Replacer) : option Z * Replacer :=
  if curr_size_ r =? 0 then (None, r) else evict_scan r.

Section WithIsFull.

(** [IsFull()] is defined in the absent header and the spec is silent
    about it; the replacer is parametric in it. *)
Variable IsFull : Replacer → bool.

(** The tail of [RecordAccess]: [++history_cnt_[frame_id]] and the
    promotion test. *)
Definition bump (f : Z) (r : Replacer) : Replacer :=
  let '(n, m) := cnt_at f (history_cnt_ r) in
  let r1 := set_history_cnt_ (<[f := S n]> m) r in
  if (k_ r1 <=? S n)%nat then InsertBuffer f (RemoveNodeHistory f r1) else r1.

Definition track_frame (f : Z) (r : Replacer) : Replacer :=
  let r1 := InsertHistory f r in
  set_evictable_ (<[f := false]> (evictable_ r1)) r1.

Definition RecordAccess (f : Z) (r : Replacer) : Result Replacer :=
  if negb (f <=? to_frame_id (replacer_size_ r)) then AssertionFailure
  else
    match history_cnt_ r !! f with
    | None =>
        if IsFull r then
          match evict_scan r with
          | (Some _, r1) => Ok (bump f (track_frame f r1))
          | (None, r1) => Ok r1
          end
        else Ok (bump f (track_frame f r))
    | Some _ => Ok (bump f r)
    end.

Definition SetEvictable (f : Z) (set_evictable : bool) (r : Replacer)
  : Result Replacer :=
  if negb (f <=? to_frame_id (replacer_size_ r)) then AssertionFailure
  else
    let '(n, m) := cnt_at f (history_cnt_ r) in
    let r1 := set_history_cnt_ m r in
    if (n =? 0)%nat then Ok r1
    else
      let '(b, ev) := ev_at f (evictable_ r1) in
      let r2 := set_evictable_ ev r1 in
      if b && negb set_evictable then
        Ok (set_evictable_ (<[f := false]> ev)
              (set_curr_size_ (size_dec (curr_size_ r2)) r2))
      else if negb b && set_evictable then
        Ok (set_evictable_ (<[f := true]> ev)
              (set_curr_size_ (size_inc (curr_size_ r2)) r2))
      else Ok r2.

Definition Remove (f : Z) (r : Replacer) : Result Replacer :=
  if negb (f <=? to_frame_id (replacer_size_ r)) then AssertionFailure
  else
    match history_cnt_ r !! f with
    | None => Ok r
    | Some cnt =>
        if (cnt =? 0)%nat then Ok r
        else
          let '(b, ev) := ev_at f (evictable_ r) in
          let r1 := set_evictable_ ev r in
          if negb b then Exception
          else
            let r2 := if (cnt <? k_ r1)%nat then RemoveNodeHistory f r1
                      else RemoveNodeBuffer f r1 in
            Ok (set_evictable_ (delete f (evictable_ r2))
                  (set_history_cnt_ (delete f (history_cnt_ r2))
                     (set_curr_size_ (size_dec (curr_size_ r2)) r2)))
    end.

Definition Size (r : Replacer) : Z := curr_size_ r.

(** Calls of the public interface, and a client's run of them. *)
Inductive Call : Type :=
  | CRecordAccess (f : Z)
  | CSetEvictable (f : Z) (b : bool)
  | CEvict
  | CRemove (f : Z).

Definition call (c : Call) (r : Replacer) : Result Replacer :=
  match c with
  | CRecordAccess f => RecordAccess f r
  | CSetEvictable f b => SetEvictable f b r
  | CEvict => Ok (snd (Evict r))
  | CRemove f => Remove f r
  end.

Fixpoint run (cs : list Call) (r : Replacer) : Result Replacer :=
  match cs with
  | [] => Ok r
  | c :: cs' =>
      match call c r with
      | Ok r' => run cs' r'
      | AssertionFailure => AssertionFailure
      | Exception => Exception
      end
  end.

End WithIsFull.

(** One reading of [IsFull], used where a run needs a concrete one: as
    many frames are tracked as the replacer has room for. *)
Definition IsFull_tracked (r : Replacer) : bool :=
  replacer_size_ r <=? Z.of_nat (size (history_cnt_ r)).

(** ** The log of a client's calls

    A log lists the [RecordAccess] and [SetEvictable] calls made so far,
    the most recent first; a call's time is its position counted from
    the first call, starting at 1. *)

Definition is_access (f : Z) (c : Call) : bool :=
  match c with
  | CRecordAccess g => bool_decide (g = f)
  | _ => false
  end.

(** Times of the accesses to [f], the most recent first. *)
Fixpoint access_times (f : Z) (h : list Call) : list nat :=
  match h with
  | [] => []
  | c :: h' =>
      if is_access f c then length h :: access_times f h'
      else access_times f h'
  end.

Definition count_accesses (f : Z) (h : list Call) : nat :=
  length (access_times f h).

(** Time of the most recent and of the first access, [0] for none. *)
Definition last_time (f : Z) (h : list Call) : nat :=
  hd 0%nat (access_times f h).

Definition first_time (f : Z) (h : list Call) : nat :=
  List.last (access_times f h) 0%nat.

(** Modelled from the spec: the glossary's backward k-distance, "for a
    frame f at time t, the difference t − t_{k-th most recent access to
    f}; infinity if fewer than k accesses".  [None] is infinity. *)
Definition backward_k_distance (k : nat) (f : Z) (h : list Call)
  : option nat :=
  (λ t, length h - t)%nat <$> access_times f h !! (k - 1)%nat.

(** Logs of [RecordAccess] and [SetEvictable] calls on a fresh replacer
    in which every [SetEvictable(f, _)] comes after a [RecordAccess(f)]
    and no first access finds the replacer full, with the state each
    leaves behind. *)
Inductive Reach (IsFull : Replacer → bool) (n : Z) (k : nat)
  : list Call → Replacer → Prop :=
  | Reach_init : Reach IsFull n k [] (LRUKReplacer n k)
  | Reach_access h r f r' :
      Reach IsFull n k h r →
      (history_cnt_ r !! f = None → IsFull r = false) →
      RecordAccess IsFull f r = Ok r' →
      Reach IsFull n k (CRecordAccess f :: h) r'
  | Reach_set h r f b r' :
      Reach IsFull n k h r →
      (0 < count_accesses f h)%nat →
      SetEvictable f b r = Ok r' →
      Reach IsFull n k (CSetEvictable f b :: h) r'.

(** ** Vocabulary of the eviction-policy proof *)

(** Two flag maps that flag the same frames as evictable. *)
Definition same_true (ev ev' : gmap Z bool) : Prop :=
  ∀ x, ev' !! x = Some true ↔ ev !! x = Some true.

(** Orders on frames read off a log: by first access and by most recent
    access, the later one first. *)
Definition later_first (h : list Call) : relation Z :=
  λ a b, (first_time b h < first_time a h)%nat.

Definition later_last (h : list Call) : relation Z :=
  λ a b, (last_time b h < last_time a h)%nat.

Definition count_entry (h : list Call) (f : Z) : option nat :=
  if decide (count_accesses f h = 0%nat) then None
  else Some (count_accesses f h).

(** What a log tells about the state it leads to: the counts are the
    numbers of accesses, the history queue holds the frames with fewer
    than [k] accesses, a later first access nearer the front, the cache
    queue holds the others, a later last access nearer the front, and
    only accessed frames are flagged evictable. *)
Record Inv (k : nat) (h : list Call) (r : Replacer) : Prop := mkInv {
  inv_k : k_ r = k;
  inv_cnt : ∀ f, history_cnt_ r !! f = count_entry h f;
  inv_hist : ∀ f, f ∈ history_list_ r ↔ (0 < count_accesses f h < k)%nat;
  inv_hist_sorted : StronglySorted (later_first h) (history_list_ r);
  inv_buf : ∀ f, f ∈ buffer_list_ r ↔
                 (0 < count_accesses f h ∧ k ≤ count_accesses f h)%nat;
  inv_buf_sorted : StronglySorted (later_last h) (buffer_list_ r);
  inv_ev : ∀ f, evictable_ r !! f = Some true → (0 < count_accesses f h)%nat
}.

(** A run used to exercise the policy: [k = 2], frame 1 accessed at
    times 1 and 4, frame 2 at times 2 and 3, both then made evictable.
    The log lists it most recent call first. *)
Definition policy_log : list Call :=
  [CSetEvictable 2 true; CSetEvictable 1 true;
   CRecordAccess 1; CRecordAccess 2; CRecordAccess 2; CRecordAccess 1].

Definition policy_state : Replacer :=
  Eval vm_compute in
    match run IsFull_tracked (reverse policy_log) (LRUKReplacer 7 2) with
    | Ok r => r
    | _ => LRUKReplacer 7 2
    end.

(** The frames whose evictable flag is set. *)
Definition flagged (ev : gmap Z bool) : gset Z :=
  dom (filter (λ kv : Z * bool, kv.2 = true) ev).

Definition evictable_frames (r : Replacer) : gset Z := flagged (evictable_ r).

(** [curr_size_] counts, as a [size_t], the frames flagged evictable, and
    every such frame has an entry in [history_cnt_]. *)
Definition Accounted (r : Replacer) : Prop :=
  curr_size_ r = Z.of_nat (size (evictable_frames r)) mod 2 ^ 64 ∧
  ∀ f, evictable_ r !! f = Some true → is_Some (history_cnt_ r !! f).

(** A replacer for one frame, after frame 0 was accessed once. *)
Definition full_state : Replacer :=
  Eval vm_compute in
    match run IsFull_tracked [CRecordAccess 0] (LRUKReplacer 1 2) with
    | Ok r => r
    | _ => LRUKReplacer 1 2
    end.

End LRUK.

(* ===================================================================== *)
(** * Extendible hash table                                               *)
(* ===================================================================== *)

Module EHT.

(** A call returns, runs into undefined behaviour (a shift by 31 bits or
    more on [int], an index past the end of [dir_]), or is cut off by the
    fuel that bounds the split loop. *)
Inductive Result (A : Type) : Type :=
  | Ok (a : A)
  | Undefined
  | OutOfFuel.
Arguments Ok {A} a.
Arguments Undefined {A}.
Arguments OutOfFuel {A}.

Definition bind {A B} (m : Result A) (f : A → Result B) : Result B :=
  match m with
  | Ok a => f a
  | Undefined => Undefined
  | OutOfFuel => OutOfFuel
  end.

Notation "'let*' x ':=' m 'in' k" := (bind m (λ x, k))
  (at level 10, x name, m at level 100, k at level 200).

(** [Bucket]: capacity [size_], local depth [depth_], the pairs. *)
Record Bucket : Type := mkBucket {
  size_ : Z;
  depth_ : Z;
  list_ : list (Z * Z)
}.

(** The table.  [dir_] is a vector of [shared_ptr<Bucket>]: the model
    keeps the buckets in [heap_] and the directory holds their addresses,
    so that slots can share a bucket and [dir_[i] == tar_bucket] compares
    addresses; [next_] is the next address [make_shared] hands out. *)
Record Table : Type := mkTable {
  global_depth_ : Z;
  bucket_size_ : Z;
  num_buckets_ : Z;
  dir_ : list nat;
  heap_ : gmap nat Bucket;
  next_ : nat
}.

(** Modelled from the spec: the header that initialises the depth and
    the bucket count is absent; "one bucket exists at construction
    (global_depth = 0, local_depth = 0)". *)
Definition ExtendibleHashTable (bucket_size : Z) : Table :=
  mkTable 0 bucket_size 1 [0%nat] {[ 0%nat := mkBucket bucket_size 0 [] ]} 1.

(** ** Bucket *)

(** Modelled from the spec: [IsFull] is defined in the absent header; a
    bucket is "an ordered list of at most bucket_capacity key/value
    pairs" and is full when it holds that many. *)
Definition IsFull (b : Bucket) : bool :=
  Z.of_nat (length (list_ b)) =? size_ b.

Definition GetDepth (b : Bucket) : Z := depth_ b.
Definition GetItems (b : Bucket) : list (Z * Z) := list_ b.

Fixpoint find_key (key : Z) (l : list (Z * Z)) : option Z :=
  match l with
  | [] => None
  | (k, v) :: l' => if k =? key then Some v else find_key key l'
  end.

Definition Bucket_Find (key : Z) (b : Bucket) : option Z :=
  find_key key (list_ b).

(** [list_.remove({key, val})] erases every pair equal to the one
    found. *)
Definition Bucket_Remove (key : Z) (b : Bucket) : bool * Bucket :=
  match Bucket_Find key b with
  | Some val =>
      (true,
       mkBucket (size_ b) (depth_ b)
         (filter (λ kv, kv ≠ (key, val)) (list_ b)))
  | None => (false, b)
  end.

Fixpoint assign_key (key value : Z) (l : list (Z * Z))
  : option (list (Z * Z)) :=
  match l with
  | [] => None
  | (k, v) :: l' =>
      if k =? key then Some ((k, value) :: l')
      else option_map (cons (k, v)) (assign_key key value l')
  end.

Definition Bucket_Insert (key value : Z) (b : Bucket) : bool * Bucket :=
  match assign_key key value (list_ b) with
  | Some l => (true, mkBucket (size_ b) (depth_ b) l)
  | None =>
      if IsFull b then (false, b)
      else (true, mkBucket (size_ b) (depth_ b) (list_ b ++ [(key, value)]))
  end.

(** ** Table *)

(** [1 << d] on [int]. *)
Definition shl1 (d : Z) : Result Z :=
  if (0 <=? d) && (d <? 31) then Ok (2 ^ d) else Undefined.

Definition dir_at (i : Z) (t : Table) : Result nat :=
  if i <? 0 then Undefined
  else match dir_ t !! Z.to_nat i with
       | Some p => Ok p
       | None => Undefined
       end.

Definition bucket_at (p : nat) (t : Table) : Result Bucket :=
  match heap_ t !! p with
  | Some b => Ok b
  | None => Undefined
  end.

Definition set_bucket (p : nat) (b : Bucket) (t : Table) : Table :=
  mkTable (global_depth_ t) (bucket_size_ t) (num_buckets_ t) (dir_ t)
    (<[p := b]> (heap_ t)) (next_ t).

Section WithHash.

(** [std::hash<K>()]; its values are [size_t]. *)
Variable hash : Z → Z.

Definition IndexOf (key : Z) (t : Table) : Result Z :=
  let* m := shl1 (global_depth_ t) in
  Ok (Z.land (hash key) (m - 1)).

Definition GetGlobalDepth (t : Table) : Z := global_depth_ t.

Definition GetLocalDepth (dir_index : Z) (t : Table) : Result Z :=
  let* p := dir_at dir_index t in
  let* b := bucket_at p t in
  Ok (GetDepth b).

Definition GetNumBuckets (t : Table) : Z := num_buckets_ t.

Definition Find (key : Z) (t : Table) : Result (option Z) :=
  let* index := IndexOf key t in
  let* p := dir_at index t in
  let* b := bucket_at p t in
  Ok (Bucket_Find key b).

Definition Remove (key : Z) (t : Table) : Result (bool * Table) :=
  let* index := IndexOf key t in
  let* p := dir_at index t in
  let* b := bucket_at p t in
  let '(found, b') := Bucket_Remove key b in
  Ok (found, set_bucket p b' t).

(** The rehash loop over [tar_bucket->GetItems()]. *)
Fixpoint rehash (mask : Z) (items : list (Z * Z)) (b0 b1 : Bucket)
  : Bucket * Bucket :=
  match items with
  | [] => (b0, b1)
  | (oldKey, oldValue) :: rest =>
      if negb (Z.land (hash oldKey) mask =? 0)
      then rehash mask rest b0 (snd (Bucket_Insert oldKey oldValue b1))
      else rehash mask rest (snd (Bucket_Insert oldKey oldValue b0)) b1
  end.

(** The redirect loop over the slots of [dir_]. *)
Definition redirect (mask : Z) (tar p0 p1 : nat) (d : list nat) : list nat :=
  imap (λ i p,
          if bool_decide (p = tar)
          then if negb (Z.land (Z.of_nat i) mask =? 0) then p1 else p0
          else p) d.

(** One pass through the body of [while (dir_[IndexOf(key)]->IsFull())]. *)
Definition split (key : Z) (t : Table) : Result Table :=
  let* index := IndexOf key t in
  let* tar := dir_at index t in
  let* tar_bucket := bucket_at tar t in
  let* mask := shl1 (GetDepth tar_bucket) in
  let doubled := GetDepth tar_bucket =? global_depth_ t in
  let gd := if doubled then global_depth_ t + 1 else global_depth_ t in
  let d := if doubled then dir_ t ++ dir_ t else dir_ t in
  let p0 := next_ t in
  let p1 := S (next_ t) in
  let '(bucket0, bucket1) :=
    rehash mask (GetItems tar_bucket)
      (mkBucket (bucket_size_ t) (GetDepth tar_bucket + 1) [])
      (mkBucket (bucket_size_ t) (GetDepth tar_bucket + 1) []) in
  Ok (mkTable gd (bucket_size_ t) (num_buckets_ t + 1)
        (redirect mask tar p0 p1 d)
        (<[p1 := bucket1]> (<[p0 := bucket0]> (heap_ t)))
        (S (S (next_ t)))).

Fixpoint split_loop (fuel : nat) (key : Z) (t : Table) : Result Table :=
  let* index := IndexOf key t in
  let* p := dir_at index t in
  let* b := bucket_at p t in
  if IsFull b then
    match fuel with
    | O => OutOfFuel
    | S fuel' => let* t' := split key t in split_loop fuel' key t'
    end
  else Ok t.

Definition Insert (fuel : nat) (key value : Z) (t : Table) : Result Table :=
  let* index := IndexOf key t in
  let* tar := dir_at index t in
  let* tar_bucket := bucket_at tar t in
  let* _ := shl1 (GetDepth tar_bucket) in
  let continue (t1 : Table) :=
    let* t2 := split_loop fuel key t1 in
    let* index := IndexOf key t2 in
    let* tar := dir_at index t2 in
    let* tar_bucket := bucket_at tar t2 in
    Ok (set_bucket tar (snd (Bucket_Insert key value tar_bucket)) t2) in
  match Bucket_Find key tar_bucket with
  | Some val =>
      if val =? value then Ok t
      else continue (set_bucket tar (snd (Bucket_Remove key tar_bucket)) t)
  | None => continue t
  end.

(** Calls of the mutating interface and a client's run of them. *)
Inductive Call : Type :=
  | CInsert (key value : Z)
  | CRemove (key : Z).

Definition call (fuel : nat) (c : Call) (t : Table) : Result Table :=
  match c with
  | CInsert key value => Insert fuel key value t
  | CRemove key => let* r := Remove key t in Ok (snd r)
  end.

Fixpoint run (fuel : nat) (cs : list Call) (t : Table) : Result Table :=
  match cs with
  | [] => Ok t
  | c :: cs' => let* t' := call fuel c t in run fuel cs' t'
  end.

End WithHash.

(** The entries of all buckets reachable from the directory, each bucket
    taken once. *)
Definition bucket_items (t : Table) (p : nat) : list (Z * Z) :=
  match heap_ t !! p with
  | Some b => list_ b
  | None => []
  end.

Definition all_entries (t : Table) : list (Z * Z) :=
  flat_map (bucket_items t) (remove_dups (dir_ t)).

Definition entries_of (key : Z) (t : Table) : list (Z * Z) :=
  filter (λ kv, kv.1 = key) (all_entries t).

(** [std::hash<int>] as the library in use defines it: the value
    converted to [size_t]. *)
Definition hash_int (k : Z) : Z := k mod 2 ^ 64.

(** ** Vocabulary of the invariant *)

(** A bucket of capacity [bs] and depth [d], within capacity, without a
    repeated key, all of whose keys satisfy [P]. *)
Record Bok (bs d : Z) (P : Z → Prop) (b : Bucket) : Prop := mkBok {
  bok_size : size_ b = bs;
  bok_depth : depth_ b = d;
  bok_length : Z.of_nat (length (list_ b)) ≤ bs;
  bok_nodup : NoDup (list_ b).*1;
  bok_keys : ∀ x, x ∈ (list_ b).*1 → P x
}.

Section Invariant.

Variable hash : Z → Z.

(** The slot a key hashes to. *)
Definition slot_of (t : Table) (x : Z) : nat :=
  Z.to_nat (hash x mod 2 ^ global_depth_ t).

(** Bucket [b], stored at address [p] and pointed at by slot [i]. *)
Record bucket_wf (t : Table) (i p : nat) (b : Bucket) : Prop := mkBucketWf {
  bwf_depth : 0 ≤ depth_ b ≤ global_depth_ t;
  bwf_bok : Bok (bucket_size_ t) (depth_ b)
              (λ x, dir_ t !! slot_of t x = Some p) b;
  bwf_share : ∀ j, dir_ t !! j = Some p →
                   Z.of_nat j mod 2 ^ depth_ b = Z.of_nat i mod 2 ^ depth_ b
}.

Record WF (t : Table) : Prop := mkWF {
  wf_depth : 0 ≤ global_depth_ t;
  wf_length : Z.of_nat (length (dir_ t)) = 2 ^ global_depth_ t;
  wf_fresh : ∀ p, p ∈ dir_ t → (p < next_ t)%nat;
  wf_bucket : ∀ i p, dir_ t !! i = Some p →
                     ∃ b, heap_ t !! p = Some b ∧ bucket_wf t i p b
}.

(** The pairs of the bucket a key hashes to. *)
Definition target_items (key : Z) (t : Table) : list (Z * Z) :=
  match dir_ t !! slot_of t key with
  | Some p => bucket_items t p
  | None => []
  end.

End Invariant.

(** With capacity zero every bucket is full, and stays so. *)
Definition all_full (t : Table) : Prop :=
  bucket_size_ t = 0 ∧
  ∀ p b, heap_ t !! p = Some b → list_ b = [] ∧ size_ b = 0.

(** A table of capacity 1 whose only bucket holds key 0, and the tables
    on which key [2^30] hashes to a bucket holding just that pair: the
    two hashes differ in bit 30 only. *)
Definition stuck_table : Table :=
  Eval vm_compute in
    match run hash_int 0 [CInsert 0 100] (ExtendibleHashTable 1) with
    | Ok t => t
    | _ => ExtendibleHashTable 1
    end.

Definition stuck (t : Table) : Prop :=
  WF hash_int t ∧ global_depth_ t ≤ 30 ∧ bucket_size_ t = 1 ∧
  target_items hash_int (2 ^ 30) t = [(0, 100)].

(** A table used to exercise the theorems: capacity 2, one full bucket
    holding keys 0 and 1. *)
Definition demo_calls : list Call := [CInsert 0 100; CInsert 1 101].

Definition demo_table : Table :=
  Eval vm_compute in
    match run hash_int 0 demo_calls (ExtendibleHashTable 2) with
    | Ok t => t
    | _ => ExtendibleHashTable 2
    end.

(** What the table holds for a key: the value paired with it in the
    bucket its hash leads to. *)
Definition content (hash : Z → Z) (t : Table) (key : Z) : option Z :=
  find_key key (target_items hash key t).

(** The map a client's calls describe: [Insert] binds the key to the
    value, [Remove] unbinds it. *)
Definition abstract_call (m : gmap Z Z) (c : Call) : gmap Z Z :=
  match c with
  | CInsert key value => <[key := value]> m
  | CRemove key => delete key m
  end.

Definition abstract_map (cs : list Call) : gmap Z Z :=
  foldl abstract_call ∅ cs.

(** The buckets the directory points to, each counted once. *)
Definition buckets (t : Table) : gset nat := list_to_set (dir_ t).

(** [num_buckets_] counts the buckets the directory points to, and a
    bucket of depth [d] is pointed at by every slot that agrees, in its
    low [d] bits, with one that points at it. *)
Record Covered (t : Table) : Prop := mkCovered {
  cov_count : num_buckets_ t = Z.of_nat (size (buckets t));
  cov_slots : ∀ i j p b,
    dir_ t !! i = Some p → heap_ t !! p = Some b →
    (j < length (dir_ t))%nat →
    Z.of_nat j mod 2 ^ depth_ b = Z.of_nat i mod 2 ^ depth_ b →
    dir_ t !! j = Some p
}.

(** [demo_table] after [Insert(2, 102)], which splits its bucket. *)
Definition demo_split_table : Table :=
  Eval vm_compute in
    match Insert hash_int 30 2 102 demo_table with
    | Ok t => t
    | _ => demo_table
    end.

(** [Insert(key, _)] finds room: the key is already in the bucket it
    hashes to, or that bucket is below capacity, or some key in it parts
    from [key] within the low 30 bits of the hash, the bits a directory
    indexed by [int] shifts can tell apart. *)
Definition has_room (hash : Z → Z) (key : Z) (t : Table) : Prop :=
  key ∈ (target_items hash key t).*1 ∨
  Z.of_nat (length (target_items hash key t)) < bucket_size_ t ∨
  ∃ x, x ∈ (target_items hash key t).*1 ∧
       hash x mod 2 ^ 30 ≠ hash key mod 2 ^ 30.

End EHT.

(* ===================================================================== *)
(** * B+Tree                                                              *)
(* ===================================================================== *)

Module BPT.

Definition INVALID_PAGE_ID : Z := -1.
Definition HEADER_PAGE_ID : Z := 0.

Inductive IndexPageType : Type :=
  | INVALID_INDEX_PAGE
  | LEAF_PAGE
  | INTERNAL_PAGE.

(** A tree page: the common header, the leaf's [next_page_id_], and the
    first [size] slots of [array_].  A leaf slot is (key, record id), an
    internal slot (key, child page id); keys and ids are integers and the
    comparator is their order. *)
Record Page : Type := mkPage {
  page_type_ : IndexPageType;
  max_size_ : Z;
  parent_page_id_ : Z;
  page_id_ : Z;
  next_page_id_ : Z;
  array_ : list (Z * Z)
}.

(** Calls received by the header page. *)
Inductive HeaderCall : Type :=
  | InsertRecord (root_id : Z)
  | UpdateRecord (root_id : Z).

(** The tree object with its collaborators: the buffer pool's pages by
    page id and the next id it mints, the header page's calls in the
    order received, the operation's deleted-page set.  Latches and pin
    counts do not change what a page holds and are left out. *)
Record Tree : Type := mkTree {
  root_page_id_ : Z;
  leaf_max_size_ : Z;
  internal_max_size_ : Z;
  pages_ : gmap Z Page;
  bpm_next_page_id_ : Z;
  header_calls_ : list HeaderCall;
  deleted_page_set_ : list Z
}.

(** [BPlusTree(name, bpm, comparator, leaf_max_size, internal_max_size)]
    on a pool that holds the header page only. *)
Definition BPlusTree (leaf_max_size internal_max_size : Z) : Tree :=
  mkTree INVALID_PAGE_ID leaf_max_size internal_max_size ∅ 1 [] [].

(** ** Pages

    Modelled from the spec: b_plus_tree_page.cpp,
    b_plus_tree_leaf_page.cpp and b_plus_tree_internal_page.cpp are not
    among the sources.  The spec gives the layout (section 3.3), the
    minimum sizes "min_size = ⌈L/2⌉" and "⌈I/2⌉", a root marked by
    [parent_id = INVALID] (AdjustRoot), keys strictly ordered in a page,
    child [i] holding the keys from [key_i] on, a split that moves "the
    upper half of entries" and leaves [min_size] of them, a new root with
    "two children (old, new) and the split key at index 1", and the
    moves of Redistribute and Coalesce.  An index past the used slots is
    a fault, as is looking up the index of a child that is not there. *)

Definition GetSize (p : Page) : Z := Z.of_nat (length (array_ p)).
Definition GetMaxSize (p : Page) : Z := max_size_ p.
Definition GetMinSize (p : Page) : Z := (max_size_ p + 1) / 2.
Definition GetPageId (p : Page) : Z := page_id_ p.
Definition GetParentPageId (p : Page) : Z := parent_page_id_ p.
Definition GetNextPageId (p : Page) : Z := next_page_id_ p.

Definition IsLeafPage (p : Page) : bool :=
  match page_type_ p with LEAF_PAGE => true | _ => false end.

Definition IsRootPage (p : Page) : bool :=
  parent_page_id_ p =? INVALID_PAGE_ID.

Definition Init (ty : IndexPageType) (page_id parent_id max_size : Z) : Page :=
  mkPage ty max_size parent_id page_id INVALID_PAGE_ID [].

Definition SetParentPageId (parent_id : Z) (p : Page) : Page :=
  mkPage (page_type_ p) (max_size_ p) parent_id (page_id_ p)
    (next_page_id_ p) (array_ p).

Definition SetNextPageId (next_id : Z) (p : Page) : Page :=
  mkPage (page_type_ p) (max_size_ p) (parent_page_id_ p) (page_id_ p)
    next_id (array_ p).

Definition set_array (a : list (Z * Z)) (p : Page) : Page :=
  mkPage (page_type_ p) (max_size_ p) (parent_page_id_ p) (page_id_ p)
    (next_page_id_ p) a.

Definition slot_at (index : Z) (p : Page) : option (Z * Z) :=
  if index <? 0 then None else array_ p !! Z.to_nat index.

Definition KeyAt (index : Z) (p : Page) : option Z := fst <$> slot_at index p.
Definition ValueAt (index : Z) (p : Page) : option Z := snd <$> slot_at index p.

Definition SetKeyAt (index key : Z) (p : Page) : option Page :=
  match slot_at index p with
  | Some (_, v) => Some (set_array (<[Z.to_nat index := (key, v)]> (array_ p)) p)
  | None => None
  end.

(** *** Leaf pages *)

Fixpoint find_key (key : Z) (a : list (Z * Z)) : option Z :=
  match a with
  | [] => None
  | (k, v) :: a' => if k =? key then Some v else find_key key a'
  end.

Fixpoint insert_sorted (key value : Z) (a : list (Z * Z)) : list (Z * Z) :=
  match a with
  | [] => [(key, value)]
  | (k, v) :: a' =>
      if key <? k then (key, value) :: a
      else (k, v) :: insert_sorted key value a'
  end.

(** [LeafPage::Lookup(key, &value, comparator)]. *)
Definition Leaf_Lookup (key : Z) (p : Page) : option Z :=
  find_key key (array_ p).

(** [LeafPage::Insert(key, value, comparator)], returning the size after
    the call; a key already there leaves the page as it is. *)
Definition Leaf_Insert (key value : Z) (p : Page) : Z * Page :=
  match find_key key (array_ p) with
  | Some _ => (GetSize p, p)
  | None =>
      let p' := set_array (insert_sorted key value (array_ p)) p in
      (GetSize p', p')
  end.

(** [LeafPage::RemoveAndDeleteRecord(key, comparator)], returning the
    size after the call. *)
Definition Leaf_RemoveAndDeleteRecord (key : Z) (p : Page) : Z * Page :=
  let p' := set_array (filter (λ kv, kv.1 ≠ key) (array_ p)) p in
  (GetSize p', p').

(** [MoveHalfTo(recipient)]: the entries after the first [min_size] go to
    the recipient. *)
Definition MoveHalfTo (p recipient : Page) : Page * Page :=
  let n := Z.to_nat (GetMinSize p) in
  (set_array (take n (array_ p)) p,
   set_array (array_ recipient ++ drop n (array_ p)) recipient).

(** [LeafPage::MoveAllTo(recipient)]: the recipient also takes over the
    link to the next leaf. *)
Definition Leaf_MoveAllTo (p recipient : Page) : Page * Page :=
  (set_array [] p,
   SetNextPageId (next_page_id_ p)
     (set_array (array_ recipient ++ array_ p) recipient)).

Definition MoveFirstToEndOf (p recipient : Page) : option (Page * Page) :=
  match array_ p with
  | [] => None
  | kv :: a' => Some (set_array a' p, set_array (array_ recipient ++ [kv]) recipient)
  end.

Definition MoveLastToFrontOf (p recipient : Page) : option (Page * Page) :=
  match List.rev (array_ p) with
  | [] => None
  | kv :: ra => Some (set_array (List.rev ra) p, set_array (kv :: array_ recipient) recipient)
  end.

(** *** Internal pages *)

Fixpoint lookup_child (key : Z) (a : list (Z * Z)) (child : Z) : Z :=
  match a with
  | [] => child
  | (k, c) :: a' => if k <=? key then lookup_child key a' c else child
  end.

(** [InternalPage::Lookup(key, comparator)]: the child whose key range
    holds [key]. *)
Definition Internal_Lookup (key : Z) (p : Page) : option Z :=
  match array_ p with
  | [] => None
  | (_, c0) :: a' => Some (lookup_child key a' c0)
  end.

Fixpoint value_index (value : Z) (a : list (Z * Z)) (i : Z) : option Z :=
  match a with
  | [] => None
  | (_, v) :: a' => if v =? value then Some i else value_index value a' (i + 1)
  end.

Definition ValueIndex (value : Z) (p : Page) : option Z :=
  value_index value (array_ p) 0.

Definition PopulateNewRoot (old_value key new_value : Z) (p : Page) : Page :=
  set_array [(0, old_value); (key, new_value)] p.

Fixpoint insert_after (old_value key new_value : Z) (a : list (Z * Z))
  : list (Z * Z) :=
  match a with
  | [] => []
  | (k, v) :: a' =>
      if v =? old_value then (k, v) :: (key, new_value) :: a'
      else (k, v) :: insert_after old_value key new_value a'
  end.

Definition InsertNodeAfter (old_value key new_value : Z) (p : Page) : Page :=
  set_array (insert_after old_value key new_value (array_ p)) p.

(** [InternalPage::Remove(index)]. *)
Definition Internal_Remove (index : Z) (p : Page) : option Page :=
  match slot_at index p with
  | Some _ => Some (set_array (delete (Z.to_nat index) (array_ p)) p)
  | None => None
  end.

(** ** The tree's operations: state passing with faults *)

Definition M (A : Type) : Type := Tree → option (A * Tree).

Definition ret {A} (a : A) : M A := λ t, Some (a, t).
Definition fault {A} : M A := λ _, None.
Definition bind {A B} (m : M A) (f : A → M B) : M B :=
  λ t, match m t with
       | Some (a, t') => f a t'
       | None => None
       end.

Notation "'let*' x ':=' m 'in' k" := (bind m (λ x, k))
  (at level 10, x name, m at level 100, k at level 200).
Notation "m ;; k" := (bind m (λ _, k))
  (at level 100, k at level 200, right associativity).

Definition lift {A} (o : option A) : M A :=
  λ t, match o with Some a => Some (a, t) | None => None end.

Definition get {A} (f : Tree → A) : M A := λ t, Some (f t, t).

Definition set_pages (f : gmap Z Page → gmap Z Page) : M unit :=
  λ t, Some (tt, mkTree (root_page_id_ t) (leaf_max_size_ t)
                   (internal_max_size_ t) (f (pages_ t))
                   (bpm_next_page_id_ t) (header_calls_ t)
                   (deleted_page_set_ t)).

Definition set_root_page_id (id : Z) : M unit :=
  λ t, Some (tt, mkTree id (leaf_max_size_ t) (internal_max_size_ t)
                   (pages_ t) (bpm_next_page_id_ t) (header_calls_ t)
                   (deleted_page_set_ t)).

Definition set_deleted_page_set (l : list Z) : M unit :=
  λ t, Some (tt, mkTree (root_page_id_ t) (leaf_max_size_ t)
                   (internal_max_size_ t) (pages_ t)
                   (bpm_next_page_id_ t) (header_calls_ t) l).

Definition header_call (c : HeaderCall) : M unit :=
  λ t, Some (tt, mkTree (root_page_id_ t) (leaf_max_size_ t)
                   (internal_max_size_ t) (pages_ t)
                   (bpm_next_page_id_ t) (header_calls_ t ++ [c])
                   (deleted_page_set_ t)).

(** Buffer pool, from its contract in the spec: [FetchPage] returns the
    page with that id (using a null result is a fault), [NewPage] mints
    a fresh id, [DeletePage] frees the page.  The pool is taken large
    enough for [NewPage] to succeed. *)
Definition FetchPage (page_id : Z) : M Page :=
  λ t, match pages_ t !! page_id with
       | Some p => Some (p, t)
       | None => None
       end.

Definition NewPage : M Z :=
  λ t, let id := bpm_next_page_id_ t in
       Some (id, mkTree (root_page_id_ t) (leaf_max_size_ t)
                   (internal_max_size_ t)
                   (<[id := Init INVALID_INDEX_PAGE id INVALID_PAGE_ID 0]> (pages_ t))
                   (id + 1) (header_calls_ t) (deleted_page_set_ t)).

Definition DeletePage (page_id : Z) : M unit :=
  set_pages (delete page_id).

(** Writing through a pointer into a pinned page. *)
Definition write (p : Page) : M unit := set_pages (<[page_id_ p := p]>).

Definition AddIntoDeletedPageSet (page_id : Z) : M unit :=
  let* s := get deleted_page_set_ in set_deleted_page_set (s ++ [page_id]).

(** The buffer-pool half of an internal page's move: each moved child is
    fetched and given its new parent. *)
Fixpoint reparent (children : list (Z * Z)) (parent_id : Z) : M unit :=
  match children with
  | [] => ret tt
  | (_, c) :: rest =>
      let* child := FetchPage c in
      write (SetParentPageId parent_id child);;
      reparent rest parent_id
  end.

Definition IsEmpty (t : Tree) : bool := root_page_id_ t =? INVALID_PAGE_ID.

(** [FindLeaf(key, op, transaction, leftMost, rightMost)]; [op] and
    [transaction] only drive the latching.  [fuel] bounds the descent. *)
Fixpoint descend (fuel : nat) (key : Z) (leftMost rightMost : bool)
  (node : Page) : M Page :=
  if IsLeafPage node then ret node
  else
    match fuel with
    | O => fault
    | S fuel' =>
        let* child_node_page_id :=
          lift (if leftMost then ValueAt 0 node
                else if rightMost then ValueAt (GetSize node - 1) node
                else Internal_Lookup key node) in
        if negb (0 <? child_node_page_id) then fault
        else
          let* child_node := FetchPage child_node_page_id in
          descend fuel' key leftMost rightMost child_node
    end.

Definition FindLeaf (fuel : nat) (key : Z) (leftMost rightMost : bool)
  : M Page :=
  let* root := get root_page_id_ in
  if root =? INVALID_PAGE_ID then fault
  else
    let* node := FetchPage root in
    descend fuel key leftMost rightMost node.

(** [GetValue(key, result, transaction)]: [Some v] is a [true] return
    with [v] pushed on [result]. *)
Definition GetValue (fuel : nat) (key : Z) : M (option Z) :=
  let* leaf_node := FindLeaf fuel key false false in
  ret (Leaf_Lookup key leaf_node).

Definition UpdateRootPageId (insert_record : Z) : M unit :=
  let* root := get root_page_id_ in
  if negb (insert_record =? 0) then header_call (InsertRecord root)
  else header_call (UpdateRecord root).

Definition StartNewTree (key value : Z) : M unit :=
  let* id := NewPage in
  set_root_page_id id;;
  let* L := get leaf_max_size_ in
  let leaf_node := Init LEAF_PAGE id INVALID_PAGE_ID L in
  write (snd (Leaf_Insert key value leaf_node)).

(** [Split(node)]: the node after the move and the new page.  The new
    page is written to the pool; the node is handed back, for the caller
    holds it either in the pool or in scratch memory. *)
Definition Split (node : Page) : M (Page * Page) :=
  let* page_id := NewPage in
  if IsLeafPage node then
    let* L := get leaf_max_size_ in
    let new_leaf := Init LEAF_PAGE page_id (GetParentPageId node) L in
    let '(leaf, new_leaf') := MoveHalfTo node new_leaf in
    write new_leaf';;
    ret (leaf, new_leaf')
  else
    let* I := get internal_max_size_ in
    let new_internal := Init (page_type_ node) page_id (GetParentPageId node) I in
    let '(internal, new_internal') := MoveHalfTo node new_internal in
    write new_internal';;
    reparent (array_ new_internal') page_id;;
    ret (internal, new_internal').

Fixpoint InsertIntoParent (fuel : nat) (old_id key new_id : Z) : M unit :=
  let* old_node := FetchPage old_id in
  let* new_node := FetchPage new_id in
  if IsRootPage old_node then
    let* id := NewPage in
    set_root_page_id id;;
    let* I := get internal_max_size_ in
    let new_root :=
      PopulateNewRoot (GetPageId old_node) key (GetPageId new_node)
        (Init INTERNAL_PAGE id INVALID_PAGE_ID I) in
    write (SetParentPageId (GetPageId new_root) old_node);;
    write (SetParentPageId (GetPageId new_root) new_root);;
    UpdateRootPageId 0
  else
    let* parent_node := FetchPage (GetParentPageId old_node) in
    let* I := get internal_max_size_ in
    if GetSize parent_node <? I then
      write (InsertNodeAfter (GetPageId old_node) key (GetPageId new_node)
               parent_node)
    else
      match fuel with
      | O => fault
      | S fuel' =>
          let tmp_parent_node :=
            InsertNodeAfter (GetPageId old_node) key (GetPageId new_node)
              parent_node in
          let* halves := Split tmp_parent_node in
          let '(tmp', sibling_parent_node) := halves in
          let* new_key := lift (KeyAt 0 sibling_parent_node) in
          write (set_array (take (Z.to_nat (GetMinSize tmp')) (array_ tmp')) tmp');;
          InsertIntoParent fuel' (GetPageId parent_node) new_key
            (GetPageId sibling_parent_node)
      end.

Definition InsertIntoLeaf (fuel : nat) (key value : Z) : M bool :=
  let* leaf_node := FindLeaf fuel key false false in
  let size := GetSize leaf_node in
  let '(new_size, leaf1) := Leaf_Insert key value leaf_node in
  write leaf1;;
  let* L := get leaf_max_size_ in
  if new_size =? size then ret false
  else if new_size <? L then ret true
  else
    let* halves := Split leaf1 in
    let '(leaf2, sibling_node) := halves in
    let sibling' := SetNextPageId (GetNextPageId leaf2) sibling_node in
    let leaf3 := SetNextPageId (GetPageId sibling') leaf2 in
    write sibling';;
    write leaf3;;
    let* update_key := lift (KeyAt 0 sibling') in
    InsertIntoParent fuel (GetPageId leaf3) update_key (GetPageId sibling');;
    ret true.

Definition Insert (fuel : nat) (key value : Z) : M bool :=
  let* empty := get IsEmpty in
  if empty then StartNewTree key value;; ret true
  else InsertIntoLeaf fuel key value.

Definition AdjustRoot (old_root_node : Page) : M bool :=
  if negb (IsLeafPage old_root_node) && (GetSize old_root_node =? 1) then
    let* child_id := lift (ValueAt 0 old_root_node) in
    let* only_child_node := FetchPage child_id in
    write (SetParentPageId INVALID_PAGE_ID only_child_node);;
    set_root_page_id child_id;;
    UpdateRootPageId 0;;
    ret true
  else if IsLeafPage old_root_node && (GetSize old_root_node =? 0) then
    set_root_page_id INVALID_PAGE_ID;;
    ret true
  else ret false.

Definition Redistribute (neighbor_id node_id parent_id index : Z)
  (from_prev : bool) : M unit :=
  let* node := FetchPage node_id in
  let* neighbor_node := FetchPage neighbor_id in
  let* parent := FetchPage parent_id in
  if IsLeafPage node then
    if negb from_prev then
      let* moved := lift (MoveFirstToEndOf neighbor_node node) in
      let '(neighbor', node') := moved in
      write neighbor';; write node';;
      let* k := lift (KeyAt 0 neighbor') in
      let* parent' := lift (SetKeyAt (index + 1) k parent) in
      write parent'
    else
      let* moved := lift (MoveLastToFrontOf neighbor_node node) in
      let '(neighbor', node') := moved in
      write neighbor';; write node';;
      let* k := lift (KeyAt 0 neighbor') in
      let* parent' := lift (SetKeyAt index k parent) in
      write parent'
  else
    if negb from_prev then
      let* middle_key := lift (KeyAt (index + 1) parent) in
      let* neighbor0 := lift (SetKeyAt 0 middle_key neighbor_node) in
      let* moved := lift (MoveFirstToEndOf neighbor0 node) in
      let '(neighbor', node') := moved in
      write neighbor';; write node';;
      reparent (drop (length (array_ node)) (array_ node')) (GetPageId node');;
      let* k := lift (KeyAt 0 neighbor') in
      let* parent' := lift (SetKeyAt (index + 1) k parent) in
      write parent'
    else
      let* middle_key := lift (KeyAt index parent) in
      let* node0 := lift (SetKeyAt 0 middle_key node) in
      let* moved := lift (MoveLastToFrontOf neighbor_node node0) in
      let '(neighbor', node') := moved in
      write neighbor';; write node';;
      reparent (take 1 (array_ node')) (GetPageId node');;
      let* k := lift (KeyAt 0 neighbor') in
      let* parent' := lift (SetKeyAt index k parent) in
      write parent'.

(** [Coalesce(neighbor_node, node, parent, index, transaction)], with
    the call back into [CoalesceOrRedistribute] passed as [recur]. *)
Definition Coalesce (recur : Z → M bool)
  (neighbor_id node_id parent_id index : Z) : M bool :=
  let* parent := FetchPage parent_id in
  let* middle_key := lift (KeyAt index parent) in
  let* node := FetchPage node_id in
  let* neighbor_node := FetchPage neighbor_id in
  (if IsLeafPage node then
     let '(node', neighbor') := Leaf_MoveAllTo node neighbor_node in
     write node';; write neighbor'
   else
     let* node0 := lift (SetKeyAt 0 middle_key node) in
     write (set_array [] node0);;
     write (set_array (array_ neighbor_node ++ array_ node0) neighbor_node);;
     reparent (array_ node0) (GetPageId neighbor_node));;
  let* parent' := lift (Internal_Remove index parent) in
  write parent';;
  recur parent_id.

Fixpoint CoalesceOrRedistribute (fuel : nat) (node_id : Z) : M bool :=
  match fuel with
  | O => fault
  | S fuel' =>
      let* node := FetchPage node_id in
      if IsRootPage node then AdjustRoot node
      else if GetMaxSize node <=? GetSize node then ret false
      else
        let* parent_node := FetchPage (GetParentPageId node) in
        let parent_id := GetParentPageId node in
        let* index := lift (ValueIndex (GetPageId node) parent_node) in
        let right_sibling :=
          let* parent_node := FetchPage parent_id in
          if index =? GetSize parent_node - 1 then ret false
          else
            let* sibling_id := lift (ValueAt (index + 1) parent_node) in
            let* sibling_node := FetchPage sibling_id in
            if GetMinSize sibling_node <? GetSize sibling_node then
              Redistribute sibling_id node_id parent_id index false;;
              ret false
            else
              let* sibling_idx :=
                lift (ValueIndex (GetPageId sibling_node) parent_node) in
              let* parent_node_should_delete :=
                Coalesce (CoalesceOrRedistribute fuel') node_id sibling_id
                  parent_id sibling_idx in
              AddIntoDeletedPageSet (GetPageId sibling_node);;
              (if parent_node_should_delete
               then AddIntoDeletedPageSet parent_id else ret tt);;
              ret false in
        if 0 <? index then
          let* sibling_id := lift (ValueAt (index - 1) parent_node) in
          let* sibling_node := FetchPage sibling_id in
          if GetMinSize sibling_node <? GetSize sibling_node then
            Redistribute sibling_id node_id parent_id index true;;
            ret false
          else
            let* flag :=
              Coalesce (CoalesceOrRedistribute fuel') sibling_id node_id
                parent_id index in
            if flag then AddIntoDeletedPageSet parent_id;; ret true
            else right_sibling
        else right_sibling
  end.

(** [Remove(key, transaction)].  The two operands of the size comparison
    are taken left to right: the size before against the size after. *)
Definition Remove (fuel : nat) (key : Z) : M unit :=
  let* empty := get IsEmpty in
  if empty then ret tt
  else
    let* leaf_node := FindLeaf fuel key false false in
    let size := GetSize leaf_node in
    let '(new_size, leaf1) := Leaf_RemoveAndDeleteRecord key leaf_node in
    write leaf1;;
    if size =? new_size then ret tt
    else
      let* flag := CoalesceOrRedistribute fuel (GetPageId leaf1) in
      (if flag then AddIntoDeletedPageSet (GetPageId leaf1) else ret tt);;
      let* s := get deleted_page_set_ in
      set_pages (λ m, foldr delete m s);;
      set_deleted_page_set [].

(** Calls of the mutating interface and a client's run of them. *)
Inductive Call : Type :=
  | CInsert (key value : Z)
  | CRemove (key : Z).

Definition call (fuel : nat) (c : Call) : M unit :=
  match c with
  | CInsert key value => Insert fuel key value;; ret tt
  | CRemove key => Remove fuel key
  end.

Fixpoint run (fuel : nat) (cs : list Call) : M unit :=
  match cs with
  | [] => ret tt
  | c :: cs' => call fuel c;; run fuel cs'
  end.

(** Shorthands for reading a run: keys inserted with ten times the key
    as value, and a page's parent link and used slots. *)
Definition inserts (keys : list Z) : list Call :=
  map (λ k, CInsert k (10 * k)) keys.

Definition page_parent (t : Tree) (id : Z) : option Z :=
  parent_page_id_ <$> pages_ t !! id.

Definition page_array (t : Tree) (id : Z) : option (list (Z * Z)) :=
  array_ <$> pages_ t !! id.

(** ** Iterators

    An index iterator is the page id of the leaf it stands on and a
    position; [None] is [INDEXITERATOR_TYPE(nullptr, nullptr)].  The key
    [KeyType()] handed to [FindLeaf] is not looked at when [leftMost] or
    [rightMost] is set; it is 0 here. *)
Definition Begin (fuel : nat) : M (option (Z * Z)) :=
  let* root := get root_page_id_ in
  if root =? INVALID_PAGE_ID then ret None
  else
    let* leftmost_page := FindLeaf fuel 0 true false in
    ret (Some (GetPageId leftmost_page, 0)).

(** [End()]. *)
Definition End_ (fuel : nat) : M (option (Z * Z)) :=
  let* root := get root_page_id_ in
  if root =? INVALID_PAGE_ID then ret None
  else
    let* rightmost_page := FindLeaf fuel 0 false true in
    ret (Some (GetPageId rightmost_page, GetSize rightmost_page)).

Definition GetRootPageId : M Z := get root_page_id_.

(** ** Vocabulary of the frame properties *)

Definition is_update (c : HeaderCall) : bool :=
  match c with
  | UpdateRecord _ => true
  | InsertRecord _ => false
  end.

(** Every normal return of [m] relates the tree before and the tree
    after by [R]. *)
Definition steps {A} (R : Tree → Tree → Prop) (m : M A) : Prop :=
  ∀ t a t', m t = Some (a, t') → R t t'.

(** The root id, the header page's log, the size limits and the
    deleted-page set are as before; page ids may have been minted. *)
Record quiet (t t' : Tree) : Prop := mkQuiet {
  quiet_root : root_page_id_ t' = root_page_id_ t;
  quiet_header : header_calls_ t' = header_calls_ t;
  quiet_leaf : leaf_max_size_ t' = leaf_max_size_ t;
  quiet_internal : internal_max_size_ t' = internal_max_size_ t;
  quiet_deleted : deleted_page_set_ t' = deleted_page_set_ t;
  quiet_next : bpm_next_page_id_ t ≤ bpm_next_page_id_ t'
}.

(** The root is a page minted since, and the header page was told of it
    by one [UpdateRecord]. *)
Record new_root (t t' : Tree) : Prop := mkNewRoot {
  nr_header :
    header_calls_ t' = header_calls_ t ++ [UpdateRecord (root_page_id_ t')];
  nr_fresh : bpm_next_page_id_ t ≤ root_page_id_ t' < bpm_next_page_id_ t';
  nr_leaf : leaf_max_size_ t' = leaf_max_size_ t;
  nr_internal : internal_max_size_ t' = internal_max_size_ t;
  nr_deleted : deleted_page_set_ t' = deleted_page_set_ t
}.

(** What no operation undoes: the size limits stay, page ids are never
    handed out twice, the header page's log only grows, and only by
    [UpdateRecord] calls. *)
Record grows (t t' : Tree) : Prop := mkGrows {
  grows_leaf : leaf_max_size_ t' = leaf_max_size_ t;
  grows_internal : internal_max_size_ t' = internal_max_size_ t;
  grows_next : bpm_next_page_id_ t ≤ bpm_next_page_id_ t';
  grows_header : ∃ l, header_calls_ t' = header_calls_ t ++ l ∧
                      Forall (λ c, is_update c = true) l
}.

(** A tree that is one leaf, page [id], holding [a], as [StartNewTree]
    and the calls that keep to the leaf leave it on a pool whose next
    page id was [id]; and the tree without a root. *)
Definition one_leaf (L I id : Z) (a : list (Z * Z)) : Tree :=
  mkTree id L I
    {[ id := mkPage LEAF_PAGE L INVALID_PAGE_ID id INVALID_PAGE_ID a ]}
    (id + 1) [] [].

Definition no_leaf (L I next : Z) : Tree :=
  mkTree INVALID_PAGE_ID L I ∅ next [] [].

(** The map a client's calls describe when keys are unique: [Insert]
    binds a key that is not bound yet, [Remove] unbinds it. *)
Definition first_wins_call (m : gmap Z Z) (c : Call) : gmap Z Z :=
  match c with
  | CInsert key value =>
      match m !! key with
      | Some _ => m
      | None => <[key := value]> m
      end
  | CRemove key => delete key m
  end.

Definition first_wins_map (cs : list Call) : gmap Z Z :=
  foldl first_wins_call ∅ cs.

(** Trees used to exercise the theorems: fanouts 4, keys 1 to 3 in the
    root leaf, and the tree after [Insert(4, 40)] splits it. *)
Definition three_keys_tree : Tree :=
  Eval vm_compute in
    match run 10 (inserts [1; 2; 3]) (BPlusTree 4 4) with
    | Some (_, t) => t
    | None => BPlusTree 4 4
    end.

Definition four_keys_tree : Tree :=
  Eval vm_compute in
    match Insert 10 4 40 three_keys_tree with
    | Some (_, t) => t
    | None => three_keys_tree
    end.

End BPT.

(* ===================================================================== *)
(** * Properties of the LRU-K replacer                                    *)
(* ===================================================================== *)

Module LRUKFacts.
Import LRUK.

(** ** The frame-id assertion *)

Lemma to_frame_id_small n : 0 ≤ n < 2 ^ 31 → to_frame_id n = n.
Proof.
  intros Hn. unfold to_frame_id.
  rewrite Z.mod_small by lia.
  destruct (Z.ltb_spec n (2 ^ 31)); lia.
Qed.

(** C8 (as the code has it): with [replacer_size_] in the range of
    [frame_id_t], [RecordAccess(f)] fails its assertion exactly when
    [f > replacer_size_]; every [f ≤ replacer_size_], the value
    [replacer_size_] itself and the negative ones included, gets past
    it. *)
Theorem RecordAccess_assertion IsFull f r :
  0 ≤ replacer_size_ r < 2 ^ 31 →
  RecordAccess IsFull f r = AssertionFailure ↔ replacer_size_ r < f.
Proof.
  intros Hn. unfold RecordAccess.
  rewrite to_frame_id_small by done.
  destruct (Z.leb_spec f (replacer_size_ r)) as [Hle|Hgt]; simpl.
  - split; [|lia].
    destruct (history_cnt_ r !! f); [done|].
    destruct (IsFull r); [|done].
    by destruct (evict_scan r) as [[?|] ?].
  - split; [lia|done].
Qed.

Lemma RecordAccess_assertion_witness :
  0 ≤ replacer_size_ (LRUKReplacer 7 2) < 2 ^ 31 ∧
  (RecordAccess IsFull_tracked 8 (LRUKReplacer 7 2) = AssertionFailure
   ↔ replacer_size_ (LRUKReplacer 7 2) < 8).
Proof.
  split; [simpl; lia|].
  apply (RecordAccess_assertion IsFull_tracked 8 (LRUKReplacer 7 2)).
  simpl; lia.
Defined.

(** C8 as stated fails: a replacer for 7 frames takes [RecordAccess(7)]
    and [RecordAccess(-1)] without an assertion failure. *)
Lemma RecordAccess_accepts_replacer_size :
  RecordAccess IsFull_tracked 7 (LRUKReplacer 7 2) ≠ AssertionFailure ∧
  RecordAccess IsFull_tracked (-1) (LRUKReplacer 7 2) ≠ AssertionFailure.
Proof. split; vm_compute; discriminate. Qed.

(** ** [SetEvictable] ahead of the first [RecordAccess] *)

(** C4 (the code at the failing run): [SetEvictable(1, true)] on a fresh
    replacer with [k = 2] leaves a zero entry in [history_cnt_]; the
    [RecordAccess(1)] that follows finds it, skips [InsertHistory], and
    counts the access: frame 1 then has one recorded access and is in
    neither queue. *)
Theorem SetEvictable_first_leaves_frame_unqueued IsFull :
  ∃ r, run IsFull [CSetEvictable 1 true; CRecordAccess 1] (LRUKReplacer 7 2)
       = Ok r ∧
       history_cnt_ r !! 1 = Some 1%nat ∧
       history_list_ r = [] ∧ buffer_list_ r = [].
Proof. eexists. split; [vm_compute; reflexivity|]. by vm_compute. Qed.

(** C7 (the code at the failing run): after [SetEvictable(1, true)],
    [RecordAccess(1)], [SetEvictable(1, true)] on a fresh replacer with
    [k = 2], [curr_size_] is 1 and [Evict] returns [false], leaving the
    state as it was but for the flags it read. *)
Theorem Evict_false_with_positive_size IsFull :
  ∃ r, run IsFull [CSetEvictable 1 true; CRecordAccess 1; CSetEvictable 1 true]
         (LRUKReplacer 7 2) = Ok r ∧
       Size r = 1 ∧
       evictable_ r !! 1 = Some true ∧
       fst (Evict r) = None ∧
       Size (snd (Evict r)) = 1.
Proof. eexists. split; [vm_compute; reflexivity|]. by vm_compute. Qed.

(** ** Access times read off a log *)

Lemma access_times_bound f h :
  Forall (λ t, 0 < t ≤ length h)%nat (access_times f h).
Proof.
  induction h as [|c h IH]; simpl; [constructor|].
  assert (Forall (λ t, 0 < t ≤ S (length h))%nat (access_times f h)) as IH'.
  { eapply Forall_impl; [exact IH|]. simpl. lia. }
  destruct (is_access f c); [constructor; [lia|done]|done].
Qed.

Lemma last_time_bound f h : (last_time f h ≤ length h)%nat.
Proof.
  unfold last_time. pose proof (access_times_bound f h) as H.
  destruct (access_times f h); simpl; [lia|].
  apply Forall_cons in H as [? _]. lia.
Qed.

Lemma last_default_bound (l : list nat) n :
  Forall (λ t, t ≤ n)%nat l → (List.last l 0 ≤ n)%nat.
Proof.
  induction l as [|a [|b l] IH]; simpl; intros H; [lia| |].
  - apply Forall_cons in H as [? _]. lia.
  - apply Forall_cons in H as [_ H]. by apply IH.
Qed.

Lemma first_time_bound f h : (first_time f h ≤ length h)%nat.
Proof.
  unfold first_time. apply last_default_bound.
  eapply Forall_impl; [apply access_times_bound|]. simpl. lia.
Qed.

Lemma access_times_other f c h :
  is_access f c = false → access_times f (c :: h) = access_times f h.
Proof. simpl. by intros ->. Qed.

Lemma access_times_hit f h :
  access_times f (CRecordAccess f :: h) = S (length h) :: access_times f h.
Proof. simpl. by rewrite bool_decide_eq_true_2. Qed.

Lemma is_access_ne f g : g ≠ f → is_access g (CRecordAccess f) = false.
Proof. intros. simpl. by rewrite bool_decide_eq_false_2. Qed.

Lemma count_hit f h :
  count_accesses f (CRecordAccess f :: h) = S (count_accesses f h).
Proof. unfold count_accesses. by rewrite access_times_hit. Qed.

Lemma last_time_hit f h : last_time f (CRecordAccess f :: h) = S (length h).
Proof. unfold last_time. by rewrite access_times_hit. Qed.

Lemma first_time_hit_new f h :
  count_accesses f h = 0%nat →
  first_time f (CRecordAccess f :: h) = S (length h).
Proof.
  unfold count_accesses, first_time. rewrite access_times_hit.
  destruct (access_times f h); [done|discriminate].
Qed.

Lemma first_time_hit_old f h :
  (0 < count_accesses f h)%nat →
  first_time f (CRecordAccess f :: h) = first_time f h.
Proof.
  unfold count_accesses, first_time. rewrite access_times_hit.
  destruct (access_times f h); simpl; [lia|done].
Qed.

(** ** The scan for a victim *)

Lemma ev_at_same_true f ev : same_true ev (ev_at f ev).2.
Proof.
  unfold ev_at, same_true. intros x.
  destruct (ev !! f) eqn:E; simpl; [done|].
  destruct (decide (x = f)) as [->|Hne].
  - rewrite lookup_insert_eq, E. split; discriminate.
  - by rewrite lookup_insert_ne.
Qed.

Lemma ev_at_true f ev : (ev_at f ev).1 = true ↔ ev !! f = Some true.
Proof.
  unfold ev_at. destruct (ev !! f) as [[]|]; simpl; split; congruence.
Qed.

Lemma scan_None l ev ev' :
  scan l ev = (None, ev') →
  (∀ x, x ∈ l → ev !! x ≠ Some true) ∧ same_true ev ev'.
Proof.
  revert ev. induction l as [|f l IH]; simpl; intros ev H.
  - injection H as H; subst. split; [by intros x ?%elem_of_nil|done].
  - pose proof (ev_at_same_true f ev) as Hs.
    pose proof (ev_at_true f ev) as Ht.
    destruct (ev_at f ev) as [b ev1]; simpl in *.
    destruct b; [discriminate|].
    apply IH in H as [H1 H2]. split.
    + intros x [->|Hx]%elem_of_cons.
      * intros E. apply Ht in E. discriminate.
      * intros E. apply (H1 x Hx). by apply Hs.
    + intros x. etrans; [apply H2|apply Hs].
Qed.

Lemma scan_Some l ev v ev' :
  scan l ev = (Some v, ev') →
  ∃ l1 l2, l = l1 ++ v :: l2 ∧ ev !! v = Some true ∧
           (∀ x, x ∈ l1 → ev !! x ≠ Some true) ∧ same_true ev ev'.
Proof.
  revert ev. induction l as [|f l IH]; simpl; intros ev H; [discriminate|].
  pose proof (ev_at_same_true f ev) as Hs.
  pose proof (ev_at_true f ev) as Ht.
  destruct (ev_at f ev) as [b ev1]; simpl in *.
  destruct b.
  - injection H as H1 H2; subst. exists [], l. split; [done|].
    split; [by apply Ht|]. split; [by intros x ?%elem_of_nil|done].
  - apply IH in H as (l1 & l2 & -> & Hv & Hl1 & Hst).
    exists (f :: l1), l2. split; [done|]. split; [by apply Hs|]. split.
    + intros x [->|Hx]%elem_of_cons.
      * intros E. apply Ht in E. discriminate.
      * intros E. apply (Hl1 x Hx). by apply Hs.
    + intros x. etrans; [apply Hst|apply Hs].
Qed.

(** ** Sorted queues *)

Lemma StronglySorted_filter {A} (R : relation A) (P : A → Prop)
  `{∀ x, Decision (P x)} l :
  StronglySorted R l → StronglySorted R (filter P l).
Proof.
  induction 1 as [|a l Hl IH Ha]; [constructor|].
  rewrite filter_cons. destruct (decide (P a)); [|done].
  constructor; [done|].
  apply Forall_forall. intros x [_ Hx]%list_elem_of_filter.
  rewrite Forall_forall in Ha. by apply Ha.
Qed.

Lemma StronglySorted_weaken {A} (R R' : relation A) l :
  (∀ a b, a ∈ l → b ∈ l → R a b → R' a b) →
  StronglySorted R l → StronglySorted R' l.
Proof.
  intros HR Hs. induction Hs as [|a l Hl IH Ha]; [constructor|].
  constructor.
  - apply IH. intros x y Hx Hy. apply HR; by right.
  - rewrite Forall_forall in *. intros x Hx.
    apply HR; [by left|by right|by apply Ha].
Qed.

Lemma first_time_old f c h :
  (0 < count_accesses f h)%nat → first_time f (c :: h) = first_time f h.
Proof.
  unfold count_accesses, first_time. simpl.
  destruct (is_access f c); [|done].
  destruct (access_times f h); simpl; [lia|done].
Qed.

Lemma count_other f g h :
  g ≠ f → count_accesses g (CRecordAccess f :: h) = count_accesses g h.
Proof.
  intros. unfold count_accesses.
  by rewrite access_times_other by by apply is_access_ne.
Qed.

Lemma last_time_other f g h :
  g ≠ f → last_time g (CRecordAccess f :: h) = last_time g h.
Proof.
  intros. unfold last_time.
  by rewrite access_times_other by by apply is_access_ne.
Qed.

Lemma elem_of_remove_node f g l : g ∈ remove_node f l ↔ g ≠ f ∧ g ∈ l.
Proof. unfold remove_node. by rewrite list_elem_of_filter. Qed.

Lemma cnt_at_insert f c m cnt g v :
  cnt_at f cnt = (c, m) →
  <[f := v]> m !! g = if decide (g = f) then Some v else cnt !! g.
Proof.
  unfold cnt_at. intros H. destruct (decide (g = f)) as [->|Hne].
  - by rewrite lookup_insert_eq.
  - rewrite lookup_insert_ne by done.
    destruct (cnt !! f); injection H as H1 H2; subst; [done|].
    by rewrite lookup_insert_ne.
Qed.

Section Policy.

Variable IsFull : Replacer → bool.
Variable n : Z.
Variable k : nat.

Lemma Inv_init : Inv k [] (LRUKReplacer n k).
Proof.
  split; simpl; try done.
  - intros f. rewrite elem_of_nil. unfold count_accesses; simpl. lia.
  - constructor.
  - intros f. rewrite elem_of_nil. unfold count_accesses; simpl. lia.
  - constructor.
Qed.

Lemma bump_Inv f h r :
  k_ r = k →
  (cnt_at f (history_cnt_ r)).1 = count_accesses f h →
  (∀ g, g ≠ f → history_cnt_ r !! g = count_entry h g) →
  (∀ g, g ≠ f → g ∈ history_list_ r ↔ (0 < count_accesses g h < k)%nat) →
  ((S (count_accesses f h) < k)%nat → f ∈ history_list_ r) →
  StronglySorted (later_first (CRecordAccess f :: h)) (history_list_ r) →
  (∀ g, g ≠ f → g ∈ buffer_list_ r ↔
                (0 < count_accesses g h ∧ k ≤ count_accesses g h)%nat) →
  ((S (count_accesses f h) < k)%nat → f ∉ buffer_list_ r) →
  StronglySorted (later_last h) (buffer_list_ r) →
  (∀ g, evictable_ r !! g = Some true → g = f ∨ (0 < count_accesses g h)%nat) →
  Inv k (CRecordAccess f :: h) (bump f r).
Proof.
  intros Hk Hc Hcnt Hh Hhf Hhs Hb Hbf Hbs Hev.
  unfold bump. destruct (cnt_at f (history_cnt_ r)) as [c m] eqn:Ecnt.
  simpl in Hc. subst c.
  assert (∀ g, <[f := S (count_accesses f h)]> m !! g
               = count_entry (CRecordAccess f :: h) g) as Hcnt'.
  { intros g. rewrite (cnt_at_insert _ _ _ _ _ _ Ecnt). unfold count_entry.
    destruct (decide (g = f)) as [->|Hne].
    - rewrite count_hit. by destruct (decide _).
    - rewrite count_other by done. by apply Hcnt. }
  assert (∀ g, evictable_ r !! g = Some true →
               (0 < count_accesses g (CRecordAccess f :: h))%nat) as Hev'.
  { intros g Hg. destruct (decide (g = f)) as [->|Hne].
    - rewrite count_hit. lia.
    - rewrite count_other by done. destruct (Hev g Hg); [done|lia]. }
  assert (∀ l, f ∉ l → StronglySorted (later_last h) l →
               StronglySorted (later_last (CRecordAccess f :: h)) l) as Hlast.
  { intros l Hf. apply StronglySorted_weaken. intros a b Ha Hb'.
    unfold later_last. rewrite !last_time_other; [done| |]; by intros ->. }
  simpl. rewrite Hk.
  destruct (Nat.leb_spec k (S (count_accesses f h))) as [Hle|Hlt].
  - split; simpl; try done.
    + intros g. rewrite elem_of_remove_node.
      destruct (decide (g = f)) as [->|Hne].
      * rewrite count_hit. split; [by intros [? _]|lia].
      * rewrite count_other by done. rewrite <-Hh by done. tauto.
    + by apply StronglySorted_filter.
    + intros g. rewrite elem_of_cons, elem_of_remove_node.
      destruct (decide (g = f)) as [->|Hne].
      * rewrite count_hit. split; [lia|by left].
      * rewrite count_other by done. rewrite <-Hb by done. tauto.
    + apply StronglySorted_cons. split.
      * apply Forall_forall. intros b [Hne _]%elem_of_remove_node.
        unfold later_last. rewrite last_time_hit, last_time_other by done.
        pose proof (last_time_bound b h). lia.
      * apply Hlast; [by intros [? _]%elem_of_remove_node|].
        by apply StronglySorted_filter.
  - split; simpl; try done.
    + intros g. destruct (decide (g = f)) as [->|Hne].
      * rewrite count_hit. split; [lia|]. intros _. by apply Hhf.
      * rewrite count_other by done. by apply Hh.
    + intros g. destruct (decide (g = f)) as [->|Hne].
      * rewrite count_hit. split; [|lia]. intros ?. by destruct Hbf.
      * rewrite count_other by done. by apply Hb.
    + apply Hlast; [by apply Hbf|done].
Qed.

Lemma later_first_grow c h l :
  (∀ a, a ∈ l → (0 < count_accesses a h)%nat) →
  StronglySorted (later_first h) l →
  StronglySorted (later_first (c :: h)) l.
Proof.
  intros Hl. apply StronglySorted_weaken. intros a b Ha Hb.
  unfold later_first. by rewrite !first_time_old by by apply Hl.
Qed.

Lemma RecordAccess_Inv h r f r' :
  Inv k h r →
  (history_cnt_ r !! f = None → IsFull r = false) →
  RecordAccess IsFull f r = Ok r' →
  Inv k (CRecordAccess f :: h) r'.
Proof.
  intros [Hk Hcnt Hh Hhs Hb Hbs Hev] Hfull. unfold RecordAccess.
  destruct (negb _); [discriminate|].
  pose proof (Hcnt f) as Hf. unfold count_entry in Hf.
  destruct (history_cnt_ r !! f) as [c|] eqn:E.
  - intros [= <-]. destruct (decide _) as [|Hpos]; [discriminate|].
    injection Hf as ->.
    apply bump_Inv; try done.
    + unfold cnt_at. by rewrite E.
    + intros ?. apply Hh. lia.
    + apply later_first_grow; [|done]. intros a Ha%Hh. lia.
    + intros Hlt Hin%Hb. lia.
    + intros g Hg%Hev. by right.
  - rewrite Hfull by done. intros [= <-].
    destruct (decide _) as [Hz|]; [|discriminate].
    apply bump_Inv; simpl; try done.
    + unfold cnt_at. by rewrite E.
    + intros g Hne. rewrite elem_of_cons, <-Hh by done.
      split; [by intros [?|?]|by right].
    + intros _. by left.
    + apply StronglySorted_cons. split.
      * apply Forall_forall. intros b Hb'%Hh. unfold later_first.
        rewrite first_time_hit_new by done.
        rewrite first_time_old by lia.
        pose proof (first_time_bound b h). lia.
      * apply later_first_grow; [|done]. intros a Ha%Hh. lia.
    + intros _ Hin%Hb. lia.
    + intros g. destruct (decide (g = f)) as [->|Hne]; [by left|].
      rewrite lookup_insert_ne by done. intros Hg%Hev. by right.
Qed.

Lemma SetEvictable_Inv h r f b r' :
  Inv k h r →
  (0 < count_accesses f h)%nat →
  SetEvictable f b r = Ok r' →
  Inv k (CSetEvictable f b :: h) r'.
Proof.
  intros [Hk Hcnt Hh Hhs Hb Hbs Hev] Hpos. unfold SetEvictable.
  destruct (negb _); [discriminate|].
  pose proof (Hcnt f) as Hf. unfold count_entry in Hf.
  destruct (decide _) as [|_]; [lia|].
  unfold cnt_at. rewrite Hf.
  destruct (Nat.eqb_spec (count_accesses f h) 0); [lia|].
  pose proof (ev_at_same_true f (evictable_ r)) as Hs.
  simpl. destruct (ev_at f (evictable_ r)) as [b0 ev0]; simpl in *.
  assert (∀ ev1 : gmap Z bool,
            (∀ g, g ≠ f → ev1 !! g = ev0 !! g) →
            ∀ g, ev1 !! g = Some true → (0 < count_accesses g h)%nat) as Hev'.
  { intros ev1 Hev1 g. destruct (decide (g = f)) as [->|Hne]; [done|].
    rewrite Hev1 by done. intros Hg%Hs. by apply Hev. }
  destruct (b0 && negb b); [|destruct (negb b0 && b)]; intros [= <-];
    split; simpl; try done; apply Hev'; intros g Hne;
    by rewrite ?lookup_insert_ne.
Qed.

Lemma Reach_Inv h r : Reach IsFull n k h r → Inv k h r.
Proof.
  induction 1 as [|h r f r' _ IH Hfull Hstep|h r f b r' _ IH Hpos Hstep].
  - apply Inv_init.
  - by eapply RecordAccess_Inv.
  - by eapply SetEvictable_Inv.
Qed.

End Policy.

Ltac reach :=
  lazymatch goal with
  | |- Reach _ _ _ [] _ => apply Reach_init
  | |- Reach _ _ _ (CRecordAccess _ :: _) _ =>
      eapply Reach_access; [reach|by vm_compute|reflexivity]
  | |- Reach _ _ _ (CSetEvictable _ _ :: _) _ =>
      eapply Reach_set; [reach|vm_compute; lia|reflexivity]
  end.

Lemma policy_log_Reach : Reach IsFull_tracked 7 2 policy_log policy_state.
Proof. unfold policy_log. reach. Qed.

(** C2 (as the code has it): after any sequence of [RecordAccess] and
    [SetEvictable] calls in which every [SetEvictable(f, _)] follows a
    [RecordAccess(f)] and no first access finds the replacer full, a
    successful [Evict] returns an evictable frame [v] such that: if [v]
    has fewer than [k] accesses, no evictable frame with fewer than [k]
    accesses has an earlier first access; if [v] has at least [k]
    accesses, every evictable frame has at least [k] accesses and none
    has an older most recent access.  Frames with fewer than [k]
    accesses are thus preferred; among the others the order is by most
    recent access, not by backward k-distance. *)
Theorem Evict_policy IsFull n k h r v r' :
  Reach IsFull n k h r →
  Evict r = (Some v, r') →
  evictable_ r !! v = Some true ∧
  ((count_accesses v h < k)%nat →
   ∀ g, evictable_ r !! g = Some true → (count_accesses g h < k)%nat →
        (first_time v h ≤ first_time g h)%nat) ∧
  ((k ≤ count_accesses v h)%nat →
   ∀ g, evictable_ r !! g = Some true →
        (k ≤ count_accesses g h)%nat ∧ (last_time v h ≤ last_time g h)%nat).
Proof.
  intros [Hk Hcnt Hh Hhs Hb Hbs Hev]%Reach_Inv. unfold Evict.
  destruct (curr_size_ r =? 0); [discriminate|]. unfold evict_scan.
  destruct (scan (reverse (history_list_ r)) (evictable_ r))
    as [[f|] ev1] eqn:E1.
  - intros [= -> <-].
    apply scan_Some in E1 as (l1 & l2 & Hrev & Hv & Hl1 & _).
    apply (f_equal reverse) in Hrev.
    rewrite reverse_involutive, reverse_app, reverse_cons in Hrev.
    assert (v ∈ history_list_ r) as Hvin.
    { rewrite Hrev, !elem_of_app, list_elem_of_singleton. tauto. }
    apply Hh in Hvin. split; [done|]. split; [|lia].
    intros _ g Hg Hgk.
    assert (g ∈ history_list_ r) as Hgin.
    { apply Hh. split; [by apply Hev|done]. }
    rewrite Hrev in Hgin, Hhs.
    apply elem_of_app in Hgin as [[Hgin| ->%list_elem_of_singleton]%elem_of_app|Hgin].
    + apply StronglySorted_app_1_l in Hhs.
      assert (later_first h g v); [|unfold later_first in *; lia].
      eapply StronglySorted_app_1_elem_of; [done..|by left].
    + done.
    + rewrite elem_of_reverse in Hgin. by destruct (Hl1 g Hgin).
  - apply scan_None in E1 as [Hnone Hs1]. simpl.
    destruct (scan (reverse (buffer_list_ r)) ev1) as [[f|] ev2] eqn:E2;
      [|discriminate].
    intros [= -> <-].
    apply scan_Some in E2 as (l1 & l2 & Hrev & Hv & Hl1 & _).
    apply Hs1 in Hv.
    apply (f_equal reverse) in Hrev.
    rewrite reverse_involutive, reverse_app, reverse_cons in Hrev.
    assert (v ∈ buffer_list_ r) as Hvin.
    { rewrite Hrev, !elem_of_app, list_elem_of_singleton. tauto. }
    apply Hb in Hvin. split; [done|]. split; [lia|].
    intros _ g Hg.
    assert (k ≤ count_accesses g h)%nat as Hgk.
    { destruct (Nat.le_gt_cases k (count_accesses g h)) as [|Hlt]; [done|].
      destruct (Hnone g); [|done].
      rewrite elem_of_reverse. apply Hh. split; [by apply Hev|done]. }
    split; [done|].
    assert (g ∈ buffer_list_ r) as Hgin.
    { apply Hb. split; [by apply Hev|done]. }
    rewrite Hrev in Hgin, Hbs.
    apply elem_of_app in Hgin as [[Hgin| ->%list_elem_of_singleton]%elem_of_app|Hgin].
    + apply StronglySorted_app_1_l in Hbs.
      assert (later_last h g v); [|unfold later_last in *; lia].
      eapply StronglySorted_app_1_elem_of; [done..|by left].
    + done.
    + rewrite elem_of_reverse in Hgin. destruct (Hl1 g Hgin). by apply Hs1.
Qed.

Lemma Evict_policy_witness :
  ∃ r', Reach IsFull_tracked 7 2 policy_log policy_state ∧
        Evict policy_state = (Some 2, r') ∧
        evictable_ policy_state !! 2 = Some true ∧
        ((count_accesses 2 policy_log < 2)%nat →
         ∀ g, evictable_ policy_state !! g = Some true →
              (count_accesses g policy_log < 2)%nat →
              (first_time 2 policy_log ≤ first_time g policy_log)%nat) ∧
        ((2 ≤ count_accesses 2 policy_log)%nat →
         ∀ g, evictable_ policy_state !! g = Some true →
              (2 ≤ count_accesses g policy_log)%nat ∧
              (last_time 2 policy_log ≤ last_time g policy_log)%nat).
Proof.
  eexists. split; [exact policy_log_Reach|]. split; [vm_compute; reflexivity|].
  eapply Evict_policy; [exact policy_log_Reach|vm_compute; reflexivity].
Defined.

(** C2 as stated fails: with [k = 2], frame 1 accessed at times 1 and 4
    and frame 2 at times 2 and 3, both evictable, [Evict] returns frame
    2, whose backward 2-distance at time 6 is 4, although frame 1 has
    the larger backward 2-distance 5. *)
Lemma Evict_not_largest_backward_k_distance :
  ∃ r', Reach IsFull_tracked 7 2 policy_log policy_state ∧
        Evict policy_state = (Some 2, r') ∧
        evictable_ policy_state !! 1 = Some true ∧
        backward_k_distance 2 2 policy_log = Some 4%nat ∧
        backward_k_distance 2 1 policy_log = Some 5%nat.
Proof.
  eexists. split; [exact policy_log_Reach|].
  split; [vm_compute; reflexivity|]. by vm_compute.
Qed.

Lemma elem_of_flagged ev f : f ∈ flagged ev ↔ ev !! f = Some true.
Proof.
  unfold flagged. rewrite elem_of_dom. split.
  - intros [b Hb]. apply map_lookup_filter_Some in Hb as [Hb Ht].
    simpl in Ht. by subst.
  - intros H. exists true. by apply map_lookup_filter_Some.
Qed.

Lemma flagged_same_true ev ev' : same_true ev ev' → flagged ev' = flagged ev.
Proof. intros H. apply set_eq. intros f. rewrite !elem_of_flagged. apply H. Qed.

Lemma flagged_insert_true ev f :
  flagged (<[f := true]> ev) = {[f]} ∪ flagged ev.
Proof.
  apply set_eq. intros g. rewrite elem_of_union, elem_of_singleton, !elem_of_flagged.
  destruct (decide (g = f)) as [->|Hne].
  - rewrite lookup_insert_eq. tauto.
  - rewrite lookup_insert_ne by done. tauto.
Qed.

Lemma flagged_insert_false ev f :
  flagged (<[f := false]> ev) = flagged ev ∖ {[f]}.
Proof.
  apply set_eq. intros g.
  rewrite elem_of_difference, elem_of_singleton, !elem_of_flagged.
  destruct (decide (g = f)) as [->|Hne].
  - rewrite lookup_insert_eq. split; [done|tauto].
  - rewrite lookup_insert_ne by done. tauto.
Qed.

Lemma flagged_delete ev f : flagged (delete f ev) = flagged ev ∖ {[f]}.
Proof.
  apply set_eq. intros g.
  rewrite elem_of_difference, elem_of_singleton, !elem_of_flagged.
  destruct (decide (g = f)) as [->|Hne].
  - rewrite lookup_delete_eq. split; [done|tauto].
  - rewrite lookup_delete_ne by done. tauto.
Qed.

Lemma size_remove_elem (X : gset Z) f :
  f ∈ X → size X = S (size (X ∖ {[f]})).
Proof.
  intros Hf. rewrite size_difference by set_solver.
  rewrite size_singleton.
  assert (0 < size X)%nat; [|lia].
  destruct (decide (size X = 0%nat)) as [H0|]; [|lia].
  apply size_empty_inv in H0. set_solver.
Qed.

Lemma size_remove_non_elem (X : gset Z) f :
  f ∉ X → size (X ∖ {[f]}) = size X.
Proof.
  intros Hf. f_equal. apply set_eq. intros g.
  rewrite elem_of_difference, elem_of_singleton.
  split; [tauto|]. intros Hg. split; [done|]. by intros ->.
Qed.

Lemma size_add_elem (X : gset Z) f :
  f ∉ X → size ({[f]} ∪ X) = S (size X).
Proof.
  intros Hf. rewrite size_union by set_solver. by rewrite size_singleton.
Qed.

Lemma size_dec_mod c :
  size_dec (Z.of_nat (S c) mod 2 ^ 64) = Z.of_nat c mod 2 ^ 64.
Proof.
  unfold size_dec. rewrite Zminus_mod_idemp_l. f_equal. lia.
Qed.

Lemma size_inc_mod c :
  size_inc (Z.of_nat c mod 2 ^ 64) = Z.of_nat (S c) mod 2 ^ 64.
Proof.
  unfold size_inc. rewrite Zplus_mod_idemp_l. f_equal. lia.
Qed.

Lemma Accounted_init n k : Accounted (LRUKReplacer n k).
Proof. split; [done|]. intros f. simpl. by rewrite lookup_empty. Qed.

(** Dropping a flagged frame. *)
Lemma drop_frame_Accounted f r :
  Accounted r → evictable_ r !! f = Some true →
  curr_size_ (drop_frame f r) = Z.of_nat (size (flagged (delete f (evictable_ r)))) mod 2 ^ 64 ∧
  ∀ g, delete f (evictable_ r) !! g = Some true →
       is_Some (delete f (history_cnt_ r) !! g).
Proof.
  intros [Hc Hd] Hf. split.
  - simpl. rewrite Hc. unfold evictable_frames.
    rewrite (size_remove_elem (flagged (evictable_ r)) f)
      by by apply elem_of_flagged.
    by rewrite size_dec_mod, flagged_delete.
  - intros g. destruct (decide (g = f)) as [->|Hne].
    + by rewrite lookup_delete_eq.
    + rewrite !lookup_delete_ne by done. apply Hd.
Qed.

Lemma set_evictable_same_true ev' r :
  same_true (evictable_ r) ev' → Accounted r → Accounted (set_evictable_ ev' r).
Proof.
  intros Hs [Hc Hd]. split; simpl.
  - unfold evictable_frames. simpl. by rewrite (flagged_same_true _ _ Hs).
  - intros f Hf. apply Hd. by apply Hs.
Qed.

Lemma evict_scan_Accounted r : Accounted r → Accounted (evict_scan r).2.
Proof.
  intros Hacc. unfold evict_scan.
  destruct (scan (reverse (history_list_ r)) (evictable_ r)) as [[f|] ev1] eqn:E1.
  - apply scan_Some in E1 as (_ & _ & _ & Hv & _ & Hs).
    pose proof (set_evictable_same_true ev1 r Hs Hacc) as Hacc1.
    destruct (drop_frame_Accounted f _ Hacc1) as [H1 H2]; [by apply Hs|].
    split; simpl in *; [exact H1|exact H2].
  - apply scan_None in E1 as [_ Hs].
    pose proof (set_evictable_same_true ev1 r Hs Hacc) as Hacc1. simpl.
    destruct (scan (reverse (buffer_list_ r)) ev1) as [[f|] ev2] eqn:E2.
    + apply scan_Some in E2 as (_ & _ & _ & Hv & _ & Hs2).
      pose proof (set_evictable_same_true ev2 (set_evictable_ ev1 r) Hs2 Hacc1)
        as Hacc2.
      destruct (drop_frame_Accounted f _ Hacc2) as [H1 H2]; [by apply Hs2|].
      split; simpl in *; [exact H1|exact H2].
    + apply scan_None in E2 as [_ Hs2].
      exact (set_evictable_same_true ev2 (set_evictable_ ev1 r) Hs2 Hacc1).
Qed.

Lemma bump_Accounted f r : Accounted r → Accounted (bump f r).
Proof.
  intros [Hc Hd]. unfold bump.
  destruct (cnt_at f (history_cnt_ r)) as [c m] eqn:Ecnt.
  assert (∀ g, evictable_ r !! g = Some true →
               is_Some (<[f := S c]> m !! g)) as Hd'.
  { intros g Hg. rewrite (cnt_at_insert _ _ _ _ _ _ Ecnt).
    destruct (decide (g = f)); [done|]. by apply Hd. }
  simpl. by destruct (k_ r <=? S c)%nat.
Qed.

Lemma track_frame_Accounted f r :
  Accounted r → history_cnt_ r !! f = None → Accounted (track_frame f r).
Proof.
  intros [Hc Hd] Hf.
  assert (evictable_ r !! f ≠ Some true) as Hnt.
  { intros Ht. apply Hd in Ht as [? ?]. congruence. }
  split; simpl.
  - unfold evictable_frames. simpl. rewrite flagged_insert_false.
    rewrite size_remove_non_elem; [done|]. by rewrite elem_of_flagged.
  - intros g. destruct (decide (g = f)) as [->|Hne].
    + by rewrite lookup_insert_eq.
    + rewrite lookup_insert_ne by done. apply Hd.
Qed.

Section AnyIsFull.
Variable IsFull : Replacer → bool.

Lemma evict_scan_cnt_None r f v r1 :
  Accounted r → history_cnt_ r !! f = None → evict_scan r = (v, r1) →
  history_cnt_ r1 !! f = None.
Proof.
  intros _ Hf. unfold evict_scan.
  destruct (scan (reverse (history_list_ r)) (evictable_ r)) as [[g|] ev1].
  - intros [= _ <-]. simpl. destruct (decide (f = g)) as [->|];
      [by rewrite lookup_delete_eq|by rewrite lookup_delete_ne].
  - simpl. destruct (scan (reverse (buffer_list_ r)) ev1) as [[g|] ev2].
    + intros [= _ <-]. simpl. destruct (decide (f = g)) as [->|];
        [by rewrite lookup_delete_eq|by rewrite lookup_delete_ne].
    + by intros [= _ <-].
Qed.

Lemma RecordAccess_Accounted f r r' :
  Accounted r → RecordAccess IsFull f r = Ok r' → Accounted r'.
Proof.
  intros Hacc. unfold RecordAccess. destruct (negb _); [done|].
  destruct (history_cnt_ r !! f) eqn:Ef.
  - intros [= <-]. by apply bump_Accounted.
  - destruct (IsFull r).
    + pose proof (evict_scan_Accounted r Hacc) as Hacc1.
      destruct (evict_scan r) as [[v|] r1] eqn:Es; intros [= <-]; [|done].
      apply bump_Accounted, track_frame_Accounted; [done|].
      exact (evict_scan_cnt_None r f _ r1 Hacc Ef Es).
    + intros [= <-]. by apply bump_Accounted, track_frame_Accounted.
Qed.

Lemma SetEvictable_Accounted f b r r' :
  Accounted r → SetEvictable f b r = Ok r' → Accounted r'.
Proof.
  intros [Hc Hd]. unfold SetEvictable. destruct (negb _); [done|].
  destruct (cnt_at f (history_cnt_ r)) as [c m] eqn:Ecnt.
  assert (∀ g, is_Some (history_cnt_ r !! g) → is_Some (m !! g)) as Hm.
  { intros g. unfold cnt_at in Ecnt.
    destruct (history_cnt_ r !! f) eqn:Ef; injection Ecnt as <- <-; [done|].
    destruct (decide (g = f)) as [->|];
      [rewrite lookup_insert_eq; eauto|by rewrite lookup_insert_ne]. }
  assert (c ≠ 0%nat → is_Some (m !! f)) as Hmf.
  { unfold cnt_at in Ecnt.
    destruct (history_cnt_ r !! f) eqn:Ef; injection Ecnt as <- <-; [|done].
    by rewrite Ef. }
  simpl. destruct (Nat.eqb_spec c 0) as [|Hc0].
  { intros [= <-]. split; simpl; [done|]. intros g Hg. by apply Hm, Hd. }
  pose proof (ev_at_same_true f (evictable_ r)) as Hs.
  pose proof (ev_at_true f (evictable_ r)) as Ht.
  destruct (ev_at f (evictable_ r)) as [b0 ev0]; simpl in *.
  pose proof (flagged_same_true _ _ Hs) as Hfl.
  unfold evictable_frames in Hc. rewrite <-Hfl in Hc.
  assert (∀ g, g ≠ f → ev0 !! g = Some true → is_Some (m !! g)) as Hd0.
  { intros g _ Hg. by apply Hm, Hd, Hs. }
  destruct b0, b; simpl; intros [= <-]; split; simpl;
    unfold evictable_frames; simpl.
  - done.
  - intros g Hg. by apply Hm, Hd, Hs.
  - rewrite flagged_insert_false, Hc.
    rewrite (size_remove_elem (flagged ev0) f); [by rewrite size_dec_mod|].
    rewrite elem_of_flagged. apply Hs. by apply Ht.
  - intros g. destruct (decide (g = f)) as [->|];
      [by rewrite lookup_insert_eq|rewrite lookup_insert_ne by done; by apply Hd0].
  - rewrite flagged_insert_true, Hc, size_add_elem; [by rewrite size_inc_mod|].
    rewrite elem_of_flagged. intros Hf%Hs%Ht. done.
  - intros g. destruct (decide (g = f)) as [->|];
      [intros _; by apply Hmf|rewrite lookup_insert_ne by done; by apply Hd0].
  - done.
  - intros g Hg. by apply Hm, Hd, Hs.
Qed.

Lemma Remove_Accounted f r r' :
  Accounted r → Remove f r = Ok r' → Accounted r'.
Proof.
  intros Hacc. unfold Remove. destruct (negb _); [done|].
  destruct (history_cnt_ r !! f) as [c|] eqn:Ef; [|by intros [= <-]].
  destruct (Nat.eqb_spec c 0); [by intros [= <-]|].
  pose proof (ev_at_same_true f (evictable_ r)) as Hs.
  pose proof (ev_at_true f (evictable_ r)) as Ht.
  destruct (ev_at f (evictable_ r)) as [b ev]; simpl in *.
  destruct b; simpl; [|done]. intros [= <-].
  pose proof (set_evictable_same_true ev r Hs Hacc) as Hacc1.
  destruct (drop_frame_Accounted f _ Hacc1) as [H1 H2].
  { simpl. apply Hs. by apply Ht. }
  simpl in *. by destruct (c <? k_ r)%nat; split.
Qed.

Lemma Evict_Accounted r : Accounted r → Accounted (Evict r).2.
Proof.
  intros Hacc. unfold Evict. destruct (curr_size_ r =? 0); [done|].
  by apply evict_scan_Accounted.
Qed.

Lemma run_Accounted cs r r' :
  Accounted r → run IsFull cs r = Ok r' → Accounted r'.
Proof.
  revert r. induction cs as [|c cs IH]; simpl; intros r Hacc.
  - by intros [= <-].
  - destruct (call IsFull c r) as [r1| |] eqn:Ec; [|done..].
    apply IH. destruct c; simpl in Ec.
    + by eapply RecordAccess_Accounted.
    + by eapply SetEvictable_Accounted.
    + injection Ec as <-. by apply Evict_Accounted.
    + by eapply Remove_Accounted.
Qed.

(** X1: after any sequence of [RecordAccess], [SetEvictable], [Remove] and
    [Evict] calls on a fresh replacer that trips no assertion and throws
    nothing, whatever [IsFull] answers, [Size()] is the number of frames
    whose evictable flag is set (as a [size_t]). *)
Theorem Size_counts_evictable_frames cs n k r :
  run IsFull cs (LRUKReplacer n k) = Ok r →
  Size r = Z.of_nat (size (evictable_frames r)) mod 2 ^ 64 ∧
  ∀ f, f ∈ evictable_frames r ↔ evictable_ r !! f = Some true.
Proof.
  intros Hrun. split.
  - by destruct (run_Accounted cs _ r (Accounted_init n k) Hrun).
  - intros f. apply elem_of_flagged.
Qed.

End AnyIsFull.

Lemma remove_node_absent f l : f ∉ l → remove_node f l = l.
Proof.
  intros Hf. unfold remove_node. induction l as [|x l IH]; [done|].
  apply not_elem_of_cons in Hf as [Hne Hf].
  rewrite filter_cons_True by done. by rewrite IH.
Qed.

Lemma not_elem_of_remove_node f l : f ∉ remove_node f l.
Proof. rewrite elem_of_remove_node. by intros [? _]. Qed.

Lemma StronglySorted_NoDup {A} (R : relation A) l :
  (∀ x, ¬ R x x) → StronglySorted R l → NoDup l.
Proof.
  intros Hirr. induction 1 as [|a l Hl IH Ha]; constructor; [|done].
  intros Hin. rewrite Forall_forall in Ha. by apply (Hirr a), Ha.
Qed.

Section Reachable.
Variable IsFull : Replacer → bool.
Variable n : Z.
Variable k : nat.

Lemma Reach_Accounted h r : Reach IsFull n k h r → Accounted r.
Proof.
  induction 1 as [|h r f r' _ IH _ Hstep|h r f b r' _ IH _ Hstep].
  - apply Accounted_init.
  - by eapply RecordAccess_Accounted.
  - by eapply SetEvictable_Accounted.
Qed.

(** X2: after [RecordAccess] and [SetEvictable] calls in which every
    [SetEvictable(f, _)] follows a [RecordAccess(f)] and no first access
    finds the replacer full, no queue lists a frame twice; a frame is in
    the history queue exactly when it has between 1 and [k - 1] accesses
    and in the cache queue exactly when it has at least [k] (and at least
    one), so never in both; and [history_cnt_] holds exactly the accessed
    frames, each with its number of accesses. *)
Theorem tracked_frame_in_one_queue h r f :
  Reach IsFull n k h r →
  NoDup (history_list_ r) ∧ NoDup (buffer_list_ r) ∧
  (f ∈ history_list_ r ↔ (0 < count_accesses f h < k)%nat) ∧
  (f ∈ buffer_list_ r ↔ (0 < count_accesses f h ∧ k ≤ count_accesses f h)%nat) ∧
  ¬ (f ∈ history_list_ r ∧ f ∈ buffer_list_ r) ∧
  (history_cnt_ r !! f = None ↔ count_accesses f h = 0%nat) ∧
  ((0 < count_accesses f h)%nat →
   history_cnt_ r !! f = Some (count_accesses f h)).
Proof.
  intros [Hk Hcnt Hh Hhs Hb Hbs Hev]%Reach_Inv.
  split; [|split; [|split; [|split; [|split; [|split]]]]].
  - eapply StronglySorted_NoDup; [|exact Hhs]. unfold later_first. lia.
  - eapply StronglySorted_NoDup; [|exact Hbs]. unfold later_last. lia.
  - apply Hh.
  - apply Hb.
  - rewrite Hh, Hb. lia.
  - rewrite Hcnt. unfold count_entry. by destruct (decide _).
  - intros Hpos. rewrite Hcnt. unfold count_entry. destruct (decide _); [lia|done].
Qed.

Lemma curr_size_range r : Accounted r → 0 ≤ curr_size_ r < 2 ^ 64.
Proof. intros [-> _]. by apply Z.mod_pos_bound. Qed.

(** X3: in such a state [Evict] returns false exactly when [Size()] is 0;
    when it returns a frame, that frame was flagged evictable, it is
    unlinked from both queues, its access count and its flag are erased,
    and [Size()] goes down by one. *)
Theorem Evict_false_iff_size_zero h r :
  Reach IsFull n k h r →
  ((Evict r).1 = None ↔ Size r = 0) ∧
  ∀ v r', Evict r = (Some v, r') →
    evictable_ r !! v = Some true ∧
    history_list_ r' = remove_node v (history_list_ r) ∧
    buffer_list_ r' = remove_node v (buffer_list_ r) ∧
    history_cnt_ r' = delete v (history_cnt_ r) ∧
    evictable_ r' !! v = None ∧
    Size r' = Size r - 1.
Proof.
  intros HR. pose proof (Reach_Accounted _ _ HR) as Hacc.
  pose proof (curr_size_range _ Hacc) as Hrange.
  destruct (Reach_Inv _ _ _ _ _ HR) as [Hk Hcnt Hh Hhs Hb Hbs Hev].
  unfold Evict, Size. destruct (Z.eqb_spec (curr_size_ r) 0) as [H0|H0].
  { split; [done|]. by intros v r' [=]. }
  assert (∃ f, evictable_ r !! f = Some true) as [f Hf].
  { destruct Hacc as [Hc _].
    destruct (size_pos_elem_of (evictable_frames r)) as [f Hf].
    - destruct (size (evictable_frames r)); [by rewrite Hc in H0|lia].
    - exists f. by apply elem_of_flagged. }
  assert (size_dec (curr_size_ r) = curr_size_ r - 1) as Hdec.
  { unfold size_dec. apply Z.mod_small. lia. }
  unfold evict_scan.
  destruct (scan (reverse (history_list_ r)) (evictable_ r)) as [[v|] ev1] eqn:E1.
  - split; [done|]. intros v' r' [= <- <-].
    apply scan_Some in E1 as (l1 & l2 & Hrev & Hv & _ & Hs).
    assert (v ∈ history_list_ r) as Hvin.
    { apply elem_of_reverse. rewrite Hrev, elem_of_app, elem_of_cons. tauto. }
    split; [done|]. simpl. split; [done|]. split.
    { symmetry. apply remove_node_absent. intros Hvb%Hb. apply Hh in Hvin. lia. }
    split; [done|]. split; [by rewrite lookup_delete_eq|done].
  - apply scan_None in E1 as [Hnone Hs1]. simpl.
    destruct (scan (reverse (buffer_list_ r)) ev1) as [[v|] ev2] eqn:E2.
    + split; [done|]. intros v' r' [= <- <-].
      apply scan_Some in E2 as (l1 & l2 & Hrev & Hv & _ & Hs).
      assert (v ∈ buffer_list_ r) as Hvin.
      { apply elem_of_reverse. rewrite Hrev, elem_of_app, elem_of_cons. tauto. }
      split; [by apply Hs1|]. simpl. split.
      { symmetry. apply remove_node_absent. intros Hvh%Hh. apply Hb in Hvin. lia. }
      split; [done|]. split; [done|].
      split; [by rewrite lookup_delete_eq|done].
    + exfalso. apply scan_None in E2 as [Hnone2 _].
      pose proof (Hev f Hf) as Hpos.
      destruct (Nat.lt_ge_cases (count_accesses f h) k).
      * apply (Hnone f); [|done]. apply elem_of_reverse, Hh. lia.
      * apply (Hnone2 f); [|by apply Hs1]. apply elem_of_reverse, Hb. lia.
Qed.

(** X4: in such a state, for a frame id that passes the assertion:
    [Remove] of a frame never accessed changes nothing; [Remove] of an
    accessed frame whose flag is not set throws; [Remove] of an accessed,
    evictable frame unlinks it from its queue, erases its count and its
    flag, and decrements [curr_size_]. *)
Theorem Remove_tracked_frame h r f :
  Reach IsFull n k h r →
  f ≤ to_frame_id (replacer_size_ r) →
  (count_accesses f h = 0%nat → Remove f r = Ok r) ∧
  ((0 < count_accesses f h)%nat → evictable_ r !! f ≠ Some true →
   Remove f r = Exception) ∧
  ((0 < count_accesses f h)%nat → evictable_ r !! f = Some true →
   ∃ r', Remove f r = Ok r' ∧
         history_list_ r' = remove_node f (history_list_ r) ∧
         buffer_list_ r' = remove_node f (buffer_list_ r) ∧
         history_cnt_ r' = delete f (history_cnt_ r) ∧
         evictable_ r' = delete f (evictable_ r) ∧
         Size r' = (Size r - 1) mod 2 ^ 64).
Proof.
  intros HR Hle. pose proof (Reach_Accounted _ _ HR) as Hacc.
  pose proof (curr_size_range _ Hacc) as Hrange.
  destruct (Reach_Inv _ _ _ _ _ HR) as [Hk Hcnt Hh Hhs Hb Hbs Hev].
  unfold Remove. destruct (Z.leb_spec f (to_frame_id (replacer_size_ r))); [|lia].
  simpl. rewrite Hcnt. unfold count_entry.
  destruct (decide (count_accesses f h = 0%nat)) as [Hz|Hnz].
  { split; [done|]. split; intros; lia. }
  split; [done|].
  destruct (Nat.eqb_spec (count_accesses f h) 0); [done|].
  unfold ev_at. split.
  - intros _ Hne. by destruct (evictable_ r !! f) as [[]|].
  - intros _ He. rewrite He. simpl. eexists. split; [done|].
    rewrite Hk. destruct (Nat.ltb_spec (count_accesses f h) k); simpl.
    + split; [done|]. split; [|done].
      symmetry. apply remove_node_absent. intros Hin%Hb. lia.
    + split; [|done].
      symmetry. apply remove_node_absent. intros Hin%Hh. lia.
Qed.

End Reachable.

(** X5: [SetEvictable] is idempotent: repeating a call that returned
    normally, with the same frame and flag, changes nothing further. *)
Theorem SetEvictable_twice f b r r1 :
  SetEvictable f b r = Ok r1 → SetEvictable f b r1 = Ok r1.
Proof.
  unfold SetEvictable. destruct (negb _) eqn:Eb; [done|].
  unfold cnt_at.
  destruct (history_cnt_ r !! f) as [c|] eqn:Ef; simpl.
  - destruct (Nat.eqb_spec c 0) as [Hc0|Hc0].
    + intros [= <-]. simpl. rewrite Eb, Ef. simpl.
      destruct (Nat.eqb_spec c 0); [|done]. by destruct r.
    + unfold ev_at.
      destruct (evictable_ r !! f) as [[]|] eqn:Ee; destruct b; simpl;
        intros [= <-]; simpl; rewrite Eb, Ef; simpl;
        (destruct (Nat.eqb_spec c 0); [done|]);
        rewrite ?lookup_insert_eq, ?Ee; simpl.
      all: done.
  - intros [= <-]. simpl. by rewrite Eb, lookup_insert_eq.
Qed.

Lemma scan_all_false l ev :
  (∀ x, x ∈ l → ev !! x ≠ Some true) →
  ∃ ev', scan l ev = (None, ev') ∧ same_true ev ev'.
Proof.
  revert ev. induction l as [|f l IH]; simpl; intros ev Hl.
  - by exists ev.
  - pose proof (ev_at_same_true f ev) as Hs.
    pose proof (ev_at_true f ev) as Ht.
    destruct (ev_at f ev) as [b ev1]; simpl in *.
    destruct b.
    + destruct (Hl f); [by left|by apply Ht].
    + destruct (IH ev1) as (ev' & -> & Hs').
      { intros x Hx Hx1. apply (Hl x); [by right|by apply Hs]. }
      exists ev'. split; [done|]. intros x. etrans; [apply Hs'|apply Hs].
Qed.

(** X6: the first access to a frame when [IsFull()] holds and no queued
    frame is flagged evictable is dropped: the frame is not tracked, the
    queues, the counts and [Size()] stay as they were, and no flag
    becomes set. *)
Theorem RecordAccess_full_nothing_evictable IsFull f r :
  f ≤ to_frame_id (replacer_size_ r) →
  history_cnt_ r !! f = None →
  IsFull r = true →
  (∀ g, g ∈ history_list_ r ∨ g ∈ buffer_list_ r →
        evictable_ r !! g ≠ Some true) →
  ∃ r', RecordAccess IsFull f r = Ok r' ∧
        history_cnt_ r' = history_cnt_ r ∧
        history_list_ r' = history_list_ r ∧
        buffer_list_ r' = buffer_list_ r ∧
        Size r' = Size r ∧
        same_true (evictable_ r) (evictable_ r').
Proof.
  intros Hle Hf Hfull Hnone. unfold RecordAccess.
  destruct (Z.leb_spec f (to_frame_id (replacer_size_ r))); [|lia].
  simpl. rewrite Hf, Hfull. unfold evict_scan.
  destruct (scan_all_false (reverse (history_list_ r)) (evictable_ r))
    as (ev1 & -> & Hs1).
  { intros x Hx. rewrite elem_of_reverse in Hx. apply Hnone. by left. }
  simpl.
  destruct (scan_all_false (reverse (buffer_list_ r)) ev1) as (ev2 & -> & Hs2).
  { intros x Hx Hx1. rewrite elem_of_reverse in Hx.
    apply (Hnone x); [by right|by apply Hs1]. }
  eexists. split; [done|]. simpl. repeat (split; [done|]).
  intros x. etrans; [apply Hs2|apply Hs1].
Qed.

Lemma Size_counts_evictable_frames_witness :
  Size policy_state = Z.of_nat (size (evictable_frames policy_state)) mod 2 ^ 64 ∧
  ∀ f, f ∈ evictable_frames policy_state ↔
       evictable_ policy_state !! f = Some true.
Proof.
  apply (Size_counts_evictable_frames IsFull_tracked (reverse policy_log) 7 2).
  reflexivity.
Defined.

Lemma tracked_frame_in_one_queue_witness :
  NoDup (history_list_ policy_state) ∧ NoDup (buffer_list_ policy_state) ∧
  (1 ∈ history_list_ policy_state ↔ (0 < count_accesses 1 policy_log < 2)%nat) ∧
  (1 ∈ buffer_list_ policy_state ↔
   (0 < count_accesses 1 policy_log ∧ 2 ≤ count_accesses 1 policy_log)%nat) ∧
  ¬ (1 ∈ history_list_ policy_state ∧ 1 ∈ buffer_list_ policy_state) ∧
  (history_cnt_ policy_state !! 1 = None ↔ count_accesses 1 policy_log = 0%nat) ∧
  ((0 < count_accesses 1 policy_log)%nat →
   history_cnt_ policy_state !! 1 = Some (count_accesses 1 policy_log)).
Proof.
  apply (tracked_frame_in_one_queue IsFull_tracked 7 2 policy_log policy_state 1).
  exact policy_log_Reach.
Defined.

Lemma Evict_false_iff_size_zero_witness :
  ((Evict policy_state).1 = None ↔ Size policy_state = 0) ∧
  ∀ v r', Evict policy_state = (Some v, r') →
    evictable_ policy_state !! v = Some true ∧
    history_list_ r' = remove_node v (history_list_ policy_state) ∧
    buffer_list_ r' = remove_node v (buffer_list_ policy_state) ∧
    history_cnt_ r' = delete v (history_cnt_ policy_state) ∧
    evictable_ r' !! v = None ∧
    Size r' = Size policy_state - 1.
Proof.
  apply (Evict_false_iff_size_zero IsFull_tracked 7 2 policy_log policy_state).
  exact policy_log_Reach.
Defined.

Lemma Remove_tracked_frame_witness :
  ∃ r', Remove 1 policy_state = Ok r' ∧
        history_list_ r' = remove_node 1 (history_list_ policy_state) ∧
        buffer_list_ r' = remove_node 1 (buffer_list_ policy_state) ∧
        history_cnt_ r' = delete 1 (history_cnt_ policy_state) ∧
        evictable_ r' = delete 1 (evictable_ policy_state) ∧
        Size r' = (Size policy_state - 1) mod 2 ^ 64.
Proof.
  apply (Remove_tracked_frame IsFull_tracked 7 2 policy_log policy_state 1).
  - exact policy_log_Reach.
  - vm_compute. discriminate.
  - vm_compute. lia.
  - reflexivity.
Defined.

Lemma SetEvictable_twice_witness :
  SetEvictable 1 false (set_evictable_ (<[1 := false]> (evictable_ policy_state))
                          (set_curr_size_ 1 policy_state)) =
  Ok (set_evictable_ (<[1 := false]> (evictable_ policy_state))
        (set_curr_size_ 1 policy_state)).
Proof.
  apply (SetEvictable_twice 1 false policy_state). reflexivity.
Defined.

Lemma RecordAccess_full_nothing_evictable_witness :
  ∃ r', RecordAccess IsFull_tracked 1 full_state = Ok r' ∧
        history_cnt_ r' = history_cnt_ full_state ∧
        history_list_ r' = history_list_ full_state ∧
        buffer_list_ r' = buffer_list_ full_state ∧
        Size r' = Size full_state ∧
        same_true (evictable_ full_state) (evictable_ r').
Proof.
  apply (RecordAccess_full_nothing_evictable IsFull_tracked 1 full_state).
  - vm_compute. discriminate.
  - reflexivity.
  - reflexivity.
  - intros g [Hg|Hg].
    + apply list_elem_of_singleton in Hg. by subst g.
    + by apply elem_of_nil in Hg.
Defined.

Lemma bump_track_cnt f r :
  history_cnt_ r !! f = None →
  history_cnt_ (bump f (track_frame f r)) = <[f := 1%nat]> (history_cnt_ r) ∧
  evictable_ (bump f (track_frame f r)) = <[f := false]> (evictable_ r) ∧
  curr_size_ (bump f (track_frame f r)) = curr_size_ r.
Proof.
  intros Hf. unfold bump, track_frame, cnt_at. simpl. rewrite Hf. simpl.
  rewrite insert_insert_eq. by destruct (_ <=? _)%nat.
Qed.

(** X21: the first access to a frame when [IsFull()] holds and some
    queued frame is flagged evictable evicts a frame on the spot: a
    flagged, queued frame [v] (the one [Evict] would return when
    [curr_size_] is not 0) loses its access count and its flag,
    [curr_size_] is decremented, and the new frame is tracked with one
    access and the flag [false]. *)
Theorem RecordAccess_full_evicts IsFull f r g :
  f ≤ to_frame_id (replacer_size_ r) →
  history_cnt_ r !! f = None →
  IsFull r = true →
  g ∈ history_list_ r ∨ g ∈ buffer_list_ r →
  evictable_ r !! g = Some true →
  ∃ v r', RecordAccess IsFull f r = Ok r' ∧
          evictable_ r !! v = Some true ∧
          (v ∈ history_list_ r ∨ v ∈ buffer_list_ r) ∧
          (curr_size_ r ≠ 0 → (Evict r).1 = Some v) ∧
          history_cnt_ r' = <[f := 1%nat]> (delete v (history_cnt_ r)) ∧
          evictable_ r' !! f = Some false ∧
          (v ≠ f → evictable_ r' !! v = None) ∧
          Size r' = (Size r - 1) mod 2 ^ 64.
Proof.
  intros Hle Hf Hfull Hg Hgt. unfold RecordAccess, Evict.
  destruct (Z.leb_spec f (to_frame_id (replacer_size_ r))); [|lia].
  simpl. rewrite Hf, Hfull. unfold evict_scan.
  destruct (scan (reverse (history_list_ r)) (evictable_ r)) as [[v|] ev1] eqn:E1.
  - apply scan_Some in E1 as (l1 & l2 & Hrev & Hv & _ & Hs).
    assert (v ∈ history_list_ r) as Hvin.
    { apply elem_of_reverse. rewrite Hrev, elem_of_app, elem_of_cons. tauto. }
    eexists v, _. split; [done|]. split; [done|]. split; [by left|].
    split. { intros H0. by destruct (Z.eqb_spec (curr_size_ r) 0). }
    match goal with |- context [bump f (track_frame f ?r1)] =>
      destruct (bump_track_cnt f r1) as (Hc & He & Hz) end.
    { simpl. rewrite lookup_delete_None. by right. }
    rewrite Hc, He. unfold Size. rewrite Hz. simpl.
    split; [done|]. split; [by rewrite lookup_insert_eq|].
    split; [|done]. intros Hne.
    by rewrite lookup_insert_ne, lookup_delete_eq.
  - apply scan_None in E1 as [Hnone Hs1]. simpl.
    destruct (scan (reverse (buffer_list_ r)) ev1) as [[v|] ev2] eqn:E2.
    + apply scan_Some in E2 as (l1 & l2 & Hrev & Hv & _ & Hs).
      assert (v ∈ buffer_list_ r) as Hvin.
      { apply elem_of_reverse. rewrite Hrev, elem_of_app, elem_of_cons. tauto. }
      eexists v, _. split; [done|]. split; [by apply Hs1|]. split; [by right|].
      split. { intros H0. by destruct (Z.eqb_spec (curr_size_ r) 0). }
      match goal with |- context [bump f (track_frame f ?r1)] =>
        destruct (bump_track_cnt f r1) as (Hc & He & Hz) end.
      { simpl. rewrite lookup_delete_None. by right. }
      rewrite Hc, He. unfold Size. rewrite Hz. simpl.
      split; [done|]. split; [by rewrite lookup_insert_eq|].
      split; [|done]. intros Hne.
      by rewrite lookup_insert_ne, lookup_delete_eq.
    + exfalso. apply scan_None in E2 as [Hnone2 _].
      destruct Hg as [Hg|Hg].
      * apply (Hnone g); [|done]. by apply elem_of_reverse.
      * apply (Hnone2 g); [|by apply Hs1]. by apply elem_of_reverse.
Qed.

Lemma RecordAccess_full_evicts_witness :
  ∃ v r', RecordAccess (λ _, true) 3 policy_state = Ok r' ∧
          evictable_ policy_state !! v = Some true ∧
          (v ∈ history_list_ policy_state ∨ v ∈ buffer_list_ policy_state) ∧
          (curr_size_ policy_state ≠ 0 → (Evict policy_state).1 = Some v) ∧
          history_cnt_ r' = <[3 := 1%nat]> (delete v (history_cnt_ policy_state)) ∧
          evictable_ r' !! 3 = Some false ∧
          (v ≠ 3 → evictable_ r' !! v = None) ∧
          Size r' = (Size policy_state - 1) mod 2 ^ 64.
Proof.
  apply (RecordAccess_full_evicts (λ _, true) 3 policy_state 1).
  - vm_compute. discriminate.
  - reflexivity.
  - reflexivity.
  - right. vm_compute. apply list_elem_of_here || (apply list_elem_of_further, list_elem_of_here).
  - reflexivity.
Defined.

End LRUKFacts.

(* ===================================================================== *)
(** * Properties of the extendible hash table                             *)
(* ===================================================================== *)

Module EHTFacts.
Import EHT.

(** ** Bits and powers of two *)

Lemma land_ones_mod a n : 0 ≤ n → Z.land a (2 ^ n - 1) = a mod 2 ^ n.
Proof.
  intros Hn. rewrite <-Z.land_ones by done.
  by rewrite Z.ones_equiv, <-Z.sub_1_r.
Qed.

Lemma land_pow2_eqb a d :
  0 ≤ d → (Z.land a (2 ^ d) =? 0) = negb (Z.testbit a d).
Proof.
  intros Hd. destruct (Z.testbit a d) eqn:E; simpl.
  - apply Z.eqb_neq. intros H0.
    apply (f_equal (λ z, Z.testbit z d)) in H0.
    rewrite Z.land_spec, E, Z.pow2_bits_true, Z.bits_0 in H0 by done.
    discriminate.
  - apply Z.eqb_eq. apply Z.bits_inj'. intros i Hi.
    rewrite Z.land_spec, Z.bits_0, Z.pow2_bits_eqb by done.
    destruct (Z.eqb_spec d i) as [->|]; [by rewrite E|].
    by rewrite andb_false_r.
Qed.

Lemma mod_pow2_eq_iff n a b :
  0 ≤ n →
  a mod 2 ^ n = b mod 2 ^ n ↔
  ∀ i, 0 ≤ i < n → Z.testbit a i = Z.testbit b i.
Proof.
  intros Hn. split.
  - intros H i Hi.
    rewrite <-(Z.mod_pow2_bits_low a n i), <-(Z.mod_pow2_bits_low b n i) by lia.
    by rewrite H.
  - intros H. apply Z.bits_inj'. intros i Hi.
    destruct (Z.lt_ge_cases i n).
    + rewrite !Z.mod_pow2_bits_low by lia. apply H. lia.
    + by rewrite !Z.mod_pow2_bits_high by lia.
Qed.

Lemma mod_pow2_succ a b d :
  0 ≤ d →
  a mod 2 ^ d = b mod 2 ^ d →
  Z.testbit a d = Z.testbit b d →
  a mod 2 ^ (d + 1) = b mod 2 ^ (d + 1).
Proof.
  intros Hd Hm Hb. apply mod_pow2_eq_iff; [lia|]. intros i Hi.
  destruct (decide (i = d)) as [->|]; [done|].
  eapply mod_pow2_eq_iff; [|exact Hm|]; lia.
Qed.

Lemma mod_pow2_le a b d g :
  0 ≤ d ≤ g → a mod 2 ^ g = b mod 2 ^ g → a mod 2 ^ d = b mod 2 ^ d.
Proof.
  intros Hd Hm. apply mod_pow2_eq_iff; [lia|]. intros i Hi.
  eapply mod_pow2_eq_iff; [|exact Hm|]; lia.
Qed.

Lemma mod_mod_pow2 a d g : 0 ≤ d ≤ g → (a mod 2 ^ g) mod 2 ^ d = a mod 2 ^ d.
Proof.
  intros Hd. apply mod_pow2_eq_iff; [lia|]. intros i Hi.
  apply Z.mod_pow2_bits_low. lia.
Qed.

Lemma testbit_mod_pow2 a d g :
  0 ≤ d < g → Z.testbit (a mod 2 ^ g) d = Z.testbit a d.
Proof. intros. apply Z.mod_pow2_bits_low. lia. Qed.

Lemma mod_pow2_range a n : 0 ≤ n → 0 ≤ a mod 2 ^ n < 2 ^ n.
Proof. intros. apply Z.mod_pos_bound. by apply Z.pow_pos_nonneg. Qed.

(** [a mod 2^(g+1)] is [a mod 2^g], or that plus [2^g]. *)
Lemma pow2_succ g : 0 ≤ g → 2 ^ (g + 1) = 2 * 2 ^ g.
Proof. intros. rewrite Z.pow_add_r by lia. lia. Qed.

Lemma mod_pow2_step a g :
  0 ≤ g →
  a mod 2 ^ (g + 1) = a mod 2 ^ g ∨ a mod 2 ^ (g + 1) = a mod 2 ^ g + 2 ^ g.
Proof.
  intros Hg.
  assert (0 ≤ g + 1) as Hg1 by lia.
  assert (0 ≤ g ≤ g + 1) as Hg2 by lia.
  pose proof (mod_pow2_range a g Hg).
  pose proof (mod_pow2_range a (g + 1) Hg1) as H1.
  pose proof (mod_mod_pow2 a g (g + 1) Hg2) as H2.
  set (x := a mod 2 ^ (g + 1)) in *. clearbody x.
  rewrite (pow2_succ g) in H1 by done.
  assert (0 < 2 ^ g) by by apply Z.pow_pos_nonneg.
  destruct (Z.lt_ge_cases x (2 ^ g)).
  - left. rewrite <-H2. by rewrite Z.mod_small by lia.
  - right. rewrite <-H2.
    replace x with ((x - 2 ^ g) + 1 * 2 ^ g) at 2 by lia.
    rewrite Z.mod_add by lia. rewrite Z.mod_small by lia. lia.
Qed.

(** ** Buckets *)

Lemma find_key_Some key l v : find_key key l = Some v → (key, v) ∈ l.
Proof.
  induction l as [|[k w] l IH]; simpl; [discriminate|].
  destruct (Z.eqb_spec k key) as [->|].
  - intros [= ->]. by left.
  - intros H. right. by apply IH.
Qed.

Lemma find_key_None key l : find_key key l = None ↔ key ∉ l.*1.
Proof.
  induction l as [|[k w] l IH]; simpl.
  - split; [intros _; apply not_elem_of_nil|done].
  - rewrite not_elem_of_cons. destruct (Z.eqb_spec k key) as [->|Hne].
    + split; [discriminate|]. by intros [? _].
    + rewrite IH. split; [by intros ?; split|by intros [_ ?]].
Qed.

Lemma find_key_NoDup key v l :
  NoDup l.*1 → (key, v) ∈ l → find_key key l = Some v.
Proof.
  induction l as [|[k w] l IH]; simpl; [by intros _ ?%elem_of_nil|].
  intros [Hk Hl]%NoDup_cons [[= -> ->]|Hin]%elem_of_cons.
  - by rewrite Z.eqb_refl.
  - destruct (Z.eqb_spec k key) as [->|]; [|by apply IH].
    destruct Hk. apply list_elem_of_fmap. by exists (key, v).
Qed.

Lemma assign_key_None key value l :
  assign_key key value l = None ↔ key ∉ l.*1.
Proof.
  induction l as [|[k w] l IH]; simpl.
  - split; [intros _; apply not_elem_of_nil|done].
  - rewrite not_elem_of_cons. destruct (Z.eqb_spec k key) as [->|Hne].
    + split; [discriminate|]. by intros [? _].
    + destruct (assign_key key value l); simpl.
      * split; [discriminate|]. intros [_ H]. by apply IH in H.
      * split; [|done]. intros _. split; [done|]. by apply IH.
Qed.

Lemma assign_key_Some key value l l' :
  assign_key key value l = Some l' →
  l'.*1 = l.*1 ∧ length l' = length l ∧ find_key key l' = Some value.
Proof.
  revert l'. induction l as [|[k w] l IH]; simpl; intros l'; [discriminate|].
  destruct (Z.eqb_spec k key) as [->|Hne].
  - intros [= <-]. simpl. by rewrite Z.eqb_refl.
  - destruct (assign_key key value l) as [l0|]; simpl; [|discriminate].
    intros [= <-]. destruct (IH l0 eq_refl) as (H1 & H2 & H3).
    rewrite !fmap_cons, H1. simpl. rewrite H2.
    destruct (Z.eqb_spec k key); [done|]. by rewrite H3.
Qed.

Lemma find_key_app_new key value l :
  key ∉ l.*1 → find_key key (l ++ [(key, value)]) = Some value.
Proof.
  induction l as [|[k w] l IH]; simpl.
  - intros _. by rewrite Z.eqb_refl.
  - intros [Hne Hl]%not_elem_of_cons.
    destruct (Z.eqb_spec k key); [congruence|]. by apply IH.
Qed.

Lemma IsFull_false b :
  Z.of_nat (length (list_ b)) < size_ b → IsFull b = false.
Proof. intros. unfold IsFull. apply Z.eqb_neq. lia. Qed.

Lemma Bok_weaken bs d (P Q : Z → Prop) b :
  (∀ x, P x → Q x) → Bok bs d P b → Bok bs d Q b.
Proof. intros HPQ [? ? ? ? Hk]. split; auto. Qed.

Lemma Bucket_Insert_Bok bs d P key value b :
  Bok bs d P b → P key → Bok bs d P (Bucket_Insert key value b).2.
Proof.
  intros [Hs Hd Hl Hn Hk] HP. unfold Bucket_Insert.
  destruct (assign_key key value (list_ b)) as [l|] eqn:E; simpl.
  - apply assign_key_Some in E as (E1 & E2 & _).
    split; simpl; rewrite ?E1, ?E2; done.
  - apply assign_key_None in E.
    destruct (IsFull b) eqn:Ef; simpl; [by split|].
    unfold IsFull in Ef. apply Z.eqb_neq in Ef.
    split; simpl; try done.
    + rewrite length_app. simpl. lia.
    + rewrite fmap_app. simpl. apply NoDup_app. split; [done|].
      split; [|apply NoDup_singleton].
      intros x Hx ->%list_elem_of_singleton. done.
    + intros x. rewrite fmap_app. simpl.
      intros [Hx| ->%list_elem_of_singleton]%elem_of_app; auto.
Qed.

Lemma Bucket_Remove_Bok bs d P key b :
  Bok bs d P b →
  Bok bs d (λ x, P x ∧ x ≠ key) (Bucket_Remove key b).2 ∧
  ((Bucket_Remove key b).1 = true →
   length (list_ (Bucket_Remove key b).2) < length (list_ b))%nat.
Proof.
  intros [Hs Hd Hl Hn Hk]. unfold Bucket_Remove, Bucket_Find.
  destruct (find_key key (list_ b)) as [val|] eqn:E; simpl.
  - pose proof (find_key_Some _ _ _ E) as Hin.
    set (rest := filter (λ kv : Z * Z, kv ≠ (key, val))).
    assert (∀ l : list (Z * Z), NoDup l.*1 →
              NoDup (rest l).*1 ∧
              (length (rest l) ≤ length l)%nat ∧
              (∀ x, x ∈ (rest l).*1 → x ∈ l.*1) ∧
              ((key, val) ∈ l →
               (key ∉ (rest l).*1) ∧ (length (rest l) < length l)%nat))
      as Hfil.
    { clear. subst rest. induction l as [|[k w] l IH]; simpl.
      - intros _. split; [constructor|]. split; [done|]. split; [done|].
        by intros ?%elem_of_nil.
      - intros [Hk Hl]%NoDup_cons.
        destruct (IH Hl) as (I1 & I2 & I3 & I4).
        rewrite filter_cons. destruct (decide ((k, w) ≠ (key, val))) as [Hne|He].
        + simpl. split; [|split; [|split]].
          * apply NoDup_cons. split; [|done]. intros ?%I3. done.
          * lia.
          * intros x [->|?]%elem_of_cons; [by left|right; by apply I3].
          * intros [?|Hin]%elem_of_cons; [congruence|].
            destruct (I4 Hin) as [I5 I6]. split; [|lia].
            apply not_elem_of_cons. split; [|done]. intros <-.
            destruct Hk. apply list_elem_of_fmap. by exists (key, val).
        + apply dec_stable in He. injection He as -> ->.
          split; [done|]. split; [lia|]. split; [by intros x ?%I3; right|].
          intros _. split; [|lia]. intros ?%I3. done. }
    destruct (Hfil (list_ b) Hn) as (F1 & F2 & F3 & F4).
    destruct (F4 Hin) as [F5 F6]. split; [|done].
    split; simpl; try done; [lia|].
    intros x Hx. split; [by apply Hk, F3|]. by intros ->.
  - split; [|discriminate]. apply find_key_None in E.
    split; try done. intros x Hx. split; [by apply Hk|]. by intros ->.
Qed.

Section Rehash.
Variable hash : Z → Z.

Lemma rehash_Bok bs d (P0 P1 : Z → Prop) mask items b0 b1 b0' b1' :
  Bok bs d P0 b0 → Bok bs d P1 b1 →
  (∀ x, x ∈ items.*1 →
        if negb (Z.land (hash x) mask =? 0) then P1 x else P0 x) →
  rehash hash mask items b0 b1 = (b0', b1') →
  Bok bs d P0 b0' ∧ Bok bs d P1 b1'.
Proof.
  revert b0 b1. induction items as [|[x v] items IH]; simpl; intros b0 b1 H0 H1 HP.
  - by intros [= <- <-].
  - pose proof (HP x (list_elem_of_here _ _)) as Hx.
    assert (∀ y, y ∈ items.*1 →
              if negb (Z.land (hash y) mask =? 0) then P1 y else P0 y) as HP'.
    { intros y Hy. apply HP. by right. }
    destruct (negb (Z.land (hash x) mask =? 0)); apply IH; try done;
      by apply Bucket_Insert_Bok.
Qed.

End Rehash.

(** ** The table invariant *)

Section Table.
Variable hash : Z → Z.

Local Abbreviation slot_of := (EHT.slot_of hash).
Local Abbreviation WF := (EHT.WF hash).
Local Abbreviation bucket_wf := (EHT.bucket_wf hash).
Local Abbreviation target_items := (EHT.target_items hash).
Local Abbreviation wf_bucket := (EHT.wf_bucket hash).
Local Abbreviation wf_depth := (EHT.wf_depth hash).

Lemma shl1_inv d m : shl1 d = Ok m → 0 ≤ d < 31 ∧ m = 2 ^ d.
Proof.
  unfold shl1. destruct (Z.leb_spec 0 d), (Z.ltb_spec d 31); simpl;
    intros [= <-]; lia.
Qed.

Lemma shl1_Ok d : 0 ≤ d < 31 → shl1 d = Ok (2 ^ d).
Proof.
  intros. unfold shl1.
  destruct (Z.leb_spec 0 d), (Z.ltb_spec d 31); simpl; done || lia.
Qed.

Lemma IndexOf_inv key t i :
  IndexOf hash key t = Ok i →
  0 ≤ global_depth_ t < 31 ∧ i = hash key mod 2 ^ global_depth_ t.
Proof.
  unfold IndexOf. destruct (shl1 (global_depth_ t)) as [m| |] eqn:E;
    simpl; [|done..].
  apply shl1_inv in E as [? ->]. intros [= <-].
  split; [done|]. apply land_ones_mod. lia.
Qed.

Lemma IndexOf_Ok key t :
  0 ≤ global_depth_ t < 31 →
  IndexOf hash key t = Ok (hash key mod 2 ^ global_depth_ t).
Proof.
  intros. unfold IndexOf. rewrite shl1_Ok by done. simpl.
  by rewrite land_ones_mod by lia.
Qed.

Lemma dir_at_inv i t p :
  dir_at i t = Ok p → 0 ≤ i ∧ dir_ t !! Z.to_nat i = Some p.
Proof.
  unfold dir_at. destruct (Z.ltb_spec i 0); [done|].
  destruct (dir_ t !! Z.to_nat i); [|done]. by intros [= ->].
Qed.

Lemma dir_at_slot key t p :
  0 ≤ global_depth_ t →
  dir_ t !! slot_of t key = Some p →
  dir_at (hash key mod 2 ^ global_depth_ t) t = Ok p.
Proof.
  intros Hg Hp. unfold dir_at.
  pose proof (mod_pow2_range (hash key) _ Hg).
  destruct (Z.ltb_spec (hash key mod 2 ^ global_depth_ t) 0); [lia|].
  unfold EHT.slot_of in Hp. by rewrite Hp.
Qed.

Lemma bucket_at_inv p t b : bucket_at p t = Ok b → heap_ t !! p = Some b.
Proof. unfold bucket_at. destruct (heap_ t !! p); [|done]. by intros [= ->]. Qed.

Lemma slot_lt t x :
  WF t → (slot_of t x < length (dir_ t))%nat.
Proof.
  intros [Hg Hl _ _]. unfold EHT.slot_of.
  pose proof (mod_pow2_range (hash x) _ Hg). lia.
Qed.

Lemma target_bucket t key :
  WF t →
  ∃ p b, dir_ t !! slot_of t key = Some p ∧ heap_ t !! p = Some b ∧
         bucket_wf t (slot_of t key) p b.
Proof.
  intros Hwf. destruct (lookup_lt_is_Some_2 (dir_ t) (slot_of t key)) as [p Hp].
  { by apply slot_lt. }
  destruct (wf_bucket _ Hwf _ _ Hp) as (b & Hb & Hbw). eauto.
Qed.

(** Doubling the directory keeps every slot's bucket at the same index
    modulo the old size. *)
Lemma grow_lookup (dir : list nat) gd (doubled : bool) :
  0 ≤ gd → Z.of_nat (length dir) = 2 ^ gd →
  let d' := if doubled then dir ++ dir else dir in
  let gd' := if doubled then gd + 1 else gd in
  Z.of_nat (length d') = 2 ^ gd' ∧
  (∀ i p, d' !! i = Some p →
          ∃ i0, dir !! i0 = Some p ∧
                Z.of_nat i0 mod 2 ^ gd = Z.of_nat i mod 2 ^ gd) ∧
  (∀ a p, dir !! Z.to_nat (a mod 2 ^ gd) = Some p →
          d' !! Z.to_nat (a mod 2 ^ gd') = Some p).
Proof.
  intros Hg Hlen. destruct doubled; simpl.
  - split; [|split].
    + rewrite length_app, pow2_succ by done. lia.
    + intros i p Hi. destruct (decide (i < length dir)%nat) as [Hlt|Hge].
      * rewrite lookup_app_l in Hi by done. by exists i.
      * rewrite lookup_app_r in Hi by lia. exists (i - length dir)%nat.
        split; [done|].
        rewrite Nat2Z.inj_sub, Hlen by lia.
        replace (Z.of_nat i - 2 ^ gd) with (Z.of_nat i + (-1) * 2 ^ gd) by lia.
        apply Z.mod_add. assert (0 < 2 ^ gd) by by apply Z.pow_pos_nonneg. lia.
    + intros a p Ha. pose proof (mod_pow2_range a gd Hg).
      destruct (mod_pow2_step a gd Hg) as [-> | ->].
      * apply lookup_app_l_Some. done.
      * rewrite lookup_app_r by lia.
        rewrite <-Ha. f_equal. lia.
  - split; [done|]. split; [|done]. intros i p Hi. by exists i.
Qed.

Lemma redirect_lookup mask tar p0 p1 (d : list nat) i q :
  0 ≤ mask →
  redirect (2 ^ mask) tar p0 p1 d !! i = Some q ↔
  ∃ p, d !! i = Some p ∧
       q = if bool_decide (p = tar)
           then if Z.testbit (Z.of_nat i) mask then p1 else p0
           else p.
Proof.
  intros Hm. unfold redirect. rewrite list_lookup_imap.
  rewrite land_pow2_eqb, negb_involutive by done.
  destruct (d !! i) as [p|]; simpl.
  - split; [intros [= <-]; eauto|]. by intros (? & [= <-] & ->).
  - split; [done|]. by intros (? & ? & _).
Qed.

Lemma rehash_split bs d items b0 b1 :
  0 ≤ d → 0 ≤ bs → NoDup items.*1 →
  rehash hash (2 ^ d) items (mkBucket bs (d + 1) []) (mkBucket bs (d + 1) [])
    = (b0, b1) →
  Bok bs (d + 1) (λ x, x ∈ items.*1 ∧ Z.testbit (hash x) d = false) b0 ∧
  Bok bs (d + 1) (λ x, x ∈ items.*1 ∧ Z.testbit (hash x) d = true) b1.
Proof.
  intros Hd Hbs Hnd. apply rehash_Bok.
  - split; simpl; [done|done|lia|constructor|by intros x ?%elem_of_nil].
  - split; simpl; [done|done|lia|constructor|by intros x ?%elem_of_nil].
  - intros x Hx. rewrite land_pow2_eqb, negb_involutive by done.
    by destruct (Z.testbit (hash x) d).
Qed.

(** One split keeps the invariant, and the bucket the key now hashes to
    is one level deeper and holds only keys of the bucket that was
    split. *)
Lemma split_WF key t t' :
  WF t → split hash key t = Ok t' →
  WF t' ∧ bucket_size_ t' = bucket_size_ t ∧
  ∃ p b p' b',
    dir_ t !! slot_of t key = Some p ∧ heap_ t !! p = Some b ∧
    dir_ t' !! slot_of t' key = Some p' ∧ heap_ t' !! p' = Some b' ∧
    depth_ b < 31 ∧ depth_ b' = depth_ b + 1 ∧
    global_depth_ t' = (if depth_ b =? global_depth_ t
                        then global_depth_ t + 1 else global_depth_ t) ∧
    (∀ x, x ∈ (list_ b').*1 →
          x ∈ (list_ b).*1 ∧
          Z.testbit (hash x) (depth_ b) = Z.testbit (hash key) (depth_ b)) ∧
    let halves :=
      rehash hash (2 ^ depth_ b) (list_ b)
        (mkBucket (bucket_size_ t) (depth_ b + 1) [])
        (mkBucket (bucket_size_ t) (depth_ b + 1) []) in
    b' = if Z.testbit (hash key) (depth_ b) then halves.2 else halves.1.
Proof.
  intros Hwf. unfold split.
  destruct (IndexOf hash key t) as [index| |] eqn:EI; simpl; [|done..].
  apply IndexOf_inv in EI as [Hgd ->].
  destruct (dir_at _ t) as [tar| |] eqn:ED; simpl; [|done..].
  apply dir_at_inv in ED as [_ Htar]. fold (slot_of t key) in Htar.
  destruct (bucket_at tar t) as [tb| |] eqn:EB; simpl; [|done..].
  apply bucket_at_inv in EB. unfold GetDepth, GetItems.
  destruct (shl1 (depth_ tb)) as [mask| |] eqn:ES; simpl; [|done..].
  apply shl1_inv in ES as [Hd ->].
  destruct (rehash hash (2 ^ depth_ tb) (list_ tb) _ _) as [b0 b1] eqn:ER.
  intros [= <-].
  destruct Hwf as [Hg Hlen Hfresh Hbuckets].
  destruct (Hbuckets _ _ Htar) as (tb' & Htb' & [Htd [_ _ Htl Htn Hth] Hts]).
  rewrite EB in Htb'. injection Htb' as <-.
  set (d := depth_ tb) in *. set (gd := global_depth_ t) in *.
  set (doubled := d =? gd).
  set (gd' := if doubled then gd + 1 else gd).
  set (dir' := if doubled then dir_ t ++ dir_ t else dir_ t).
  destruct (grow_lookup (dir_ t) gd doubled Hg Hlen) as (Hlen' & HD & HD').
  fold gd' dir' in Hlen', HD, HD'.
  assert (0 ≤ bucket_size_ t) as Hbs.
  { pose proof (Hbuckets _ _ Htar) as (? & ? & [_ [Hsz _ Hl' _ _] _]). lia. }
  destruct (rehash_split _ _ _ _ _ (proj1 Hd) Hbs Htn ER) as [Hb0 Hb1].
  assert (d + 1 ≤ gd' ∧ gd ≤ gd') as [Hdg Hgg].
  { subst gd' doubled. destruct (Z.eqb_spec d gd); lia. }
  set (p0 := next_ t) in *. set (p1 := S (next_ t)) in *.
  set (heap' := <[p1 := b1]> (<[p0 := b0]> (heap_ t))).
  assert (heap' !! p0 = Some b0) as Hh0.
  { subst heap'. rewrite lookup_insert_ne by (subst p0 p1; lia).
    by rewrite lookup_insert_eq. }
  assert (heap' !! p1 = Some b1) as Hh1.
  { subst heap'. by rewrite lookup_insert_eq. }
  assert (∀ p, p ∈ dir_ t → heap' !! p = heap_ t !! p) as Hhold.
  { intros p Hp%Hfresh. subst heap'.
    rewrite !lookup_insert_ne by (subst p0 p1; lia). done. }
  set (t1 := mkTable gd' (bucket_size_ t) (num_buckets_ t + 1)
               (redirect (2 ^ d) tar p0 p1 dir') heap' (S (S (next_ t)))).
  assert (∀ x, slot_of t1 x = Z.to_nat (hash x mod 2 ^ gd')) as Hslot1 by done.
  (* where the keys of the split bucket hash to afterwards *)
  assert (∀ x, x ∈ (list_ tb).*1 →
            dir_ t1 !! slot_of t1 x
            = Some (if Z.testbit (hash x) d then p1 else p0)) as Hhome_tar.
  { intros x Hx. simpl. apply redirect_lookup; [lia|]. exists tar.
    split; [apply HD'; by apply Hth|].
    rewrite bool_decide_eq_true_2 by done.
    rewrite Hslot1, Z2Nat.id by (apply mod_pow2_range; lia).
    by rewrite testbit_mod_pow2 by lia. }
  (* slots of the new directory that hold a fresh address *)
  assert (∀ j q, dir_ t1 !! j = Some q → (q = p0 ∨ q = p1) →
            ∃ j0, dir_ t !! j0 = Some tar ∧
                  Z.of_nat j0 mod 2 ^ gd = Z.of_nat j mod 2 ^ gd ∧
                  q = if Z.testbit (Z.of_nat j) d then p1 else p0) as Hnew.
  { intros j q (p & Hp & ->)%redirect_lookup Hq; [|lia].
    destruct (HD _ _ Hp) as (j0 & Hj0 & Hj0m).
    destruct (bool_decide_reflect (p = tar)) as [->|Hne]; [eauto|].
    apply list_elem_of_lookup_2, Hfresh in Hj0. subst p0 p1. lia. }
  (* slots that hold an address of the old directory *)
  assert (∀ j q, dir_ t1 !! j = Some q → q ≠ p0 → q ≠ p1 →
            q ≠ tar ∧ ∃ j0, dir_ t !! j0 = Some q ∧
                  Z.of_nat j0 mod 2 ^ gd = Z.of_nat j mod 2 ^ gd) as Hold.
  { intros j q (p & Hp & ->)%redirect_lookup Hq0 Hq1; [|lia].
    destruct (HD _ _ Hp) as (j0 & Hj0 & Hj0m).
    destruct (bool_decide_reflect (p = tar)) as [->|Hne].
    - by destruct (Z.testbit (Z.of_nat j) d).
    - eauto. }
  assert (WF t1) as Hwf1.
  { split; simpl.
    - lia.
    - unfold redirect. by rewrite length_imap.
    - intros q (j & Hj)%list_elem_of_lookup_1.
      apply redirect_lookup in Hj as (p & Hp & ->); [|lia].
      destruct (HD _ _ Hp) as (j0 & Hj0 & _).
      apply list_elem_of_lookup_2, Hfresh in Hj0.
      destruct (bool_decide (p = tar)); [|lia].
      destruct (Z.testbit (Z.of_nat j) d); subst p0 p1; lia.
    - intros i q Hi.
      destruct (decide (q = p0 ∨ q = p1)) as [Hq|Hq].
      + destruct (Hnew _ _ Hi Hq) as (i0 & Hi0 & Hi0m & Hqi).
        assert (∀ bq, Bok (bucket_size_ t) (d + 1)
                        (λ x, x ∈ (list_ tb).*1 ∧
                              Z.testbit (hash x) d = Z.testbit (Z.of_nat i) d) bq →
                      bucket_wf t1 i q bq) as Hmk.
        { intros bq Hbq. pose proof (bok_depth _ _ _ _ Hbq) as Hbd.
          split.
          - simpl. lia.
          - rewrite Hbd. eapply Bok_weaken; [|exact Hbq].
            intros x [Hx Hbit]. cbv beta.
            rewrite (Hhome_tar x Hx), Hbit. by rewrite Hqi.
          - intros j Hj. rewrite Hbd.
            destruct (Hnew _ _ Hj Hq) as (j0 & Hj0 & Hj0m & Hqj).
            apply mod_pow2_succ; [lia| |].
            + rewrite <-(mod_pow2_le _ _ d gd ltac:(lia) Hj0m).
              rewrite <-(mod_pow2_le _ _ d gd ltac:(lia) Hi0m).
              rewrite (Hts _ Hj0). symmetry. apply Hts. done.
            + rewrite Hqi in Hqj.
              destruct (Z.testbit (Z.of_nat j) d), (Z.testbit (Z.of_nat i) d);
                try done; subst p0 p1; lia. }
        destruct (Z.testbit (Z.of_nat i) d) eqn:Ebit; subst q.
        * exists b1. split; [done|]. by apply Hmk.
        * exists b0. split; [done|]. by apply Hmk.
      + destruct (Hold _ _ Hi) as (Hqt & i0 & Hi0 & Hi0m); [tauto..|].
        destruct (Hbuckets _ _ Hi0) as (b & Hb & [Hbd [Hb1' Hb2 Hb3 Hb4 Hb5] Hbs']).
        exists b. split.
        { rewrite Hhold; [done|]. by eapply list_elem_of_lookup_2. }
        split.
        * simpl. lia.
        * split; try done. intros x Hx. simpl.
          apply redirect_lookup; [lia|]. exists q.
          split; [apply HD'; by apply Hb5|].
          by rewrite bool_decide_eq_false_2.
        * intros j Hj.
          destruct (Hold _ _ Hj) as (_ & j0 & Hj0 & Hj0m); [tauto..|].
          rewrite <-(mod_pow2_le _ _ (depth_ b) gd ltac:(lia) Hj0m).
          rewrite <-(mod_pow2_le _ _ (depth_ b) gd ltac:(lia) Hi0m).
          rewrite (Hbs' _ Hj0). symmetry. by apply Hbs'. }
  split; [done|]. split; [done|].
  assert (dir_ t1 !! slot_of t1 key
          = Some (if Z.testbit (hash key) d then p1 else p0)) as Hkey.
  { simpl. apply redirect_lookup; [lia|]. exists tar.
    split; [by apply HD'|].
    rewrite bool_decide_eq_true_2 by done.
    rewrite Hslot1, Z2Nat.id by (apply mod_pow2_range; lia).
    by rewrite testbit_mod_pow2 by lia. }
  exists tar, tb.
  destruct (Z.testbit (hash key) d) eqn:Ebit.
  - exists p1, b1. repeat (split; [done || lia|]).
    split; [apply Hb1|]. split; [done|]. fold d. rewrite ?Ebit, ER.
    split; [|done]. intros x Hx. by apply (bok_keys _ _ _ _ Hb1).
  - exists p0, b0. repeat (split; [done || lia|]).
    split; [apply Hb0|]. split; [done|]. fold d. rewrite ?Ebit, ER.
    split; [|done]. intros x Hx. by apply (bok_keys _ _ _ _ Hb0).
Qed.

Lemma WF_init bs : 0 ≤ bs → WF (ExtendibleHashTable bs).
Proof.
  intros Hbs. split; simpl; [done|done| |].
  - intros p ->%list_elem_of_singleton. lia.
  - intros i p Hi. apply list_lookup_singleton_Some in Hi as [-> <-].
    exists (mkBucket bs 0 []). split; [done|]. split; simpl; [done| |].
    + split; simpl; [done|done|lia|constructor|by intros x ?%elem_of_nil].
    + by intros j [-> _]%list_lookup_singleton_Some.
Qed.

Lemma set_bucket_WF t i p b b' :
  WF t → dir_ t !! i = Some p → heap_ t !! p = Some b →
  Bok (bucket_size_ t) (depth_ b) (λ x, dir_ t !! slot_of t x = Some p) b' →
  WF (set_bucket p b' t).
Proof.
  intros [Hg Hlen Hfresh Hbuckets] Hi Hb Hb'.
  split; simpl; try done.
  intros j q Hj. destruct (Hbuckets _ _ Hj) as (bq & Hbq & [Hd Hbok Hsh]).
  destruct (decide (q = p)) as [->|Hne].
  - exists b'. rewrite lookup_insert_eq. split; [done|].
    rewrite Hb in Hbq. injection Hbq as <-.
    pose proof (bok_depth _ _ _ _ Hb') as Hd'.
    split; simpl; rewrite ?Hd'; done.
  - exists bq. rewrite lookup_insert_ne by done. by split.
Qed.

Lemma split_loop_unfold fuel key t :
  split_loop hash fuel key t =
  (let* index := IndexOf hash key t in
   let* p := dir_at index t in
   let* b := bucket_at p t in
   if IsFull b then
     match fuel with
     | O => OutOfFuel
     | S fuel' => let* t' := split hash key t in split_loop hash fuel' key t'
     end
   else Ok t).
Proof. by destruct fuel. Qed.

(** Reading the bucket a key hashes to, in a well-formed table whose
    depth still fits the shifts. *)
Lemma target_read t key :
  WF t → global_depth_ t < 31 →
  ∃ p b, dir_ t !! slot_of t key = Some p ∧ heap_ t !! p = Some b ∧
         bucket_wf t (slot_of t key) p b ∧
         IndexOf hash key t = Ok (hash key mod 2 ^ global_depth_ t) ∧
         dir_at (hash key mod 2 ^ global_depth_ t) t = Ok p ∧
         bucket_at p t = Ok b.
Proof.
  intros Hwf Hgd. destruct (target_bucket t key Hwf) as (p & b & Hp & Hb & Hbw).
  exists p, b. pose proof (wf_depth _ Hwf).
  repeat (split; [done|]).
  split; [by apply IndexOf_Ok|]. split; [by apply dir_at_slot|].
  unfold bucket_at. by rewrite Hb.
Qed.

Lemma split_Ok key t :
  WF t → global_depth_ t < 31 → ∃ t', split hash key t = Ok t'.
Proof.
  intros Hwf Hgd.
  destruct (target_read t key Hwf Hgd) as (p & b & _ & _ & Hbw & HI & HD & HB).
  unfold split. rewrite HI. simpl. rewrite HD. simpl. rewrite HB. simpl.
  unfold GetDepth. rewrite shl1_Ok by (destruct Hbw; lia). simpl.
  destruct (rehash _ _ _ _ _). eauto.
Qed.

(** The loop, whenever it returns, keeps the invariant and leaves the
    key's slot at a bucket that is not full. *)
Lemma split_loop_WF key fuel t t' :
  WF t → split_loop hash fuel key t = Ok t' →
  WF t' ∧ bucket_size_ t' = bucket_size_ t ∧ global_depth_ t' < 31 ∧
  ∃ p b, dir_ t' !! slot_of t' key = Some p ∧ heap_ t' !! p = Some b ∧
         IsFull b = false ∧
         (key ∉ (target_items key t).*1 → key ∉ (list_ b).*1).
Proof.
  revert t. induction fuel as [|fuel IH]; intros t Hwf;
    rewrite split_loop_unfold;
    (destruct (IndexOf hash key t) as [index| |] eqn:EI; simpl; [|done..]);
    pose proof (IndexOf_inv _ _ _ EI) as [Hgd ->];
    (destruct (dir_at _ t) as [p| |] eqn:ED; simpl; [|done..]);
    apply dir_at_inv in ED as [_ Hp]; fold (slot_of t key) in Hp;
    (destruct (bucket_at p t) as [b| |] eqn:EB; simpl; [|done..]);
    apply bucket_at_inv in EB;
    (destruct (IsFull b) eqn:Ef;
     [|intros [= <-]; split; [done|]; split; [done|]; split; [lia|];
       exists p, b; repeat (split; [done|]);
       unfold EHT.target_items, bucket_items; by rewrite Hp, EB]).
  - done.
  - destruct (split hash key t) as [t1| |] eqn:ES; simpl; [|done..].
    destruct (split_WF key t t1 Hwf ES)
      as (Hwf1 & Hbs1 & p0 & b0 & p1 & b1 & Hp0 & Hb0 & Hp1 & Hb1 & _ & _ & _
          & Hsub & _).
    intros Hloop. destruct (IH t1 Hwf1 Hloop) as (Hwf' & Hbs' & Hgd' & q & bq & Hq & Hbq & Hnf & Hkey).
    split; [done|]. split; [congruence|]. split; [done|].
    exists q, bq. repeat (split; [done|]). intros Hk. apply Hkey.
    unfold EHT.target_items, bucket_items. rewrite Hp1, Hb1. intros Hin%Hsub.
    apply Hk. unfold EHT.target_items, bucket_items. rewrite Hp0, Hb0. tauto.
Qed.

Lemma Find_set_bucket key t p b' :
  0 ≤ global_depth_ t < 31 →
  dir_ t !! slot_of t key = Some p →
  Find hash key (set_bucket p b' t) = Ok (Bucket_Find key b').
Proof.
  intros Hgd Hp. unfold Find.
  rewrite (IndexOf_Ok key (set_bucket p b' t)) by done.
  cbn [bind global_depth_ set_bucket].
  pose proof (dir_at_slot key t p ltac:(lia) Hp) as HD.
  unfold dir_at in *. cbn [dir_ set_bucket].
  destruct (_ <? 0); [done|].
  destruct (dir_ t !! _); [|done]. injection HD as ->.
  cbn [bind]. unfold bucket_at. cbn [heap_ set_bucket].
  by rewrite lookup_insert_eq.
Qed.

(** The last step of [Insert], on a bucket that is not full. *)
Lemma final_insert key value t p b :
  WF t → global_depth_ t < 31 →
  dir_ t !! slot_of t key = Some p → heap_ t !! p = Some b →
  IsFull b = false →
  let t' := set_bucket p (Bucket_Insert key value b).2 t in
  WF t' ∧ Find hash key t' = Ok (Some value).
Proof.
  intros Hwf Hgd Hp Hb Hnf t'.
  destruct (wf_bucket _ Hwf _ _ Hp) as (b' & Hb' & [Hd Hbok Hsh]).
  rewrite Hb in Hb'. injection Hb' as <-.
  split.
  - eapply set_bucket_WF; [done..|]. by apply Bucket_Insert_Bok.
  - pose proof (wf_depth _ Hwf). subst t'.
    rewrite Find_set_bucket by (done || lia). f_equal.
    unfold Bucket_Find, Bucket_Insert.
    destruct (assign_key key value (list_ b)) as [l|] eqn:E; simpl.
    + by apply assign_key_Some in E as (_ & _ & ?).
    + rewrite Hnf. simpl. apply find_key_app_new.
      by apply (assign_key_None key value).
Qed.

(** [Insert], whenever it returns, keeps the invariant and leaves the
    pair in the table. *)
Lemma Insert_WF fuel key value t t' :
  WF t → Insert hash fuel key value t = Ok t' →
  WF t' ∧ bucket_size_ t' = bucket_size_ t ∧ global_depth_ t' < 31 ∧
  Find hash key t' = Ok (Some value).
Proof.
  intros Hwf. unfold Insert.
  destruct (IndexOf hash key t) as [index| |] eqn:EI; simpl; [|done..].
  pose proof (IndexOf_inv _ _ _ EI) as [Hgd ->].
  destruct (dir_at _ t) as [tar| |] eqn:ED; simpl; [|done..].
  pose proof (dir_at_inv _ _ _ ED) as [_ Htar]. fold (slot_of t key) in Htar.
  destruct (bucket_at tar t) as [tb| |] eqn:EB; simpl; [|done..].
  pose proof (bucket_at_inv _ _ _ EB) as Htb.
  destruct (shl1 (GetDepth tb)) as [mask| |]; simpl; [|done..].
  destruct (wf_bucket _ Hwf _ _ Htar) as (tb' & Htb' & [Hd Hbok Hsh]).
  rewrite Htb in Htb'. injection Htb' as <-.
  assert (∀ t1, WF t1 → bucket_size_ t1 = bucket_size_ t →
            (let* t2 := split_loop hash fuel key t1 in
             let* index := IndexOf hash key t2 in
             let* tar := dir_at index t2 in
             let* tar_bucket := bucket_at tar t2 in
             Ok (set_bucket tar (Bucket_Insert key value tar_bucket).2 t2))
            = Ok t' →
            WF t' ∧ bucket_size_ t' = bucket_size_ t ∧ global_depth_ t' < 31 ∧
            Find hash key t' = Ok (Some value)) as Hcont.
  { intros t1 Hwf1 Hbs1.
    destruct (split_loop hash fuel key t1) as [t2| |] eqn:EL; simpl; [|done..].
    destruct (split_loop_WF key fuel t1 t2 Hwf1 EL)
      as (Hwf2 & Hbs2 & Hgd2 & p & b & Hp & Hb & Hnf & _).
    pose proof (wf_depth _ Hwf2).
    rewrite IndexOf_Ok by lia. simpl.
    rewrite (dir_at_slot key t2 p) by done. simpl.
    unfold bucket_at. rewrite Hb. simpl. intros [= <-].
    destruct (final_insert key value t2 p b Hwf2 Hgd2 Hp Hb Hnf) as [? ?].
    repeat (split; [done || (simpl; congruence)|]). done. }
  unfold Bucket_Find.
  destruct (find_key key (list_ tb)) as [val|] eqn:EF.
  - destruct (Z.eqb_spec val value) as [->|Hne].
    + intros [= <-]. repeat (split; [done || lia|]).
      unfold Find. rewrite EI. simpl. rewrite ED. simpl. rewrite EB. simpl.
      unfold Bucket_Find. by rewrite EF.
    + apply Hcont; [|done].
      eapply set_bucket_WF; [done..|].
      eapply Bok_weaken; [|apply Bucket_Remove_Bok, Hbok]. by intros x [? _].
  - by apply Hcont.
Qed.

Lemma Remove_WF key t found t' :
  WF t → Remove hash key t = Ok (found, t') →
  WF t' ∧ bucket_size_ t' = bucket_size_ t ∧
  global_depth_ t' = global_depth_ t.
Proof.
  intros Hwf. unfold Remove.
  destruct (IndexOf hash key t) as [index| |] eqn:EI; simpl; [|done..].
  pose proof (IndexOf_inv _ _ _ EI) as [Hgd ->].
  destruct (dir_at _ t) as [tar| |] eqn:ED; simpl; [|done..].
  pose proof (dir_at_inv _ _ _ ED) as [_ Htar]. fold (slot_of t key) in Htar.
  destruct (bucket_at tar t) as [tb| |] eqn:EB; simpl; [|done..].
  pose proof (bucket_at_inv _ _ _ EB) as Htb.
  destruct (wf_bucket _ Hwf _ _ Htar) as (tb' & Htb' & [Hd Hbok Hsh]).
  rewrite Htb in Htb'. injection Htb' as <-.
  pose proof (Bucket_Remove_Bok _ _ _ key _ Hbok) as [Hrem _].
  destruct (Bucket_Remove key tb) as [f b']. simpl in *. intros [= <- <-].
  split; [|done].
  eapply set_bucket_WF; [done..|].
  eapply Bok_weaken; [|exact Hrem]. by intros x [? _].
Qed.

(** Every table a client can reach is well formed. *)
Lemma run_WF bs fuel cs t :
  0 ≤ bs → run hash fuel cs (ExtendibleHashTable bs) = Ok t →
  WF t ∧ bucket_size_ t = bs ∧ global_depth_ t < 31.
Proof.
  intros Hbs.
  assert (∀ t0, WF t0 ∧ bucket_size_ t0 = bs ∧ global_depth_ t0 < 31 →
                run hash fuel cs t0 = Ok t →
                WF t ∧ bucket_size_ t = bs ∧ global_depth_ t < 31) as Hgen.
  { induction cs as [|c cs IH]; simpl; intros t0 Ht0.
    - by intros [= <-].
    - destruct (call hash fuel c t0) as [t1| |] eqn:Ec; simpl; [|done..].
      apply IH. destruct Ht0 as (Hwf & Hb & Hg). destruct c as [key value|key]; simpl in Ec.
      + destruct (Insert_WF _ _ _ _ _ Hwf Ec) as (? & ? & ? & _).
        split; [done|]. split; [congruence|done].
      + destruct (Remove hash key t0) as [[f t1']| |] eqn:Er; simpl in Ec; [|done..].
        injection Ec as <-.
        destruct (Remove_WF _ _ _ _ Hwf Er) as (? & ? & ?).
        split; [done|]. split; [congruence|lia]. }
  apply Hgen. split; [by apply WF_init|]. by split.
Qed.

(** ** Entries across the directory *)

Lemma elem_of_flat_map_keys (f : nat → list (Z * Z)) l x :
  x ∈ (flat_map f l).*1 ↔ ∃ p, p ∈ l ∧ x ∈ (f p).*1.
Proof.
  induction l as [|q l IH]; simpl.
  - split; [by intros ?%elem_of_nil|]. by intros (? & ?%elem_of_nil & _).
  - rewrite fmap_app, elem_of_app, IH. split.
    + intros [?|(p & ? & ?)]; [exists q|exists p]; split; try done;
        [by left|by right].
    + intros (p & [->|?]%elem_of_cons & ?); [by left|right; eauto].
Qed.

Lemma NoDup_flat_map_keys (f : nat → list (Z * Z)) l :
  NoDup l →
  (∀ p, p ∈ l → NoDup (f p).*1) →
  (∀ p q x, p ∈ l → q ∈ l → x ∈ (f p).*1 → x ∈ (f q).*1 → p = q) →
  NoDup (flat_map f l).*1.
Proof.
  induction 1 as [|p l Hp Hl IH]; simpl; intros Hnd Hdisj; [constructor|].
  rewrite fmap_app. apply NoDup_app. split; [apply Hnd; by left|]. split.
  - intros x Hx (q & Hq & Hxq)%elem_of_flat_map_keys.
    apply Hp. by rewrite (Hdisj p q x) by (done || by left || by right).
  - apply IH.
    + intros q Hq. apply Hnd. by right.
    + intros q1 q2 x H1 H2. apply Hdisj; by right.
Qed.

Lemma all_entries_NoDup t : WF t → NoDup (all_entries t).*1.
Proof.
  intros Hwf. unfold all_entries.
  assert (∀ p, p ∈ remove_dups (dir_ t) →
            ∃ b, heap_ t !! p = Some b ∧ NoDup (list_ b).*1 ∧
                 ∀ x, x ∈ (list_ b).*1 → dir_ t !! slot_of t x = Some p) as Hb.
  { intros p Hp. rewrite elem_of_remove_dups in Hp.
    apply list_elem_of_lookup_1 in Hp as (i & Hi).
    destruct (wf_bucket _ Hwf _ _ Hi) as (b & Hb & [_ [_ _ _ ? ?] _]). eauto. }
  apply NoDup_flat_map_keys.
  - apply NoDup_remove_dups.
  - intros p (b & Hp & ? & _)%Hb. unfold bucket_items. by rewrite Hp.
  - intros p q x (bp & Hp & _ & Hhp)%Hb (bq & Hq & _ & Hhq)%Hb.
    unfold bucket_items. rewrite Hp, Hq. intros Hx%Hhp Hx'%Hhq. congruence.
Qed.

Lemma Find_entry key value t :
  Find hash key t = Ok (Some value) → (key, value) ∈ all_entries t.
Proof.
  unfold Find.
  destruct (IndexOf hash key t) as [index| |] eqn:EI; simpl; [|done..].
  destruct (dir_at _ t) as [p| |] eqn:ED; simpl; [|done..].
  apply dir_at_inv in ED as [_ Hp].
  destruct (bucket_at p t) as [b| |] eqn:EB; simpl; [|done..].
  apply bucket_at_inv in EB. intros [= Hf%find_key_Some].
  unfold all_entries. apply list_elem_of_In, in_flat_map. exists p. split.
  - apply list_elem_of_In. rewrite elem_of_remove_dups.
    by eapply list_elem_of_lookup_2.
  - apply list_elem_of_In. unfold bucket_items. by rewrite EB.
Qed.

Lemma filter_key_NoDup key value (l : list (Z * Z)) :
  NoDup l.*1 → (key, value) ∈ l →
  filter (λ kv, kv.1 = key) l = [(key, value)].
Proof.
  induction l as [|[k v] l IH]; simpl; [by intros _ ?%elem_of_nil|].
  intros [Hk Hl]%NoDup_cons Hin. rewrite filter_cons. simpl.
  destruct (decide (k = key)) as [->|Hne].
  - apply elem_of_cons in Hin as [[= ->]|Hin].
    + f_equal. apply elem_of_nil_inv. intros [k' v'] [Hk' Hin']%list_elem_of_filter.
      simpl in Hk'. subst k'. apply Hk. apply list_elem_of_fmap. by exists (key, v').
    + destruct Hk. apply list_elem_of_fmap. by exists (key, value).
  - apply IH; [done|]. apply elem_of_cons in Hin as [[= -> ->]|Hin]; done.
Qed.

(** An upsert needs no split: after the old pair is erased the bucket
    has room. *)
Lemma Insert_update_Ok fuel key v value t :
  WF t → Find hash key t = Ok (Some v) → v ≠ value →
  ∃ t', Insert hash fuel key value t = Ok t'.
Proof.
  intros Hwf. unfold Find, Insert.
  destruct (IndexOf hash key t) as [index| |] eqn:EI; simpl; [|done..].
  pose proof (IndexOf_inv _ _ _ EI) as [Hgd ->].
  destruct (dir_at _ t) as [tar| |] eqn:ED; simpl; [|done..].
  pose proof (dir_at_inv _ _ _ ED) as [_ Htar]. fold (slot_of t key) in Htar.
  destruct (bucket_at tar t) as [tb| |] eqn:EB; simpl; [|done..].
  pose proof (bucket_at_inv _ _ _ EB) as Htb.
  intros [= EF] Hne. rewrite EF.
  destruct (wf_bucket _ Hwf _ _ Htar) as (tb' & Htb' & [Hd Hbok Hsh]).
  rewrite Htb in Htb'. injection Htb' as <-.
  unfold GetDepth. rewrite shl1_Ok by lia. simpl.
  destruct (Z.eqb_spec v value); [done|].
  pose proof (Bucket_Remove_Bok _ _ _ key _ Hbok) as [Hrem Hlt].
  unfold Bucket_Remove in *. rewrite EF in *. simpl in *.
  set (b' := mkBucket _ _ _) in *.
  set (t1 := set_bucket tar b' t).
  assert (WF t1) as Hwf1.
  { eapply set_bucket_WF; [done..|].
    eapply Bok_weaken; [|exact Hrem]. by intros x [? _]. }
  assert (IsFull b' = false) as Hnf.
  { apply IsFull_false. destruct Hrem as [Hs _ _ _ _].
    destruct Hbok as [_ _ Hl _ _]. specialize (Hlt eq_refl).
    subst b'. simpl in *. lia. }
  rewrite split_loop_unfold.
  rewrite (IndexOf_Ok key t1) by (simpl; lia). cbn [bind].
  rewrite (dir_at_slot key t1 tar) by (exact Htar || (simpl; lia)). cbn [bind].
  unfold bucket_at at 1. cbn [heap_ t1 set_bucket].
  rewrite lookup_insert_eq. cbn [bind]. rewrite Hnf. cbn [bind].
  rewrite (IndexOf_Ok key t1) by (simpl; lia). cbn [bind].
  rewrite (dir_at_slot key t1 tar) by (exact Htar || (simpl; lia)). cbn [bind].
  unfold bucket_at. cbn [heap_ t1 set_bucket].
  rewrite lookup_insert_eq. cbn [bind]. eauto.
Qed.

Lemma split_all_full key t t' :
  all_full t → split hash key t = Ok t' → all_full t'.
Proof.
  intros [Hbs Hall]. unfold split.
  destruct (IndexOf hash key t) as [index| |]; simpl; [|done..].
  destruct (dir_at _ t) as [tar| |]; simpl; [|done..].
  destruct (bucket_at tar t) as [tb| |] eqn:EB; simpl; [|done..].
  apply bucket_at_inv in EB. destruct (Hall _ _ EB) as [Hl _].
  destruct (shl1 _) as [mask| |]; simpl; [|done..].
  unfold GetItems. rewrite Hl. simpl. intros [= <-].
  split; simpl; [done|]. intros p b.
  rewrite !lookup_insert. repeat case_decide; [by intros [= <-]..|by apply Hall].
Qed.

Lemma split_loop_all_full key fuel t t' :
  all_full t → split_loop hash fuel key t ≠ Ok t'.
Proof.
  revert t. induction fuel as [|fuel IH]; intros t Hall;
    rewrite split_loop_unfold;
    (destruct (IndexOf hash key t) as [index| |]; simpl; [|done..]);
    (destruct (dir_at _ t) as [tar| |]; simpl; [|done..]);
    (destruct (bucket_at tar t) as [tb| |] eqn:EB; simpl; [|done..]);
    apply bucket_at_inv in EB; destruct (proj2 Hall _ _ EB) as [Hl Hs];
    unfold IsFull; rewrite Hl, Hs; simpl; [done|].
  destruct (split hash key t) as [t1| |] eqn:ES; simpl; [|done..].
  apply IH. by eapply split_all_full.
Qed.

End Table.

(** With capacity 1 and key 0 in the way, the splits for key [2^30] keep
    key 0 in the target bucket until the global depth is 31, where
    [IndexOf] shifts out of range. *)
Lemma split_loop_stuck fuel t t' :
  stuck t → split_loop hash_int fuel (2 ^ 30) t ≠ Ok t'.
Proof.
  revert t. induction fuel as [|fuel IH]; intros t (Hwf & Hgd & Hbs & Htar);
    rewrite split_loop_unfold;
    destruct (target_read hash_int t (2 ^ 30) Hwf ltac:(lia))
      as (p & b & Hp & Hb & [Hd [Hsz _ _ _ _] _] & -> & HD & HB);
    simpl; rewrite HD; simpl; rewrite HB; simpl;
    unfold target_items, bucket_items in Htar; rewrite Hp, Hb in Htar;
    unfold IsFull; rewrite Htar, Hsz, Hbs; simpl; [done|].
  destruct (split hash_int (2 ^ 30) t) as [t1| |] eqn:ES; simpl; [|done..].
  destruct (split_WF hash_int (2 ^ 30) t t1 Hwf ES)
    as (Hwf1 & Hbs1 & p0 & b0 & p1 & b1 & Hp0 & Hb0 & Hp1 & Hb1 & _ & _ & Hgd1
        & _ & Hb1').
  rewrite Hp in Hp0. injection Hp0 as <-. rewrite Hb in Hb0. injection Hb0 as <-.
  destruct (decide (depth_ b = 30)) as [Hd30|Hd30].
  - assert (global_depth_ t1 = 31) as Hgd31.
    { rewrite Hgd1. destruct (Z.eqb_spec (depth_ b) (global_depth_ t)); lia. }
    rewrite split_loop_unfold. unfold IndexOf. rewrite Hgd31. done.
  - apply IH. split; [done|]. split.
    { rewrite Hgd1. destruct (Z.eqb_spec (depth_ b) (global_depth_ t)); lia. }
    split; [congruence|].
    unfold target_items, bucket_items. rewrite Hp1, Hb1. rewrite Hb1'.
    change (hash_int (2 ^ 30)) with (2 ^ 30).
    rewrite Z.pow2_bits_false by lia.
    rewrite Htar, Hbs. simpl.
    done.
Qed.

Lemma Insert_stuck fuel value t t' :
  stuck t → Insert hash_int fuel (2 ^ 30) value t ≠ Ok t'.
Proof.
  intros Hst. pose proof Hst as (Hwf & Hgd & Hbs & Htar). unfold Insert.
  destruct (target_read hash_int t (2 ^ 30) Hwf ltac:(lia))
    as (p & b & Hp & Hb & [Hd _ _] & -> & HD & HB).
  simpl. rewrite HD. simpl. rewrite HB. simpl.
  unfold GetDepth. rewrite shl1_Ok by lia. simpl.
  unfold target_items, bucket_items in Htar. rewrite Hp, Hb in Htar.
  unfold Bucket_Find. rewrite Htar. simpl.
  destruct (split_loop hash_int fuel (2 ^ 30) t) as [t2| |] eqn:EL;
    simpl; [|done..].
  by destruct (split_loop_stuck fuel t t2 Hst).
Qed.

Lemma stuck_table_stuck : stuck stuck_table.
Proof.
  destruct (run_WF hash_int 1 0 [CInsert 0 100] stuck_table) as (? & ? & ?);
    [lia|reflexivity|].
  split; [done|]. split; [by vm_compute|]. split; reflexivity.
Qed.


(** ** What the table holds *)

Lemma find_key_filter (Q : Z → Prop) `{!∀ x, Decision (Q x)} k l :
  find_key k (filter (λ kv : Z * Z, Q kv.1) l)
  = if decide (Q k) then find_key k l else None.
Proof.
  induction l as [|[x v] l IH]; simpl.
  - by destruct (decide _).
  - destruct (decide (Q x)) as [Hx|Hx].
    + rewrite filter_cons_True by done. simpl.
      destruct (Z.eqb_spec x k) as [->|Hne]; [|done].
      by destruct (decide (Q k)).
    + rewrite filter_cons_False by done.
      destruct (Z.eqb_spec x k) as [->|Hne]; [|done].
      by destruct (decide (Q k)).
Qed.

Lemma find_key_app_other k key value l :
  k ≠ key → find_key k (l ++ [(key, value)]) = find_key k l.
Proof.
  intros Hne. induction l as [|[x v] l IH]; simpl.
  - destruct (Z.eqb_spec key k); [congruence|done].
  - by destruct (x =? k).
Qed.

Lemma assign_key_other k key value l l' :
  k ≠ key → assign_key key value l = Some l' → find_key k l' = find_key k l.
Proof.
  intros Hne. revert l'. induction l as [|[x v] l IH]; simpl; intros l'; [done|].
  destruct (Z.eqb_spec x key) as [->|Hx].
  - intros [= <-]. simpl. destruct (Z.eqb_spec key k); [congruence|done].
  - destruct (assign_key key value l) as [l1|]; simpl; [|done].
    intros [= <-]. simpl. destruct (x =? k); [done|]. by apply IH.
Qed.

Lemma Bucket_Insert_other k key value b :
  k ≠ key →
  find_key k (list_ (Bucket_Insert key value b).2) = find_key k (list_ b).
Proof.
  intros Hne. unfold Bucket_Insert.
  destruct (assign_key key value (list_ b)) as [l|] eqn:E; simpl.
  - by eapply assign_key_other.
  - destruct (IsFull b); simpl; [done|]. by apply find_key_app_other.
Qed.

Lemma Bucket_Insert_new key value b :
  key ∉ (list_ b).*1 → Z.of_nat (length (list_ b)) < size_ b →
  Bucket_Insert key value b
  = (true, mkBucket (size_ b) (depth_ b) (list_ b ++ [(key, value)])).
Proof.
  intros Hk Hlen. unfold Bucket_Insert.
  apply (assign_key_None key value) in Hk. rewrite Hk.
  by rewrite IsFull_false.
Qed.

Lemma find_key_remove_other k key val l :
  k ≠ key →
  find_key k (filter (λ kv : Z * Z, kv ≠ (key, val)) l) = find_key k l.
Proof.
  intros Hne. induction l as [|[x v] l IH]; [done|].
  destruct (decide ((x, v) ≠ (key, val))) as [Hx|Hx].
  - rewrite filter_cons_True by done. simpl. by rewrite IH.
  - rewrite filter_cons_False by done. simpl.
    destruct (Z.eqb_spec x k) as [->|_]; [|done].
    destruct Hx. congruence.
Qed.

Lemma Bucket_Remove_other k key b :
  k ≠ key →
  find_key k (list_ (Bucket_Remove key b).2) = find_key k (list_ b).
Proof.
  intros Hne. unfold Bucket_Remove, Bucket_Find.
  destruct (find_key key (list_ b)); simpl; [|done].
  by apply find_key_remove_other.
Qed.

Lemma Bucket_Remove_found key b :
  (Bucket_Remove key b).1 = true ↔ is_Some (find_key key (list_ b)).
Proof.
  unfold Bucket_Remove, Bucket_Find.
  destruct (find_key key (list_ b)); simpl; split; try done; eauto.
Qed.

Section RehashExact.
Variable hash : Z → Z.

Lemma rehash_exact mask items :
  ∀ b0 b1,
    NoDup items.*1 →
    (∀ x, x ∈ items.*1 → (x ∉ (list_ b0).*1) ∧ (x ∉ (list_ b1).*1)) →
    Z.of_nat (length (list_ b0) + length items) ≤ size_ b0 →
    Z.of_nat (length (list_ b1) + length items) ≤ size_ b1 →
    rehash hash mask items b0 b1 =
    (mkBucket (size_ b0) (depth_ b0)
       (list_ b0 ++ filter (λ kv : Z * Z, Z.land (hash kv.1) mask = 0) items),
     mkBucket (size_ b1) (depth_ b1)
       (list_ b1 ++ filter (λ kv : Z * Z, Z.land (hash kv.1) mask ≠ 0) items)).
Proof.
  induction items as [|[k v] items IH]; simpl; intros b0 b1 Hnd Hdis H0 H1.
  - rewrite !app_nil_r. by destruct b0, b1.
  - apply NoDup_cons in Hnd as [Hk Hnd].
    destruct (Hdis k) as [Hk0 Hk1]; [by left|].
    destruct (Z.eqb_spec (Z.land (hash k) mask) 0) as [Hz|Hz]; simpl.
    + rewrite Bucket_Insert_new by (done || lia). simpl.
      rewrite IH; simpl; [|done| |rewrite length_app; simpl; lia|lia].
      * rewrite filter_cons_True by done.
        rewrite filter_cons_False by (simpl; tauto).
        by rewrite <-app_assoc.
      * intros x Hx. destruct (Hdis x) as [Hx0 Hx1]; [by right|].
        split; [|done]. rewrite fmap_app, elem_of_app. simpl.
        rewrite list_elem_of_singleton. intros [?| ->]; done.
    + rewrite Bucket_Insert_new by (done || lia). simpl.
      rewrite IH; simpl; [|done| |lia|rewrite length_app; simpl; lia].
      * rewrite filter_cons_False by (simpl; tauto).
        rewrite filter_cons_True by done.
        by rewrite <-app_assoc.
      * intros x Hx. destruct (Hdis x) as [Hx0 Hx1]; [by right|].
        split; [done|]. rewrite fmap_app, elem_of_app. simpl.
        rewrite list_elem_of_singleton. intros [?| ->]; done.
Qed.

End RehashExact.

Section Content.
Variable hash : Z → Z.
Local Abbreviation slot_of := (EHT.slot_of hash).
Local Abbreviation WF := (EHT.WF hash).
Local Abbreviation content := (EHT.content hash).
Local Abbreviation wf_bucket := (EHT.wf_bucket hash).
Local Abbreviation wf_depth := (EHT.wf_depth hash).

Lemma Find_content t k :
  WF t → global_depth_ t < 31 → Find hash k t = Ok (content t k).
Proof.
  intros Hwf Hgd.
  destruct (target_read hash t k Hwf Hgd) as (p & b & Hp & Hb & _ & HI & HD & HB).
  unfold Find. rewrite HI. simpl. rewrite HD. simpl. rewrite HB. simpl.
  unfold EHT.content, target_items, bucket_items, Bucket_Find.
  by rewrite Hp, Hb.
Qed.

Lemma content_set_bucket t p b' k :
  content (set_bucket p b' t) k =
  if decide (dir_ t !! slot_of t k = Some p) then find_key k (list_ b')
  else content t k.
Proof.
  unfold EHT.content, target_items, bucket_items.
  change (EHT.slot_of hash (set_bucket p b' t) k) with (slot_of t k).
  cbn [dir_ heap_ set_bucket].
  destruct (dir_ t !! slot_of t k) as [q|] eqn:Eq.
  - destruct (decide (Some q = Some p)) as [[= ->]|Hne].
    + by rewrite lookup_insert_eq.
    + rewrite lookup_insert_ne; [done|]. congruence.
  - by rewrite decide_False.
Qed.

(** A split moves pairs between buckets and loses none: every key is
    found with the same value before and after. *)
Lemma split_content key t t' :
  WF t → split hash key t = Ok t' → ∀ k, content t' k = content t k.
Proof.
  intros Hwf. unfold split.
  destruct (IndexOf hash key t) as [index| |] eqn:EI; simpl; [|done..].
  apply IndexOf_inv in EI as [Hgd ->].
  destruct (dir_at _ t) as [tar| |] eqn:ED; simpl; [|done..].
  apply dir_at_inv in ED as [_ Htar]. fold (slot_of t key) in Htar.
  destruct (bucket_at tar t) as [tb| |] eqn:EB; simpl; [|done..].
  apply bucket_at_inv in EB. unfold GetDepth, GetItems.
  destruct (shl1 (depth_ tb)) as [mask| |] eqn:ES; simpl; [|done..].
  apply shl1_inv in ES as [Hd ->].
  pose proof Hwf as [Hg Hlen Hfresh Hbuckets].
  destruct (Hbuckets _ _ Htar) as (tb' & Htb' & [Htd [Hts Htdd Htl Htn Hth] _]).
  rewrite EB in Htb'. injection Htb' as <-.
  rewrite rehash_exact; simpl; [| done | | lia..].
  2:{ intros x _. split; apply not_elem_of_nil. }
  intros [= <-] k.
  set (d := depth_ tb) in *. set (gd := global_depth_ t) in *.
  set (doubled := d =? gd).
  set (gd' := if doubled then gd + 1 else gd).
  set (dir' := if doubled then dir_ t ++ dir_ t else dir_ t).
  destruct (grow_lookup (dir_ t) gd doubled Hg Hlen) as (Hlen' & HD & HD').
  fold gd' dir' in Hlen', HD, HD'.
  assert (d + 1 ≤ gd' ∧ gd ≤ gd') as [Hdg Hgg].
  { subst gd' doubled. destruct (Z.eqb_spec d gd); lia. }
  destruct (target_bucket hash t k Hwf) as (q & bq & Hq & Hbq & _).
  unfold EHT.content, target_items, bucket_items. rewrite Hq, Hbq.
  unfold EHT.slot_of. cbn [dir_ heap_ global_depth_].
  assert (redirect (2 ^ d) tar (next_ t) (S (next_ t)) dir'
            !! Z.to_nat (hash k mod 2 ^ gd')
          = Some (if bool_decide (q = tar)
                  then if Z.testbit (hash k) d then S (next_ t) else next_ t
                  else q)) as ->.
  { apply redirect_lookup; [lia|]. exists q. split; [by apply HD'|].
    rewrite Z2Nat.id by (apply mod_pow2_range; lia).
    by rewrite testbit_mod_pow2 by lia. }
  destruct (bool_decide_reflect (q = tar)) as [->|Hne].
  - rewrite EB in Hbq. injection Hbq as <-.
    destruct (Z.testbit (hash k) d) eqn:Ebit.
    + rewrite lookup_insert_eq. simpl.
      pose proof (find_key_filter (λ x, Z.land (hash x) (2 ^ d) ≠ 0)
                    k (list_ tb)) as Hf.
      etrans; [exact Hf|].
      rewrite decide_True; [done|].
      pose proof (land_pow2_eqb (hash k) d ltac:(lia)) as Hl.
      rewrite Ebit in Hl. simpl in Hl. by apply Z.eqb_neq in Hl.
    + rewrite lookup_insert_ne by lia. rewrite lookup_insert_eq. simpl.
      pose proof (find_key_filter (λ x, Z.land (hash x) (2 ^ d) = 0)
                    k (list_ tb)) as Hf.
      etrans; [exact Hf|].
      rewrite decide_True; [done|].
      pose proof (land_pow2_eqb (hash k) d ltac:(lia)) as Hl.
      rewrite Ebit in Hl. simpl in Hl. by apply Z.eqb_eq in Hl.
  - assert (q < next_ t)%nat.
    { apply Hfresh. by eapply list_elem_of_lookup_2. }
    rewrite !lookup_insert_ne by lia. by rewrite Hbq.
Qed.

Lemma split_loop_content key fuel :
  ∀ t t', WF t → split_loop hash fuel key t = Ok t' →
          ∀ k, content t' k = content t k.
Proof.
  induction fuel as [|fuel IH]; intros t t' Hwf;
    rewrite split_loop_unfold;
    (destruct (IndexOf hash key t) as [index| |]; simpl; [|done..]);
    (destruct (dir_at _ t) as [p| |]; simpl; [|done..]);
    (destruct (bucket_at p t) as [b| |]; simpl; [|done..]);
    (destruct (IsFull b); [|by intros [= <-]]).
  - done.
  - destruct (split hash key t) as [t1| |] eqn:ES; simpl; [|done..].
    intros Hloop k.
    destruct (split_WF hash key t t1 Hwf ES) as (Hwf1 & _).
    rewrite (IH t1 t' Hwf1 Hloop k). by eapply split_content.
Qed.

Lemma content_target t k p b :
  dir_ t !! slot_of t k = Some p → heap_ t !! p = Some b →
  content t k = find_key k (list_ b).
Proof.
  intros Hp Hb. unfold EHT.content, target_items, bucket_items.
  by rewrite Hp, Hb.
Qed.

Lemma content_init bs k : content (ExtendibleHashTable bs) k = (∅ : gmap Z Z) !! k.
Proof.
  unfold EHT.content, target_items, EHT.slot_of, bucket_items. simpl.
  rewrite Z.mod_1_r. simpl. by rewrite lookup_singleton_eq.
Qed.

Lemma Insert_content fuel key value t t' :
  WF t → Insert hash fuel key value t = Ok t' →
  ∀ k, k ≠ key → content t' k = content t k.
Proof.
  intros Hwf. unfold Insert.
  destruct (IndexOf hash key t) as [index| |] eqn:EI; simpl; [|done..].
  pose proof (IndexOf_inv _ _ _ _ EI) as [Hgd ->].
  destruct (dir_at _ t) as [tar| |] eqn:ED; simpl; [|done..].
  pose proof (dir_at_inv _ _ _ ED) as [_ Htar]. fold (slot_of t key) in Htar.
  destruct (bucket_at tar t) as [tb| |] eqn:EB; simpl; [|done..].
  pose proof (bucket_at_inv _ _ _ EB) as Htb.
  destruct (shl1 (GetDepth tb)) as [mask| |]; simpl; [|done..].
  destruct (wf_bucket _ Hwf _ _ Htar) as (tb' & Htb' & [Hd Hbok Hsh]).
  rewrite Htb in Htb'. injection Htb' as <-.
  assert (∀ t1, WF t1 →
            (let* t2 := split_loop hash fuel key t1 in
             let* index := IndexOf hash key t2 in
             let* tar := dir_at index t2 in
             let* tar_bucket := bucket_at tar t2 in
             Ok (set_bucket tar (Bucket_Insert key value tar_bucket).2 t2))
            = Ok t' →
            ∀ k, k ≠ key → content t' k = content t1 k) as Hcont.
  { intros t1 Hwf1.
    destruct (split_loop hash fuel key t1) as [t2| |] eqn:EL; simpl; [|done..].
    destruct (split_loop_WF hash key fuel t1 t2 Hwf1 EL)
      as (Hwf2 & Hbs2 & Hgd2 & p & b & Hp & Hb & Hnf & _).
    pose proof (wf_depth _ Hwf2).
    rewrite IndexOf_Ok by lia. simpl.
    rewrite (dir_at_slot hash key t2 p) by done. simpl.
    unfold bucket_at. rewrite Hb. simpl. intros [= <-] k Hk.
    rewrite content_set_bucket.
    rewrite <-(split_loop_content key fuel t1 t2 Hwf1 EL k).
    destruct (decide _) as [Hkp|_]; [|done].
    rewrite (content_target t2 k p b Hkp Hb). by apply Bucket_Insert_other. }
  unfold Bucket_Find.
  destruct (find_key key (list_ tb)) as [val|] eqn:EF.
  - destruct (Z.eqb_spec val value) as [->|Hne].
    + by intros [= <-].
    + intros Hrun k Hk.
      rewrite (Hcont _ (set_bucket_WF hash t _ tar tb _ Hwf Htar Htb
                          (Bok_weaken _ _ _ _ _ (λ x H, proj1 H)
                             (proj1 (Bucket_Remove_Bok _ _ _ key _ Hbok))))
                 Hrun k Hk).
      rewrite content_set_bucket.
      destruct (decide _) as [Hkp|_]; [|done].
      rewrite (content_target t k tar tb Hkp Htb). by apply Bucket_Remove_other.
  - by apply Hcont.
Qed.

Lemma Remove_content key t found t' :
  WF t → Remove hash key t = Ok (found, t') →
  (found = true ↔ is_Some (content t key)) ∧
  content t' key = None ∧
  (∀ k, k ≠ key → content t' k = content t k) ∧
  dir_ t' = dir_ t ∧ num_buckets_ t' = num_buckets_ t.
Proof.
  intros Hwf. unfold Remove.
  destruct (IndexOf hash key t) as [index| |] eqn:EI; simpl; [|done..].
  pose proof (IndexOf_inv _ _ _ _ EI) as [Hgd ->].
  destruct (dir_at _ t) as [tar| |] eqn:ED; simpl; [|done..].
  pose proof (dir_at_inv _ _ _ ED) as [_ Htar]. fold (slot_of t key) in Htar.
  destruct (bucket_at tar t) as [tb| |] eqn:EB; simpl; [|done..].
  pose proof (bucket_at_inv _ _ _ EB) as Htb.
  destruct (wf_bucket _ Hwf _ _ Htar) as (tb' & Htb' & [Hd Hbok Hsh]).
  rewrite Htb in Htb'. injection Htb' as <-.
  pose proof (Bucket_Remove_Bok _ _ _ key _ Hbok) as [Hrem _].
  pose proof (Bucket_Remove_found key tb) as Hfound.
  pose proof (λ k, Bucket_Remove_other k key tb) as Hother.
  destruct (Bucket_Remove key tb) as [f b']. simpl in *. intros [= <- <-].
  rewrite (content_target t key tar tb Htar Htb).
  split; [done|]. split; [|split; [|done]].
  - rewrite content_set_bucket, decide_True by done.
    apply find_key_None. intros Hin.
    by destruct (bok_keys _ _ _ _ Hrem _ Hin) as [_ ?].
  - intros k Hk. rewrite content_set_bucket.
    destruct (decide _) as [Hkp|_]; [|done].
    rewrite (content_target t k tar tb Hkp Htb). by apply Hother.
Qed.

Lemma Remove_Ok key t :
  WF t → global_depth_ t < 31 → ∃ found t', Remove hash key t = Ok (found, t').
Proof.
  intros Hwf Hgd.
  destruct (target_read hash t key Hwf Hgd) as (p & b & _ & _ & _ & HI & HD & HB).
  unfold Remove. rewrite HI. simpl. rewrite HD. simpl. rewrite HB. simpl.
  destruct (Bucket_Remove key b) as [f b']. eauto.
Qed.

(** X8: [Insert(key, value)], whenever it returns and whatever splits it
    makes, leaves [key] bound to [value] and every other key found with
    the value it had. *)
Theorem Insert_keeps_other_keys bs fuel cs t fuel' key value t' :
  0 ≤ bs →
  run hash fuel cs (ExtendibleHashTable bs) = Ok t →
  Insert hash fuel' key value t = Ok t' →
  Find hash key t' = Ok (Some value) ∧
  ∀ k, k ≠ key → Find hash k t' = Find hash k t.
Proof.
  intros Hbs Hrun Hins.
  destruct (run_WF hash _ _ _ _ Hbs Hrun) as (Hwf & _ & Hgd).
  destruct (Insert_WF hash _ _ _ _ _ Hwf Hins) as (Hwf' & _ & Hgd' & Hfind).
  split; [done|]. intros k Hk.
  rewrite !Find_content by done. f_equal. by eapply Insert_content.
Qed.

(** X9: on every table a client can reach, [Remove(key)] returns (no
    undefined behaviour); it returns true exactly when [Find(key)] found
    a value; afterwards [Find(key)] finds nothing, every other key is
    found as before, and the directory, the global depth and the bucket
    count are untouched: buckets are never merged, the directory never
    shrinks. *)
Theorem Remove_erases_key bs fuel cs t key :
  0 ≤ bs →
  run hash fuel cs (ExtendibleHashTable bs) = Ok t →
  ∃ found t',
    Remove hash key t = Ok (found, t') ∧
    (found = true ↔ ∃ v, Find hash key t = Ok (Some v)) ∧
    Find hash key t' = Ok None ∧
    (∀ k, k ≠ key → Find hash k t' = Find hash k t) ∧
    dir_ t' = dir_ t ∧
    GetGlobalDepth t' = GetGlobalDepth t ∧
    GetNumBuckets t' = GetNumBuckets t.
Proof.
  intros Hbs Hrun.
  destruct (run_WF hash _ _ _ _ Hbs Hrun) as (Hwf & _ & Hgd).
  destruct (Remove_Ok key t Hwf Hgd) as (found & t' & Hrem).
  exists found, t'. split; [done|].
  destruct (Remove_WF hash _ _ _ _ Hwf Hrem) as (Hwf' & _ & Hgd').
  destruct (Remove_content _ _ _ _ Hwf Hrem) as (Hf & Hnone & Hother & Hdir & Hnum).
  assert (global_depth_ t' < 31) as Hgd2 by lia.
  split.
  { rewrite Hf, Find_content by done. split.
    - intros [v Hv]. exists v. by rewrite Hv.
    - intros [v [= Hv]]. by rewrite Hv. }
  split; [by rewrite Find_content, Hnone|].
  split; [|done].
  intros k Hk. rewrite !Find_content by done. f_equal. by apply Hother.
Qed.

(** X10: [Insert] of a pair the table already holds returns at once and
    changes nothing, even when the key's bucket is full. *)
Theorem Insert_present_pair_unchanged bs fuel cs t fuel' key value :
  0 ≤ bs →
  run hash fuel cs (ExtendibleHashTable bs) = Ok t →
  Find hash key t = Ok (Some value) →
  Insert hash fuel' key value t = Ok t.
Proof.
  intros Hbs Hrun.
  destruct (run_WF hash _ _ _ _ Hbs Hrun) as (Hwf & _ & Hgd).
  destruct (target_read hash t key Hwf Hgd)
    as (p & b & _ & _ & [Hd _ _] & HI & HD & HB).
  unfold Find, Insert. rewrite HI. simpl. rewrite HD. simpl. rewrite HB. simpl.
  unfold GetDepth. rewrite shl1_Ok by lia. simpl.
  intros [= ->]. by rewrite Z.eqb_refl.
Qed.

(** X7: the table refines a map.  After any sequence of [Insert] and
    [Remove] calls that return, on a fresh table of capacity [bs ≥ 0],
    [Find(k)] answers, for every key, what the map built by the same
    calls holds for it ([Insert] binds the key, [Remove] unbinds it). *)
Theorem Find_refines_map bs fuel cs t :
  0 ≤ bs →
  run hash fuel cs (ExtendibleHashTable bs) = Ok t →
  ∀ k, Find hash k t = Ok (abstract_map cs !! k).
Proof.
  intros Hbs Hrun.
  assert (∀ cs t0 m0,
            WF t0 → global_depth_ t0 < 31 →
            (∀ k, content t0 k = m0 !! k) →
            run hash fuel cs t0 = Ok t →
            WF t ∧ global_depth_ t < 31 ∧
            ∀ k, content t k = foldl abstract_call m0 cs !! k) as Hgen.
  { clear cs Hrun. induction cs as [|c cs IH]; simpl; intros t0 m0 Hwf Hgd Hm.
    - by intros [= <-].
    - destruct (call hash fuel c t0) as [t1| |] eqn:Ec; simpl; [|done..].
      destruct c as [key value|key]; simpl in Ec.
      + destruct (Insert_WF hash _ _ _ _ _ Hwf Ec) as (Hwf1 & _ & Hgd1 & Hfind).
        apply IH; [done..|]. intros k. cbn [abstract_call].
        destruct (decide (k = key)) as [->|Hk].
        * rewrite lookup_insert_eq. rewrite Find_content in Hfind by done.
          by injection Hfind.
        * rewrite lookup_insert_ne by done. rewrite <-Hm.
          by eapply Insert_content.
      + destruct (Remove hash key t0) as [[f t1']| |] eqn:Er; simpl in Ec; [|done..].
        injection Ec as <-.
        destruct (Remove_WF hash _ _ _ _ Hwf Er) as (Hwf1 & _ & Hgd1).
        destruct (Remove_content _ _ _ _ Hwf Er) as (_ & Hnone & Hother & _).
        apply IH; [done|lia|]. intros k. cbn [abstract_call].
        destruct (decide (k = key)) as [->|Hk].
        * by rewrite lookup_delete_eq.
        * rewrite lookup_delete_ne by done. rewrite <-Hm. by apply Hother. }
  destruct (Hgen cs (ExtendibleHashTable bs) ∅ (WF_init hash bs Hbs)
              ltac:(simpl; lia) (content_init bs) Hrun) as (Hwf & Hgd & Hc).
  intros k. rewrite Find_content by done. f_equal. apply Hc.
Qed.

End Content.

(** ** The directory covers each bucket's slots *)

Lemma testbit_low a d : 0 ≤ d → Z.testbit (a mod 2 ^ d) d = false.
Proof. intros. apply Z.mod_pow2_bits_high. lia. Qed.

Lemma testbit_high a d : 0 ≤ d → Z.testbit (a mod 2 ^ d + 2 ^ d) d = true.
Proof.
  intros Hd. apply Z.testbit_true; [done|].
  pose proof (mod_pow2_range a d Hd).
  replace (a mod 2 ^ d + 2 ^ d) with (a mod 2 ^ d + 1 * 2 ^ d) by lia.
  rewrite Z.div_add by lia. by rewrite Z.div_small by lia.
Qed.

Lemma mod_add_pow2 a d : 0 ≤ d → (a mod 2 ^ d + 2 ^ d) mod 2 ^ d = a mod 2 ^ d.
Proof.
  intros Hd.
  replace (a mod 2 ^ d + 2 ^ d) with (a mod 2 ^ d + 1 * 2 ^ d) by lia.
  rewrite Z_mod_plus_full. apply Z.mod_mod. lia.
Qed.

Lemma Bucket_Insert_depth key value b :
  depth_ (Bucket_Insert key value b).2 = depth_ b.
Proof.
  unfold Bucket_Insert. destruct (assign_key _ _ _); [done|].
  by destruct (IsFull b).
Qed.

Lemma Bucket_Remove_depth key b : depth_ (Bucket_Remove key b).2 = depth_ b.
Proof. unfold Bucket_Remove. by destruct (Bucket_Find key b). Qed.

Lemma Covered_init bs : Covered (ExtendibleHashTable bs).
Proof.
  split.
  - unfold buckets, ExtendibleHashTable. cbn [dir_ num_buckets_].
    change (list_to_set [0%nat]) with ({[0%nat]} ∪ (∅ : gset nat)).
    by rewrite union_empty_r_L, size_singleton.
  - simpl. intros i j p b Hi _ Hj _.
    destruct i; [|done]. destruct j; [done|]. lia.
Qed.

Lemma set_bucket_Covered t p b b' :
  heap_ t !! p = Some b → depth_ b' = depth_ b →
  Covered t → Covered (set_bucket p b' t).
Proof.
  intros Hb Hd [Hc Hs]. split; [done|]. simpl.
  intros i j q bq Hi Hq Hj Hm.
  destruct (decide (q = p)) as [->|Hne].
  - rewrite lookup_insert_eq in Hq. injection Hq as <-.
    rewrite Hd in Hm. by eapply Hs.
  - rewrite lookup_insert_ne in Hq by done. by eapply Hs.
Qed.

Lemma size_replace_one (X : gset nat) tar p0 p1 :
  tar ∈ X → p0 ∉ X → p1 ∉ X → p0 ≠ p1 →
  size (X ∖ {[tar]} ∪ {[p0; p1]}) = S (size X).
Proof.
  intros Htar Hp0 Hp1 Hne.
  assert ({[tar]} ⊆ X) as Hsub by (by apply singleton_subseteq_l).
  assert (X ∖ {[tar]} ## {[p0; p1]}) as Hdis.
  { intros q [Hq _]%elem_of_difference [Hq'|Hq']%elem_of_union;
      apply elem_of_singleton in Hq'; by subst q. }
  assert (({[p0]} : gset nat) ## {[p1]}) as Hdis2.
  { intros q Hq Hq'. apply elem_of_singleton in Hq, Hq'. congruence. }
  rewrite size_union by done.
  rewrite size_difference by done.
  rewrite size_union by done. rewrite !size_singleton.
  assert (size X ≠ 0%nat); [|lia].
  intros Hz%size_empty_inv. apply (Hz tar) in Htar. by apply elem_of_empty in Htar.
Qed.

Section Cover.
Variable hash : Z → Z.
Local Abbreviation slot_of := (EHT.slot_of hash).
Local Abbreviation WF := (EHT.WF hash).
Local Abbreviation wf_bucket := (EHT.wf_bucket hash).
Local Abbreviation wf_depth := (EHT.wf_depth hash).

Lemma split_Covered key t t' :
  WF t → Covered t → split hash key t = Ok t' →
  Covered t' ∧ num_buckets_ t' = num_buckets_ t + 1 ∧
  global_depth_ t ≤ global_depth_ t' ≤ global_depth_ t + 1.
Proof.
  intros Hwf [Hcount Hcov]. unfold split.
  destruct (IndexOf hash key t) as [index| |] eqn:EI; simpl; [|done..].
  apply IndexOf_inv in EI as [Hgd ->].
  destruct (dir_at _ t) as [tar| |] eqn:ED; simpl; [|done..].
  apply dir_at_inv in ED as [_ Htar]. fold (slot_of t key) in Htar.
  destruct (bucket_at tar t) as [tb| |] eqn:EB; simpl; [|done..].
  apply bucket_at_inv in EB. unfold GetDepth, GetItems.
  destruct (shl1 (depth_ tb)) as [mask| |] eqn:ES; simpl; [|done..].
  apply shl1_inv in ES as [Hd ->].
  destruct (rehash hash (2 ^ depth_ tb) (list_ tb) _ _) as [b0 b1] eqn:ER.
  intros [= <-].
  pose proof Hwf as [Hg Hlen Hfresh Hbuckets].
  destruct (Hbuckets _ _ Htar) as (tb' & Htb' & [Htd [_ _ Htl Htn Hth] Hts]).
  rewrite EB in Htb'. injection Htb' as <-.
  set (d := depth_ tb) in *. set (gd := global_depth_ t) in *.
  set (doubled := d =? gd).
  set (gd' := if doubled then gd + 1 else gd).
  set (dir' := if doubled then dir_ t ++ dir_ t else dir_ t).
  destruct (grow_lookup (dir_ t) gd doubled Hg Hlen) as (Hlen' & HD & HD').
  fold gd' dir' in Hlen', HD, HD'.
  assert (0 ≤ bucket_size_ t) as Hbs by lia.
  destruct (rehash_split hash _ _ _ _ _ (proj1 Hd) Hbs Htn ER) as [Hb0 Hb1].
  assert (d + 1 ≤ gd' ∧ gd ≤ gd' ≤ gd + 1) as [Hdg Hgg].
  { subst gd' doubled. destruct (Z.eqb_spec d gd); lia. }
  set (p0 := next_ t) in *. set (p1 := S (next_ t)) in *.
  set (heap' := <[p1 := b1]> (<[p0 := b0]> (heap_ t))).
  assert (heap' !! p0 = Some b0) as Hh0.
  { subst heap'. rewrite lookup_insert_ne by (subst p0 p1; lia).
    by rewrite lookup_insert_eq. }
  assert (heap' !! p1 = Some b1) as Hh1.
  { subst heap'. by rewrite lookup_insert_eq. }
  assert (∀ p, p ∈ dir_ t → heap' !! p = heap_ t !! p) as Hhold.
  { intros p Hp%Hfresh. subst heap'.
    rewrite !lookup_insert_ne by (subst p0 p1; lia). done. }
  assert (∀ j : nat, (j < length dir')%nat →
            Z.to_nat (Z.of_nat j mod 2 ^ gd') = j) as Hsmall.
  { intros j Hj. rewrite Z.mod_small by lia. lia. }
  (* the doubled directory still covers *)
  assert (∀ i j p b, dir' !! i = Some p → heap_ t !! p = Some b →
            (j < length dir')%nat →
            Z.of_nat j mod 2 ^ depth_ b = Z.of_nat i mod 2 ^ depth_ b →
            dir' !! j = Some p) as Hcov'.
  { intros i j p b Hi Hb Hj Hm.
    destruct (HD _ _ Hi) as (i0 & Hi0 & Hi0m).
    destruct (Hbuckets _ _ Hi0) as (b' & Hb' & [Hbd _ _]).
    rewrite Hb in Hb'. injection Hb' as <-.
    rewrite <-(Hsmall j Hj). apply HD'.
    pose proof (mod_pow2_range (Z.of_nat j) gd Hg).
    apply (Hcov i0 _ p b); [done|done|lia|].
    rewrite Z2Nat.id by lia. rewrite mod_mod_pow2 by lia.
    rewrite Hm. symmetry. by apply (mod_pow2_le _ _ _ gd). }
  assert (dir' !! slot_of t key = Some tar) as Htar'.
  { pose proof (lookup_lt_Some _ _ _ Htar) as Hlt.
    assert (length (dir_ t) ≤ length dir')%nat.
    { subst dir'. destruct doubled; [rewrite length_app|]; lia. }
    rewrite <-(Hsmall (slot_of t key)) by lia.
    apply HD'. rewrite Z.mod_small by lia. by rewrite Nat2Z.id. }
  set (s := Z.of_nat (slot_of t key)) in *.
  pose proof (mod_pow2_range s d ltac:(lia)) as Hsd.
  assert (2 ^ (d + 1) ≤ 2 ^ gd') as Hpow by (apply Z.pow_le_mono_r; lia).
  rewrite pow2_succ in Hpow by lia.
  assert (dir' !! Z.to_nat (s mod 2 ^ d) = Some tar) as Hj0.
  { apply (Hcov' (slot_of t key) _ tar tb); [done|done|lia|].
    rewrite Z2Nat.id by lia. fold d. apply Z.mod_mod. lia. }
  assert (dir' !! Z.to_nat (s mod 2 ^ d + 2 ^ d) = Some tar) as Hj1.
  { apply (Hcov' (slot_of t key) _ tar tb); [done|done|lia|].
    rewrite Z2Nat.id by lia. fold d. apply mod_add_pow2. lia. }
  split; [|by split].
  split; cbn [num_buckets_ dir_ heap_].
  - (* the count *)
    unfold buckets. cbn [dir_]. fold (buckets t). fold p1.
    match goal with
    | |- context [size ?X] =>
        assert (X = buckets t ∖ {[tar]} ∪ {[p0; p1]}) as ->
    end.
    { unfold buckets. apply set_eq. intros q.
      rewrite elem_of_union, elem_of_difference, !elem_of_list_to_set.
      rewrite elem_of_union, !elem_of_singleton.
      rewrite !list_elem_of_lookup. split.
      - intros (j & (p & Hp & ->)%redirect_lookup); [|lia].
        destruct (bool_decide_reflect (p = tar)) as [->|Hne].
        + right. destruct (Z.testbit _ _); tauto.
        + left. split; [|done]. destruct (HD _ _ Hp) as (j0 & ? & _). eauto.
      - intros [[(j & Hj) Hne]|[->| ->]].
        + exists (Z.to_nat (Z.of_nat j mod 2 ^ gd')).
          apply redirect_lookup; [lia|]. exists q. split.
          * apply HD'. pose proof (lookup_lt_Some _ _ _ Hj).
            rewrite Z.mod_small by lia. by rewrite Nat2Z.id.
          * by rewrite bool_decide_eq_false_2.
        + exists (Z.to_nat (s mod 2 ^ d)).
          apply redirect_lookup; [lia|]. exists tar. split; [done|].
          rewrite bool_decide_eq_true_2 by done.
          rewrite Z2Nat.id by lia. by rewrite testbit_low by lia.
        + exists (Z.to_nat (s mod 2 ^ d + 2 ^ d)).
          apply redirect_lookup; [lia|]. exists tar. split; [done|].
          rewrite bool_decide_eq_true_2 by done.
          rewrite Z2Nat.id by lia. by rewrite testbit_high by lia. }
    rewrite size_replace_one.
    + rewrite Hcount. lia.
    + unfold buckets. rewrite elem_of_list_to_set. by eapply list_elem_of_lookup_2.
    + unfold buckets. rewrite elem_of_list_to_set. intros H%Hfresh. subst p0. lia.
    + unfold buckets. rewrite elem_of_list_to_set. intros H%Hfresh. subst p1. lia.
    + subst p0 p1. lia.
  - (* the slots *)
    intros i j q bq (p & Hp & ->)%redirect_lookup Hbq Hj Hm; [|lia].
    unfold redirect in Hj. rewrite length_imap in Hj.
    apply redirect_lookup; [lia|].
    destruct (bool_decide_reflect (p = tar)) as [->|Hne].
    + exists tar.
      assert (depth_ bq = d + 1) as Hdq.
      { revert Hbq.
        destruct (Z.testbit (Z.of_nat i) d); intros Hbq.
        - assert (Some b1 = Some bq) as [= <-] by (rewrite <-Hh1; exact Hbq).
          apply Hb1.
        - assert (Some b0 = Some bq) as [= <-] by (rewrite <-Hh0; exact Hbq).
          apply Hb0. }
      rewrite Hdq in Hm.
      split.
      * apply (Hcov' i j tar tb); [done..|].
        fold d. by apply (mod_pow2_le _ _ _ (d + 1)); [lia|].
      * rewrite bool_decide_eq_true_2 by done.
        pose proof (proj1 (mod_pow2_eq_iff (d + 1) _ _ ltac:(lia)) Hm) as Hbits.
        by rewrite (Hbits d) by lia.
    + exists p. rewrite bool_decide_eq_false_2 by done. split; [|done].
      destruct (HD _ _ Hp) as (i0 & Hi0 & _).
      apply (Hcov' i j p bq); [done| |done..].
      rewrite <-Hhold; [exact Hbq|]. by eapply list_elem_of_lookup_2.
Qed.

Lemma split_loop_Covered key fuel :
  ∀ t t', WF t → Covered t → split_loop hash fuel key t = Ok t' →
          Covered t' ∧ num_buckets_ t ≤ num_buckets_ t' ∧
          global_depth_ t ≤ global_depth_ t'.
Proof.
  induction fuel as [|fuel IH]; intros t t' Hwf Hcov;
    rewrite split_loop_unfold;
    (destruct (IndexOf hash key t) as [index| |]; simpl; [|done..]);
    (destruct (dir_at _ t) as [p| |]; simpl; [|done..]);
    (destruct (bucket_at p t) as [b| |]; simpl; [|done..]);
    (destruct (IsFull b); [|intros [= <-]; split; [done|lia]]).
  - done.
  - destruct (split hash key t) as [t1| |] eqn:ES; simpl; [|done..].
    intros Hloop.
    destruct (split_WF hash key t t1 Hwf ES) as (Hwf1 & _).
    destruct (split_Covered key t t1 Hwf Hcov ES) as (Hcov1 & Hn1 & Hg1).
    destruct (IH t1 t' Hwf1 Hcov1 Hloop) as (Hcov' & Hn' & Hg').
    split; [done|lia].
Qed.

Lemma Insert_Covered fuel key value t t' :
  WF t → Covered t → Insert hash fuel key value t = Ok t' →
  Covered t' ∧ num_buckets_ t ≤ num_buckets_ t' ∧
  global_depth_ t ≤ global_depth_ t'.
Proof.
  intros Hwf Hcov. unfold Insert.
  destruct (IndexOf hash key t) as [index| |] eqn:EI; simpl; [|done..].
  pose proof (IndexOf_inv _ _ _ _ EI) as [Hgd ->].
  destruct (dir_at _ t) as [tar| |] eqn:ED; simpl; [|done..].
  pose proof (dir_at_inv _ _ _ ED) as [_ Htar]. fold (slot_of t key) in Htar.
  destruct (bucket_at tar t) as [tb| |] eqn:EB; simpl; [|done..].
  pose proof (bucket_at_inv _ _ _ EB) as Htb.
  destruct (shl1 (GetDepth tb)) as [mask| |]; simpl; [|done..].
  destruct (wf_bucket _ Hwf _ _ Htar) as (tb' & Htb' & [Hd Hbok Hsh]).
  rewrite Htb in Htb'. injection Htb' as <-.
  assert (∀ t1, WF t1 → Covered t1 →
            (let* t2 := split_loop hash fuel key t1 in
             let* index := IndexOf hash key t2 in
             let* tar := dir_at index t2 in
             let* tar_bucket := bucket_at tar t2 in
             Ok (set_bucket tar (Bucket_Insert key value tar_bucket).2 t2))
            = Ok t' →
            Covered t' ∧ num_buckets_ t1 ≤ num_buckets_ t' ∧
            global_depth_ t1 ≤ global_depth_ t') as Hcont.
  { intros t1 Hwf1 Hcov1.
    destruct (split_loop hash fuel key t1) as [t2| |] eqn:EL; simpl; [|done..].
    destruct (split_loop_WF hash key fuel t1 t2 Hwf1 EL)
      as (Hwf2 & Hbs2 & Hgd2 & p & b & Hp & Hb & Hnf & _).
    destruct (split_loop_Covered key fuel t1 t2 Hwf1 Hcov1 EL) as (Hcov2 & Hn2 & Hg2).
    pose proof (wf_depth _ Hwf2).
    rewrite IndexOf_Ok by lia. simpl.
    rewrite (dir_at_slot hash key t2 p) by done. simpl.
    unfold bucket_at. rewrite Hb. simpl. intros [= <-].
    split; [|done].
    eapply set_bucket_Covered; [done| |done]. apply Bucket_Insert_depth. }
  unfold Bucket_Find.
  destruct (find_key key (list_ tb)) as [val|] eqn:EF.
  - destruct (Z.eqb_spec val value) as [->|Hne].
    + intros [= <-]. split; [done|lia].
    + intros Hrun.
      destruct (Hcont (set_bucket tar (Bucket_Remove key tb).2 t)) as (? & ? & ?);
        [| |exact Hrun|by split].
      * eapply set_bucket_WF; [done..|].
        eapply Bok_weaken; [|apply Bucket_Remove_Bok, Hbok]. by intros x [? _].
      * eapply set_bucket_Covered; [done| |done]. apply Bucket_Remove_depth.
  - by apply Hcont.
Qed.

Lemma Remove_Covered key t found t' :
  WF t → Covered t → Remove hash key t = Ok (found, t') → Covered t'.
Proof.
  intros Hwf Hcov. unfold Remove.
  destruct (IndexOf hash key t) as [index| |] eqn:EI; simpl; [|done..].
  destruct (dir_at _ t) as [tar| |] eqn:ED; simpl; [|done..].
  destruct (bucket_at tar t) as [tb| |] eqn:EB; simpl; [|done..].
  pose proof (bucket_at_inv _ _ _ EB) as Htb.
  pose proof (Bucket_Remove_depth key tb) as Hdep.
  destruct (Bucket_Remove key tb) as [f b']. simpl in *. intros [= <- <-].
  by eapply set_bucket_Covered.
Qed.

Lemma run_Covered bs fuel cs t :
  0 ≤ bs → run hash fuel cs (ExtendibleHashTable bs) = Ok t → Covered t.
Proof.
  intros Hbs.
  assert (∀ t0, WF t0 → Covered t0 → run hash fuel cs t0 = Ok t → Covered t)
    as Hgen.
  { induction cs as [|c cs IH]; simpl; intros t0 Hwf Hcov.
    - by intros [= <-].
    - destruct (call hash fuel c t0) as [t1| |] eqn:Ec; simpl; [|done..].
      destruct c as [key value|key]; simpl in Ec.
      + destruct (Insert_WF hash _ _ _ _ _ Hwf Ec) as (Hwf1 & _).
        destruct (Insert_Covered _ _ _ _ _ Hwf Hcov Ec) as (Hcov1 & _).
        by apply IH.
      + destruct (Remove hash key t0) as [[f t1']| |] eqn:Er; simpl in Ec; [|done..].
        injection Ec as <-.
        destruct (Remove_WF hash _ _ _ _ Hwf Er) as (Hwf1 & _).
        apply IH; [done|]. exact (Remove_Covered _ _ _ _ Hwf Hcov Er). }
  apply Hgen; [by apply WF_init|apply Covered_init].
Qed.

(** X11: on every table a client can reach, [GetNumBuckets()] is the
    number of distinct buckets the directory slots point to. *)
Theorem GetNumBuckets_counts_buckets bs fuel cs t :
  0 ≤ bs →
  run hash fuel cs (ExtendibleHashTable bs) = Ok t →
  GetNumBuckets t = Z.of_nat (size (buckets t)) ∧
  ∀ p, p ∈ buckets t ↔ ∃ i, 0 ≤ i ∧ dir_at i t = Ok p.
Proof.
  intros Hbs Hrun. split; [by apply (run_Covered bs fuel cs)|].
  intros p. unfold buckets. rewrite elem_of_list_to_set, list_elem_of_lookup.
  split.
  - intros [i Hi]. exists (Z.of_nat i). split; [lia|].
    unfold dir_at. destruct (Z.ltb_spec (Z.of_nat i) 0); [lia|].
    by rewrite Nat2Z.id, Hi.
  - intros (i & Hi0 & Hi). apply dir_at_inv in Hi as [_ Hi]. eauto.
Qed.

(** X13: [Insert], whenever it returns, never lowers the bucket count or
    the global depth and never shortens the directory. *)
Theorem Insert_never_shrinks bs fuel cs t fuel' key value t' :
  0 ≤ bs →
  run hash fuel cs (ExtendibleHashTable bs) = Ok t →
  Insert hash fuel' key value t = Ok t' →
  GetNumBuckets t ≤ GetNumBuckets t' ∧
  GetGlobalDepth t ≤ GetGlobalDepth t' ∧
  (length (dir_ t) ≤ length (dir_ t'))%nat.
Proof.
  intros Hbs Hrun Hins.
  destruct (run_WF hash _ _ _ _ Hbs Hrun) as (Hwf & _ & Hgd).
  pose proof (run_Covered _ _ _ _ Hbs Hrun) as Hcov.
  destruct (Insert_WF hash _ _ _ _ _ Hwf Hins) as (Hwf' & _).
  destruct (Insert_Covered _ _ _ _ _ Hwf Hcov Hins) as (_ & Hn & Hg).
  split; [done|]. split; [done|].
  pose proof (wf_length _ _ Hwf) as Hl. pose proof (wf_length _ _ Hwf') as Hl'.
  pose proof (wf_depth _ Hwf).
  assert (2 ^ global_depth_ t ≤ 2 ^ global_depth_ t')
    by (apply Z.pow_le_mono_r; lia).
  lia.
Qed.

(** X12: the shape of every table a client can reach.  The global depth
    is between 0 and 30 and the directory has [2^global_depth] slots; for
    every slot [i], [GetLocalDepth(i)] is defined and at most the global
    depth, the slot's bucket holds at most [bs] pairs, every key in it
    agrees with [i] on the low local-depth bits of its hash, and the
    slots that share this bucket are exactly those that agree with [i] on
    the low local-depth bits. *)
Theorem directory_shape bs fuel cs t :
  0 ≤ bs →
  run hash fuel cs (ExtendibleHashTable bs) = Ok t →
  0 ≤ GetGlobalDepth t ≤ 30 ∧
  Z.of_nat (length (dir_ t)) = 2 ^ GetGlobalDepth t ∧
  ∀ i, 0 ≤ i < 2 ^ GetGlobalDepth t →
    ∃ p b, dir_at i t = Ok p ∧ bucket_at p t = Ok b ∧
      GetLocalDepth i t = Ok (depth_ b) ∧
      0 ≤ depth_ b ≤ GetGlobalDepth t ∧
      Z.of_nat (length (list_ b)) ≤ bs ∧
      (∀ x, x ∈ (list_ b).*1 →
            hash x mod 2 ^ depth_ b = i mod 2 ^ depth_ b) ∧
      ∀ j, 0 ≤ j < 2 ^ GetGlobalDepth t →
           (dir_at j t = Ok p ↔ j mod 2 ^ depth_ b = i mod 2 ^ depth_ b).
Proof.
  intros Hbs Hrun. unfold GetGlobalDepth.
  destruct (run_WF hash _ _ _ _ Hbs Hrun) as (Hwf & Hsize & Hgd).
  pose proof (run_Covered _ _ _ _ Hbs Hrun) as [_ Hcov].
  pose proof Hwf as [Hg Hlen Hfresh Hbuckets].
  split; [lia|]. split; [done|]. intros i Hi.
  destruct (lookup_lt_is_Some_2 (dir_ t) (Z.to_nat i)) as [p Hp]; [lia|].
  destruct (Hbuckets _ _ Hp) as (b & Hb & [Hd [Hbsz _ Hbl _ Hbk] Hsh]).
  assert (∀ j q, 0 ≤ j → dir_at j t = Ok q ↔ dir_ t !! Z.to_nat j = Some q)
    as Hat.
  { intros j q Hj. unfold dir_at. destruct (Z.ltb_spec j 0); [lia|].
    destruct (dir_ t !! Z.to_nat j); split; congruence. }
  exists p, b. split; [by apply Hat; [lia|]|].
  assert (bucket_at p t = Ok b) as Hbat by (unfold bucket_at; by rewrite Hb).
  split; [done|]. split.
  { unfold GetLocalDepth. rewrite (proj2 (Hat i p ltac:(lia)) Hp). simpl.
    by rewrite Hbat. }
  split; [done|]. split; [lia|]. split.
  - intros x Hx. pose proof (Hsh _ (Hbk x Hx)) as Hm.
    unfold EHT.slot_of in Hm.
    rewrite !Z2Nat.id in Hm by (lia || apply mod_pow2_range; lia).
    by rewrite mod_mod_pow2 in Hm by lia.
  - intros j Hj. rewrite Hat by lia. split.
    + intros Hjp. pose proof (Hsh _ Hjp) as Hm.
      by rewrite !Z2Nat.id in Hm by lia.
    + intros Hm. apply (Hcov (Z.to_nat i) _ p b); [done|done|lia|].
      by rewrite !Z2Nat.id by lia.
Qed.

End Cover.

Lemma Insert_keeps_other_keys_witness :
  Find hash_int 2 demo_split_table = Ok (Some 102) ∧
  ∀ k, k ≠ 2 → Find hash_int k demo_split_table = Find hash_int k demo_table.
Proof.
  apply (Insert_keeps_other_keys hash_int 2 0 demo_calls demo_table 30 2 102).
  - lia.
  - reflexivity.
  - reflexivity.
Defined.

Lemma Remove_erases_key_witness :
  ∃ found t',
    Remove hash_int 0 demo_split_table = Ok (found, t') ∧
    (found = true ↔ ∃ v, Find hash_int 0 demo_split_table = Ok (Some v)) ∧
    Find hash_int 0 t' = Ok None ∧
    (∀ k, k ≠ 0 → Find hash_int k t' = Find hash_int k demo_split_table) ∧
    dir_ t' = dir_ demo_split_table ∧
    GetGlobalDepth t' = GetGlobalDepth demo_split_table ∧
    GetNumBuckets t' = GetNumBuckets demo_split_table.
Proof.
  apply (Remove_erases_key hash_int 2 30
           (demo_calls ++ [CInsert 2 102]) demo_split_table 0).
  - lia.
  - reflexivity.
Defined.

Lemma Insert_present_pair_unchanged_witness :
  Insert hash_int 0 0 100 demo_table = Ok demo_table.
Proof.
  apply (Insert_present_pair_unchanged hash_int 2 0 demo_calls demo_table 0 0 100).
  - lia.
  - reflexivity.
  - reflexivity.
Defined.

Lemma Find_refines_map_witness :
  run hash_int 30 (demo_calls ++ [CInsert 2 102]) (ExtendibleHashTable 2)
  = Ok demo_split_table ∧
  ∀ k, Find hash_int k demo_split_table
       = Ok (abstract_map (demo_calls ++ [CInsert 2 102]) !! k).
Proof.
  split; [reflexivity|].
  apply (Find_refines_map hash_int 2 30
           (demo_calls ++ [CInsert 2 102]) demo_split_table).
  - lia.
  - reflexivity.
Defined.

Lemma GetNumBuckets_counts_buckets_witness :
  GetNumBuckets demo_split_table = Z.of_nat (size (buckets demo_split_table)) ∧
  ∀ p, p ∈ buckets demo_split_table ↔
       ∃ i, 0 ≤ i ∧ dir_at i demo_split_table = Ok p.
Proof.
  apply (GetNumBuckets_counts_buckets hash_int 2 30
           (demo_calls ++ [CInsert 2 102]) demo_split_table).
  - lia.
  - reflexivity.
Defined.

Lemma Insert_never_shrinks_witness :
  GetNumBuckets demo_table ≤ GetNumBuckets demo_split_table ∧
  GetGlobalDepth demo_table ≤ GetGlobalDepth demo_split_table ∧
  (length (dir_ demo_table) ≤ length (dir_ demo_split_table))%nat.
Proof.
  apply (Insert_never_shrinks hash_int 2 0 demo_calls demo_table 30 2 102).
  - lia.
  - reflexivity.
  - reflexivity.
Defined.

Lemma directory_shape_witness :
  0 ≤ GetGlobalDepth demo_split_table ≤ 30 ∧
  Z.of_nat (length (dir_ demo_split_table))
  = 2 ^ GetGlobalDepth demo_split_table ∧
  ∀ i, 0 ≤ i < 2 ^ GetGlobalDepth demo_split_table →
    ∃ p b, dir_at i demo_split_table = Ok p ∧
      bucket_at p demo_split_table = Ok b ∧
      GetLocalDepth i demo_split_table = Ok (depth_ b) ∧
      0 ≤ depth_ b ≤ GetGlobalDepth demo_split_table ∧
      Z.of_nat (length (list_ b)) ≤ 2 ∧
      (∀ x, x ∈ (list_ b).*1 →
            hash_int x mod 2 ^ depth_ b = i mod 2 ^ depth_ b) ∧
      ∀ j, 0 ≤ j < 2 ^ GetGlobalDepth demo_split_table →
           (dir_at j demo_split_table = Ok p
            ↔ j mod 2 ^ depth_ b = i mod 2 ^ depth_ b).
Proof.
  apply (directory_shape hash_int 2 30
           (demo_calls ++ [CInsert 2 102]) demo_split_table).
  - lia.
  - reflexivity.
Defined.

(** ** When the split loop ends *)

Lemma filter_all {A} (P : A → Prop) `{!∀ x, Decision (P x)} (l : list A) :
  (∀ x, x ∈ l → P x) → filter P l = l.
Proof.
  induction l as [|x l IH]; [done|]. intros Hall.
  rewrite filter_cons_True by (apply Hall; by left).
  f_equal. apply IH. intros y Hy. apply Hall. by right.
Qed.

Section Completion.
Variable hash : Z → Z.
Local Abbreviation slot_of := (EHT.slot_of hash).
Local Abbreviation WF := (EHT.WF hash).
Local Abbreviation target_items := (EHT.target_items hash).
Local Abbreviation has_room := (EHT.has_room hash).
Local Abbreviation wf_bucket := (EHT.wf_bucket hash).
Local Abbreviation wf_depth := (EHT.wf_depth hash).

(** The keys that stay with [key] when a bucket of depth [d] splits. *)
Local Abbreviation stays key d :=
  (λ kv : Z * Z, Z.testbit (hash kv.1) d = Z.testbit (hash key) d).

(** After a split the key's bucket holds the pairs of the old one that
    agree with the key on the bit split upon. *)
Lemma split_target key t t1 :
  WF t → split hash key t = Ok t1 →
  ∃ p b,
    dir_ t !! slot_of t key = Some p ∧ heap_ t !! p = Some b ∧
    WF t1 ∧ bucket_size_ t1 = bucket_size_ t ∧
    num_buckets_ t1 = num_buckets_ t + 1 ∧
    global_depth_ t1 = (if depth_ b =? global_depth_ t
                        then global_depth_ t + 1 else global_depth_ t) ∧
    ∃ p1 b1,
      dir_ t1 !! slot_of t1 key = Some p1 ∧ heap_ t1 !! p1 = Some b1 ∧
      size_ b1 = bucket_size_ t ∧ depth_ b1 = depth_ b + 1 ∧
      list_ b1 = filter (stays key (depth_ b)) (list_ b).
Proof.
  intros Hwf Hs.
  destruct (split_WF hash key t t1 Hwf Hs)
    as (Hwf1 & Hbs1 & p & b & p1 & b1 & Hp & Hb & Hp1 & Hb1 & Hd31 & Hd1 & Hgd1
        & _ & Hb1').
  exists p, b. split; [done|]. split; [done|]. split; [done|]. split; [done|].
  destruct (wf_bucket _ Hwf _ _ Hp) as (b' & Hb' & [Hd [Hsz _ Hlen Hnd _] _]).
  rewrite Hb in Hb'. injection Hb' as <-.
  split.
  { revert Hs. unfold split.
    destruct (IndexOf hash key t) as [index| |]; simpl; [|done..].
    destruct (dir_at _ t) as [tar| |]; simpl; [|done..].
    destruct (bucket_at tar t) as [tb| |]; simpl; [|done..].
    destruct (shl1 _) as [mask| |]; simpl; [|done..].
    destruct (rehash hash mask _ _ _). intros [= Heq]. by rewrite <-Heq. }
  split; [done|]. exists p1, b1. split; [done|]. split; [done|].
  cbv zeta in Hb1'. rewrite rehash_exact in Hb1'; simpl; [|done| |lia..].
  2:{ intros x _. split; apply not_elem_of_nil. }
  simpl in Hb1'.
  destruct (Z.testbit (hash key) (depth_ b)) eqn:Ebit; subst b1; simpl;
    (split; [done|]); (split; [done|]);
    apply list_filter_iff; intros [x v]; simpl;
    pose proof (land_pow2_eqb (hash x) (depth_ b) ltac:(lia)) as Hl;
    destruct (Z.testbit (hash x) (depth_ b));
    destruct (Z.eqb_spec (Z.land (hash x) (2 ^ depth_ b)) 0);
    simpl in Hl; split; congruence.
Qed.

(** Keys of one bucket agree on the hash bits below its depth. *)
Lemma bucket_keys_agree t key p b x :
  WF t → dir_ t !! slot_of t key = Some p → heap_ t !! p = Some b →
  x ∈ (list_ b).*1 →
  hash x mod 2 ^ depth_ b = hash key mod 2 ^ depth_ b.
Proof.
  intros Hwf Hp Hb Hx. pose proof (wf_depth _ Hwf).
  destruct (wf_bucket _ Hwf _ _ Hp) as (b' & Hb' & [Hd [_ _ _ _ Hhome] Hsh]).
  rewrite Hb in Hb'. injection Hb' as <-.
  pose proof (Hsh _ (Hhome x Hx)) as Hagree.
  unfold EHT.slot_of in Hagree.
  rewrite !Z2Nat.id in Hagree by (apply mod_pow2_range; lia).
  by rewrite !mod_mod_pow2 in Hagree by lia.
Qed.

Lemma IsFull_length b : IsFull b = true ↔ Z.of_nat (length (list_ b)) = size_ b.
Proof. unfold IsFull. apply Z.eqb_eq. Qed.

(** The loop ends within [m] passes when the key's bucket has room, or
    holds a key that parts from [key] within the low 30 hash bits and
    its depth is within [m] of 30. *)
Lemma split_loop_room key m :
  ∀ fuel t,
    WF t → global_depth_ t ≤ 30 →
    (∀ p b, dir_ t !! slot_of t key = Some p → heap_ t !! p = Some b →
            IsFull b = false ∨
            (30 - depth_ b ≤ Z.of_nat m ∧
             ∃ x, x ∈ (list_ b).*1 ∧
                  hash x mod 2 ^ 30 ≠ hash key mod 2 ^ 30)) →
    (m ≤ fuel)%nat →
    ∃ t', split_loop hash fuel key t = Ok t' ∧
          global_depth_ t' ≤ 30 ∧
          num_buckets_ t ≤ num_buckets_ t' ≤ num_buckets_ t + Z.of_nat m.
Proof.
  induction m as [|m IH]; intros fuel t Hwf Hgd Htar Hfuel;
    rewrite split_loop_unfold;
    destruct (target_read hash t key Hwf ltac:(lia))
      as (p & b & Hp & Hb & [Hd [Hsz _ Hlen Hnd Hhome] Hsh] & -> & HD & HB);
    simpl; rewrite HD; simpl; rewrite HB; simpl;
    (destruct (IsFull b) eqn:Ef; [|exists t; split; [done|]; lia]);
    (destruct (Htar p b Hp Hb) as [|(Hm & x & Hx & Hcol)]; [congruence|]);
    pose proof (bucket_keys_agree t key p b x Hwf Hp Hb Hx) as Hagree;
    assert (depth_ b < 30) as Hd30
      by (destruct (Z.lt_ge_cases (depth_ b) 30) as [|Hge]; [done|];
          destruct Hcol; by apply (mod_pow2_le _ _ 30 (depth_ b)));
    [lia|].
  destruct fuel as [|fuel]; [lia|].
  destruct (split_Ok hash key t Hwf ltac:(lia)) as [t1 Ht1]. rewrite Ht1. simpl.
  destruct (split_target key t t1 Hwf Ht1)
    as (p' & b' & Hp' & Hb' & Hwf1 & Hbs1 & Hnb & Hgd1 & p1 & b1 & Hp1 & Hb1
        & Hsz1 & Hd1 & Hl1).
  rewrite Hp in Hp'. injection Hp' as <-. rewrite Hb in Hb'. injection Hb' as <-.
  destruct (IH fuel t1) as (t' & Ht' & Hgd' & Hnb'); try done.
  - rewrite Hgd1. destruct (Z.eqb_spec (depth_ b) (global_depth_ t)); lia.
  - intros q bq Hq Hbq. rewrite Hp1 in Hq. injection Hq as <-.
    rewrite Hb1 in Hbq. injection Hbq as <-.
    destruct (decide (Z.testbit (hash x) (depth_ b)
                      = Z.testbit (hash key) (depth_ b))) as [Hbit|Hbit].
    + right. split; [lia|]. exists x. split; [|done].
      rewrite Hl1. apply list_elem_of_fmap in Hx as ([x' v] & -> & Hkv).
      apply list_elem_of_fmap. exists (x', v). split; [done|].
      by apply list_elem_of_filter.
    + left. apply IsFull_false. rewrite Hl1, Hsz1.
      apply list_elem_of_fmap in Hx as ([x' v] & -> & Hkv).
      assert (length (filter (stays key (depth_ b)) (list_ b))
              < length (list_ b))%nat; [|lia].
      clear -Hkv Hbit. induction (list_ b) as [|kv l IHl]; [by apply elem_of_nil in Hkv|].
      rewrite filter_cons. apply elem_of_cons in Hkv as [<-|Hkv].
      * rewrite decide_False by done. simpl.
        pose proof (length_filter (stays key (depth_ b)) l). lia.
      * specialize (IHl Hkv). destruct (decide _); simpl; lia.
  - lia.
  - exists t'. split; [done|]. lia.
Qed.

(** The loop never ends normally on a full bucket all of whose keys
    share the low 30 hash bits of [key]: each split leaves them together
    until [1 << 31] is out of range. *)
Lemma split_loop_no_room key fuel :
  ∀ t t',
    WF t → global_depth_ t ≤ 30 →
    (∀ p b, dir_ t !! slot_of t key = Some p → heap_ t !! p = Some b →
            IsFull b = true ∧
            ∀ x, x ∈ (list_ b).*1 →
                 hash x mod 2 ^ 30 = hash key mod 2 ^ 30) →
    split_loop hash fuel key t ≠ Ok t'.
Proof.
  induction fuel as [|fuel IH]; intros t t' Hwf Hgd Htar;
    rewrite split_loop_unfold;
    destruct (target_read hash t key Hwf ltac:(lia))
      as (p & b & Hp & Hb & [Hd [Hsz _ Hlen Hnd Hhome] Hsh] & -> & HD & HB);
    simpl; rewrite HD; simpl; rewrite HB; simpl;
    destruct (Htar p b Hp Hb) as [Hfull Hcol]; rewrite Hfull; [done|].
  destruct (split hash key t) as [t1| |] eqn:Ht1; simpl; [|done..].
  destruct (split_target key t t1 Hwf Ht1)
    as (p' & b' & Hp' & Hb' & Hwf1 & Hbs1 & Hnb & Hgd1 & p1 & b1 & Hp1 & Hb1
        & Hsz1 & Hd1 & Hl1).
  rewrite Hp in Hp'. injection Hp' as <-. rewrite Hb in Hb'. injection Hb' as <-.
  destruct (decide (depth_ b = 30)) as [Hd30|Hd30].
  - assert (global_depth_ t1 = 31) as Hgd31.
    { rewrite Hgd1. destruct (Z.eqb_spec (depth_ b) (global_depth_ t)); lia. }
    rewrite split_loop_unfold. unfold IndexOf. rewrite Hgd31. done.
  - assert (filter (stays key (depth_ b)) (list_ b) = list_ b) as Hsame.
    { apply filter_all. intros [x v] Hkv. simpl.
      assert (x ∈ (list_ b).*1) as Hx by (apply list_elem_of_fmap; by exists (x, v)).
      apply (proj1 (mod_pow2_eq_iff 30 _ _ ltac:(lia)) (Hcol x Hx)). lia. }
    apply IH; [done| |].
    + rewrite Hgd1. destruct (Z.eqb_spec (depth_ b) (global_depth_ t)); lia.
    + intros q bq Hq Hbq. rewrite Hp1 in Hq. injection Hq as <-.
      rewrite Hb1 in Hbq. injection Hbq as <-.
      rewrite Hl1, Hsame. split; [|done].
      apply IsFull_length. rewrite Hl1, Hsame, Hsz1.
      apply IsFull_length in Hfull. lia.
Qed.

(** What is left of [Insert] once the key is known to be absent from its
    bucket: the split loop and the final insertion. *)
Lemma Insert_tail_room fuel key value t1 :
  WF t1 → global_depth_ t1 ≤ 30 →
  (Z.of_nat (length (target_items key t1)) < bucket_size_ t1 ∨
   ∃ x, x ∈ (target_items key t1).*1 ∧
        hash x mod 2 ^ 30 ≠ hash key mod 2 ^ 30) →
  (30 ≤ fuel)%nat →
  ∃ t',
    (let* t2 := split_loop hash fuel key t1 in
     let* index := IndexOf hash key t2 in
     let* tar := dir_at index t2 in
     let* tar_bucket := bucket_at tar t2 in
     Ok (set_bucket tar (Bucket_Insert key value tar_bucket).2 t2)) = Ok t' ∧
    num_buckets_ t1 ≤ num_buckets_ t' ≤ num_buckets_ t1 + 30.
Proof.
  intros Hwf Hgd Hroom Hfuel.
  destruct (split_loop_room key 30 fuel t1) as (t2 & Ht2 & Hgd2 & Hnb);
    try done.
  { intros p b Hp Hb.
    destruct (wf_bucket _ Hwf _ _ Hp) as (b' & Hb' & [Hd [Hsz _ _ _ _] _]).
    rewrite Hb in Hb'. injection Hb' as <-.
    unfold EHT.target_items, bucket_items in Hroom. rewrite Hp, Hb in Hroom.
    destruct Hroom as [Hlt|Hx].
    - left. apply IsFull_false. lia.
    - right. split; [lia|done]. }
  rewrite Ht2. simpl.
  destruct (split_loop_WF hash key fuel t1 t2 Hwf Ht2)
    as (Hwf2 & _ & _ & p & b & Hp & Hb & _).
  pose proof (wf_depth _ Hwf2).
  rewrite IndexOf_Ok by lia. simpl.
  rewrite (dir_at_slot hash key t2 p) by done. simpl.
  unfold bucket_at. rewrite Hb. simpl. eexists. split; [done|]. simpl. lia.
Qed.


(** ** One entry for each key *)

Lemma entry_in_target t k v :
  WF t → (k, v) ∈ all_entries t → (k, v) ∈ target_items k t.
Proof.
  intros Hwf. unfold all_entries.
  intros (p & Hp & Hkv)%list_elem_of_In%in_flat_map.
  apply list_elem_of_In in Hp. rewrite elem_of_remove_dups in Hp.
  apply list_elem_of_lookup_1 in Hp as (i & Hi).
  apply list_elem_of_In in Hkv.
  destruct (wf_bucket _ Hwf _ _ Hi) as (b & Hb & [_ [_ _ _ _ Hhome] _]).
  unfold bucket_items in Hkv. rewrite Hb in Hkv.
  unfold EHT.target_items, bucket_items.
  rewrite (Hhome k), Hb; [done|]. apply list_elem_of_fmap. by exists (k, v).
Qed.

Lemma run_WF_from fuel cs :
  ∀ t t', WF t → run hash fuel cs t = Ok t' → WF t'.
Proof.
  induction cs as [|c cs IH]; simpl; intros t t' Hwf.
  - by intros [= <-].
  - destruct (call hash fuel c t) as [t1| |] eqn:Ec; simpl; [|done..].
    apply IH. destruct c as [key value|key]; simpl in Ec.
    + by destruct (Insert_WF hash _ _ _ _ _ Hwf Ec) as (? & _).
    + destruct (Remove hash key t) as [[f t1']| |] eqn:Er; simpl in Ec; [|done..].
      injection Ec as <-.
      by destruct (Remove_WF hash _ _ _ _ Hwf Er) as (? & _).
Qed.

(** C10: key uniqueness, by the invariant [WF].  The fresh table of
    capacity [bs ≥ 0] is well formed, and on every well-formed table,
    hence on every table a sequence of [Insert] and [Remove] calls
    reaches: any further sequence of calls that return leaves a
    well-formed table in which no key occurs twice among the entries of
    the buckets reachable from the directory; an [Insert(key, value)]
    that returns leaves exactly one entry for [key], carrying [value]; a
    [Remove(key)] that returns leaves none; and [Insert] of a key found
    with another value does return (whatever the fuel: it needs no
    split), leaving exactly one entry for the key, carrying the new
    value. *)
Theorem unique_keys bs t :
  0 ≤ bs → WF t →
  WF (ExtendibleHashTable bs) ∧
  (∀ fuel cs t', run hash fuel cs t = Ok t' →
                 WF t' ∧ NoDup (all_entries t').*1) ∧
  NoDup (all_entries t).*1 ∧
  (∀ fuel key value t',
     Insert hash fuel key value t = Ok t' →
     WF t' ∧ entries_of key t' = [(key, value)]) ∧
  (∀ key found t',
     Remove hash key t = Ok (found, t') →
     WF t' ∧ entries_of key t' = []) ∧
  (∀ fuel key v value,
     Find hash key t = Ok (Some v) → v ≠ value →
     ∃ t', Insert hash fuel key value t = Ok t' ∧
           entries_of key t' = [(key, value)]).
Proof.
  intros Hbs Hwf.
  assert (∀ fuel key value t',
            Insert hash fuel key value t = Ok t' →
            WF t' ∧ entries_of key t' = [(key, value)]) as Hins.
  { intros fuel key value t' Ht'.
    destruct (Insert_WF hash _ _ _ _ _ Hwf Ht') as (Hwf' & _ & _ & Hfind').
    split; [done|].
    apply filter_key_NoDup; [by apply (all_entries_NoDup hash)|by apply (Find_entry hash)]. }
  split; [by apply WF_init|]. split.
  { intros fuel cs t' Hrun.
    pose proof (run_WF_from fuel cs t t' Hwf Hrun) as Hwf'.
    split; [done|]. by apply (all_entries_NoDup hash). }
  split; [by apply (all_entries_NoDup hash)|].
  split; [done|]. split.
  - intros key found t' Hrem.
    destruct (Remove_WF hash _ _ _ _ Hwf Hrem) as (Hwf' & _ & _).
    destruct (Remove_content hash _ _ _ _ Hwf Hrem) as (_ & Hnone & _).
    split; [done|]. unfold entries_of.
    destruct (filter _ _) as [|[k v] l] eqn:Ef; [done|]. exfalso.
    assert ((k, v) ∈ filter (λ kv : Z * Z, kv.1 = key) (all_entries t')) as Hin
      by (rewrite Ef; by left).
    apply list_elem_of_filter in Hin as [Hk Hin]. simpl in Hk. subst k.
    apply (entry_in_target _ _ _ Hwf') in Hin.
    unfold content in Hnone. apply find_key_None in Hnone. apply Hnone.
    apply list_elem_of_fmap. by exists (key, v).
  - intros fuel key v value Hfind Hne.
    destruct (Insert_update_Ok hash fuel key v value t Hwf Hfind Hne) as [t' Ht'].
    exists t'. split; [done|]. by apply (Hins fuel).
Qed.

End Completion.


Lemma unique_keys_witness :
  run hash_int 0 demo_calls (ExtendibleHashTable 2) = Ok demo_table ∧
  Find hash_int 0 demo_table = Ok (Some 100) ∧
  NoDup (all_entries demo_table).*1 ∧
  (∃ t', Insert hash_int 0 0 7 demo_table = Ok t' ∧
         entries_of 0 t' = [(0, 7)]) ∧
  (∀ found t', Remove hash_int 0 demo_table = Ok (found, t') →
               entries_of 0 t' = []).
Proof.
  split; [reflexivity|]. split; [reflexivity|].
  destruct (unique_keys hash_int 2 demo_table ltac:(lia)
              (proj1 (run_WF hash_int 2 0 demo_calls demo_table
                        ltac:(lia) eq_refl)))
    as (_ & _ & Hnd & _ & Hrem & Hup).
  split; [exact Hnd|]. split.
  - apply (Hup 0%nat 0 100 7); [reflexivity|lia].
  - intros found t' H. by destruct (Hrem 0 found t' H).
Defined.

End EHTFacts.

(* ===================================================================== *)
(** * Properties of the B+Tree                                            *)
(* ===================================================================== *)

Module BPTFacts.
Import BPT.

(** C6 (the code at the failing call): [Insert] into an empty tree makes
    page 1 the root and returns [true] without any call to the header
    page: no [InsertRecord] is made for the first root. *)
Theorem Insert_empty_tree_header_calls fuel key value L I :
  ∃ t, Insert fuel key value (BPlusTree L I) = Some (true, t) ∧
       root_page_id_ t = 1 ∧
       header_calls_ t = [].
Proof. eexists. split; [reflexivity|]. by split. Qed.

(** C5 (the code at the failing run): with leaf fanout 4 the fourth
    insert splits the root leaf 1 into 1 and 2 and makes page 3 the new
    root with children 1 and 2 and key 3 at index 1.  The new root's
    [parent_id] is its own id 3, not [INVALID]; the old node's is 3; the
    new node's stays [INVALID]. *)
Theorem root_split_parent_ids :
  ∃ t, run 10 (inserts [1; 2; 3; 4]) (BPlusTree 4 4) = Some (tt, t) ∧
       root_page_id_ t = 3 ∧
       page_array t 3 = Some [(0, 1); (3, 2)] ∧
       page_parent t 3 = Some 3 ∧
       page_parent t 1 = Some 3 ∧
       page_parent t 2 = Some INVALID_PAGE_ID ∧
       header_calls_ t = [UpdateRecord 3].
Proof. eexists. split; [vm_compute; reflexivity|]. by vm_compute. Qed.

(** C1 (the code at the failing run): with fanouts 4, after
    [Insert(1..6)] and no [Remove] at all, [GetValue(1)] returns [false].
    The right leaf of the first split kept [parent_id = INVALID], so its
    own split made another root, above which keys 1 and 2 are out of
    reach. *)
Theorem GetValue_misses_inserted_key :
  ∃ t, run 10 (inserts [1; 2; 3; 4; 5; 6]) (BPlusTree 4 4) = Some (tt, t) ∧
       root_page_id_ t = 5 ∧
       page_array t 5 = Some [(0, 2); (5, 4)] ∧
       page_array t 1 = Some [(1, 10); (2, 20)] ∧
       GetValue 10 1 t = Some (None, t) ∧
       GetValue 10 5 t = Some (Some 50, t).
Proof. eexists. split; [vm_compute; reflexivity|]. by vm_compute. Qed.

(** C3 (the code at the failing run): with fanouts 4 (leaf minimum 2),
    leaf 1 holds keys 1, 5, 10 and its right sibling 4 holds 15, 17, 20.
    [Remove(1)] leaves leaf 1 with two entries, its minimum, and still
    redistributes: entry 15 moves from leaf 4 into leaf 1 and the
    separator in the parent page 3 changes from 15 to 17. *)
Theorem Remove_redistributes_at_min_size :
  ∃ t t',
    run 10 (inserts [10; 20; 30; 40; 5; 15; 17; 1]) (BPlusTree 4 4)
      = Some (tt, t) ∧
    page_array t 1 = Some [(1, 10); (5, 50); (10, 100)] ∧
    page_array t 4 = Some [(15, 150); (17, 170); (20, 200)] ∧
    page_array t 3 = Some [(0, 1); (15, 4); (30, 2)] ∧
    GetMinSize <$> pages_ t !! 1 = Some 2 ∧
    Remove 10 1 t = Some (tt, t') ∧
    page_array t' 1 = Some [(5, 50); (10, 100); (15, 150)] ∧
    page_array t' 4 = Some [(17, 170); (20, 200)] ∧
    page_array t' 3 = Some [(0, 1); (17, 4); (30, 2)].
Proof.
  do 2 eexists. split; [vm_compute; reflexivity|].
  do 4 (split; [by vm_compute|]).
  split; [vm_compute; reflexivity|]. by vm_compute.
Qed.

(** ** Frame properties of the tree's operations *)

Lemma steps_weaken {A} (R R' : Tree → Tree → Prop) (m : M A) :
  (∀ t t', R t t' → R' t t') → steps R m → steps R' m.
Proof. intros HR Hm t a t' E. by eapply HR, Hm. Qed.

Lemma steps_bind {A B} (R1 R2 R : Tree → Tree → Prop) (m : M A) (f : A → M B) :
  (∀ t t1 t2, R1 t t1 → R2 t1 t2 → R t t2) →
  steps R1 m → (∀ a, steps R2 (f a)) → steps R (bind m f).
Proof.
  intros HR Hm Hf t b t'. unfold bind.
  destruct (m t) as [[a t1]|] eqn:E; [|done].
  intros E'. eapply HR; [by eapply Hm|by eapply Hf].
Qed.

Lemma steps_ret {A} (R : Tree → Tree → Prop) (a : A) :
  (∀ t, R t t) → steps R (ret a).
Proof. intros HR t a' t' [= _ <-]. apply HR. Qed.

Lemma steps_fault {A} (R : Tree → Tree → Prop) : steps R (@fault A).
Proof. by intros t a t'. Qed.

Lemma steps_lift {A} (R : Tree → Tree → Prop) (o : option A) :
  (∀ t, R t t) → steps R (lift o).
Proof. intros HR t a t'. unfold lift. destruct o; [|done]. intros [= _ <-]. apply HR. Qed.

Lemma steps_get {A} (R : Tree → Tree → Prop) (f : Tree → A) :
  (∀ t, R t t) → steps R (get f).
Proof. intros HR t a t' [= _ <-]. apply HR. Qed.

Lemma quiet_refl t : quiet t t.
Proof. by split; try lia. Qed.

Lemma quiet_trans t t1 t2 : quiet t t1 → quiet t1 t2 → quiet t t2.
Proof. intros [] []. split; try congruence. lia. Qed.

Lemma grows_refl t : grows t t.
Proof.
  split; try done; try lia. exists []. by rewrite app_nil_r.
Qed.

Lemma grows_trans t t1 t2 : grows t t1 → grows t1 t2 → grows t t2.
Proof.
  intros [? ? ? (l1 & Hl1 & Hf1)] [? ? ? (l2 & Hl2 & Hf2)].
  split; try congruence; try lia.
  exists (l1 ++ l2). split; [by rewrite Hl2, Hl1, app_assoc|].
  by apply Forall_app.
Qed.

Lemma quiet_grows t t' : quiet t t' → grows t t'.
Proof.
  intros []. split; try done. exists []. by rewrite app_nil_r.
Qed.

Lemma new_root_grows t t' : new_root t t' → grows t t'.
Proof.
  intros []. split; try done; try lia.
  eexists. split; [done|]. by repeat constructor.
Qed.

(** Taking a bind apart, for a relation that is reflexive and
    transitive. *)
Ltac quiet_step :=
  first
    [ apply (steps_ret quiet), quiet_refl
    | apply (steps_fault quiet)
    | apply (steps_lift quiet), quiet_refl
    | apply (steps_get quiet), quiet_refl
    | apply (steps_bind quiet quiet quiet); [apply quiet_trans| |intros ?]
    | assumption ].

Lemma set_pages_quiet f : steps quiet (set_pages f).
Proof. intros t a t' [= _ <-]. by split; try lia. Qed.

Lemma FetchPage_quiet id : steps quiet (FetchPage id).
Proof.
  intros t a t'. unfold FetchPage. destruct (pages_ t !! id); [|done].
  intros [= _ <-]. apply quiet_refl.
Qed.

Lemma NewPage_quiet : steps quiet NewPage.
Proof. intros t a t' [= _ <-]. split; simpl; try done. lia. Qed.

Lemma write_quiet p : steps quiet (write p).
Proof. apply set_pages_quiet. Qed.

Lemma DeletePage_quiet id : steps quiet (DeletePage id).
Proof. apply set_pages_quiet. Qed.

Lemma reparent_quiet children parent_id : steps quiet (reparent children parent_id).
Proof.
  induction children as [|[k c] rest IH]; simpl.
  - quiet_step.
  - quiet_step; [apply FetchPage_quiet|].
    quiet_step; [apply write_quiet|]. exact IH.
Qed.

Lemma descend_quiet fuel key lm rm :
  ∀ node, steps quiet (descend fuel key lm rm node).
Proof.
  induction fuel as [|fuel IH]; intros node; simpl;
    (destruct (IsLeafPage node); [quiet_step|]).
  - quiet_step.
  - quiet_step; [quiet_step|].
    destruct (negb _); [quiet_step|].
    quiet_step; [apply FetchPage_quiet|]. apply IH.
Qed.

Lemma FindLeaf_quiet fuel key lm rm : steps quiet (FindLeaf fuel key lm rm).
Proof.
  unfold FindLeaf. quiet_step; [quiet_step|].
  destruct (_ =? _); [quiet_step|].
  quiet_step; [apply FetchPage_quiet|]. apply descend_quiet.
Qed.

Lemma GetValue_quiet fuel key : steps quiet (GetValue fuel key).
Proof.
  unfold GetValue. quiet_step; [apply FindLeaf_quiet|]. quiet_step.
Qed.

Lemma Split_quiet node : steps quiet (Split node).
Proof.
  unfold Split. quiet_step; [apply NewPage_quiet|].
  destruct (IsLeafPage node).
  - quiet_step; [quiet_step|].
    destruct (MoveHalfTo _ _) as [leaf new_leaf].
    quiet_step; [apply write_quiet|]. quiet_step.
  - quiet_step; [quiet_step|].
    destruct (MoveHalfTo _ _) as [internal new_internal].
    quiet_step; [apply write_quiet|].
    quiet_step; [apply reparent_quiet|]. quiet_step.
Qed.

Lemma quiet_then t t1 t2 :
  quiet t t1 → quiet t1 t2 ∨ new_root t1 t2 → quiet t t2 ∨ new_root t t2.
Proof.
  intros Hq [Hq'|[]]; [left; by eapply quiet_trans|right].
  destruct Hq. split; try congruence; lia.
Qed.

Lemma then_quiet t t1 t2 :
  quiet t t1 ∨ new_root t t1 → quiet t1 t2 → quiet t t2 ∨ new_root t t2.
Proof.
  intros [Hq|[]] Hq'; [left; by eapply quiet_trans|right].
  destruct Hq'. split; try congruence; lia.
Qed.

Ltac root_step :=
  apply (steps_bind quiet (λ t t', quiet t t' ∨ new_root t t')
           (λ t t', quiet t t' ∨ new_root t t'));
  [apply quiet_then| |intros ?].

Lemma InsertIntoParent_root_step fuel :
  ∀ old_id key new_id,
    steps (λ t t', quiet t t' ∨ new_root t t')
      (InsertIntoParent fuel old_id key new_id).
Proof.
  induction fuel as [|fuel IH]; intros old_id key new_id; simpl;
    (root_step; [apply FetchPage_quiet|]);
    (root_step; [apply FetchPage_quiet|]);
    match goal with |- steps _ (if IsRootPage ?n then _ else _) =>
      destruct (IsRootPage n) end.
  1,3: intros t u t'; unfold bind, NewPage, set_root_page_id, get, write,
         set_pages, UpdateRootPageId, header_call; simpl;
       intros [= _ <-]; right; split; simpl; (done || lia).
  - root_step; [apply FetchPage_quiet|].
    root_step; [quiet_step|].
    destruct (_ <? _).
    + eapply steps_weaken; [|apply write_quiet]. by left.
    + apply steps_fault.
  - root_step; [apply FetchPage_quiet|].
    root_step; [quiet_step|].
    destruct (_ <? _).
    + eapply steps_weaken; [|apply write_quiet]. by left.
    + root_step; [apply Split_quiet|].
      match goal with |- steps _ (let '(_, _) := ?h in _) => destruct h end.
      root_step; [quiet_step|].
      root_step; [apply write_quiet|]. apply IH.
Qed.

Lemma InsertIntoLeaf_root_step fuel key value :
  steps (λ t t', quiet t t' ∨ new_root t t') (InsertIntoLeaf fuel key value).
Proof.
  unfold InsertIntoLeaf. root_step; [apply FindLeaf_quiet|].
  match goal with |- steps _ (let '(_, _) := ?h in _) => destruct h end.
  root_step; [apply write_quiet|].
  root_step; [quiet_step|].
  destruct (_ =? _); [apply steps_ret; left; apply quiet_refl|].
  destruct (_ <? _); [apply steps_ret; left; apply quiet_refl|].
  root_step; [apply Split_quiet|].
  match goal with |- steps _ (let '(_, _) := ?h in _) => destruct h end.
  root_step; [apply write_quiet|].
  root_step; [apply write_quiet|].
  root_step; [quiet_step|].
  eapply (steps_bind _ quiet); [apply then_quiet|apply InsertIntoParent_root_step|].
  intros ?. quiet_step.
Qed.

Lemma StartNewTree_run key value t :
  StartNewTree key value t
  = Some (tt, mkTree (bpm_next_page_id_ t) (leaf_max_size_ t)
                (internal_max_size_ t)
                (<[bpm_next_page_id_ t :=
                     mkPage LEAF_PAGE (leaf_max_size_ t) INVALID_PAGE_ID
                       (bpm_next_page_id_ t) INVALID_PAGE_ID [(key, value)]]>
                   (<[bpm_next_page_id_ t :=
                        Init INVALID_INDEX_PAGE (bpm_next_page_id_ t)
                          INVALID_PAGE_ID 0]> (pages_ t)))
                (bpm_next_page_id_ t + 1) (header_calls_ t)
                (deleted_page_set_ t)).
Proof. reflexivity. Qed.

Lemma Insert_grows fuel key value t b t' :
  Insert fuel key value t = Some (b, t') →
  grows t t' ∧ deleted_page_set_ t' = deleted_page_set_ t.
Proof.
  unfold Insert, bind at 1, get. destruct (IsEmpty t).
  - unfold bind. rewrite StartNewTree_run. intros [= <- <-]. simpl.
    split; [|done]. split; simpl; try done; try lia.
    exists []. by rewrite app_nil_r.
  - intros Hrun. destruct (InsertIntoLeaf_root_step _ _ _ _ _ _ Hrun) as [Hq|Hn].
    + split; [by apply quiet_grows|]. by destruct Hq.
    + split; [by apply new_root_grows|]. by destruct Hn.
Qed.

(** X14: how [Insert] treats the root id and the header page.  Whenever
    it returns, the size limits and the deleted-page set are as before
    and page ids were only minted.  On an empty tree it returns [true],
    makes the next page id the root and makes no header call.  On a
    non-empty tree either the root id and the header page's log are
    untouched, or the root is a page minted during the call and the log
    grew by exactly one [UpdateRecord] carrying the new root id. *)
Theorem Insert_root_and_header fuel key value t b t' :
  Insert fuel key value t = Some (b, t') →
  grows t t' ∧
  deleted_page_set_ t' = deleted_page_set_ t ∧
  if IsEmpty t
  then b = true ∧ root_page_id_ t' = bpm_next_page_id_ t ∧
       header_calls_ t' = header_calls_ t
  else (root_page_id_ t' = root_page_id_ t ∧
        header_calls_ t' = header_calls_ t) ∨
       (header_calls_ t' = header_calls_ t ++ [UpdateRecord (root_page_id_ t')] ∧
        bpm_next_page_id_ t ≤ root_page_id_ t' < bpm_next_page_id_ t').
Proof.
  unfold Insert, bind at 1, get. destruct (IsEmpty t) eqn:Ee.
  - unfold bind. rewrite StartNewTree_run. intros [= <- <-]. simpl.
    split; [|done]. split; simpl; try done; try lia.
    exists []. by rewrite app_nil_r.
  - intros Hrun. destruct (InsertIntoLeaf_root_step _ _ _ _ _ _ Hrun) as [Hq|Hn].
    + split; [by apply quiet_grows|]. destruct Hq. split; [done|]. by left.
    + split; [by apply new_root_grows|]. destruct Hn. split; [done|]. by right.
Qed.

Ltac grows_step :=
  first
    [ apply (steps_ret grows), grows_refl
    | apply (steps_fault grows)
    | apply (steps_lift grows), grows_refl
    | apply (steps_get grows), grows_refl
    | apply (steps_bind grows grows grows); [apply grows_trans| |intros ?]
    | assumption ].

Ltac by_quiet lem := eapply steps_weaken; [apply quiet_grows|apply lem].

Lemma set_root_page_id_grows id : steps grows (set_root_page_id id).
Proof.
  intros t a t' [= _ <-]. split; simpl; try done; try lia.
  exists []. by rewrite app_nil_r.
Qed.

Lemma set_deleted_page_set_grows l : steps grows (set_deleted_page_set l).
Proof.
  intros t a t' [= _ <-]. split; simpl; try done; try lia.
  exists []. by rewrite app_nil_r.
Qed.

Lemma UpdateRootPageId_grows : steps grows (UpdateRootPageId 0).
Proof.
  intros t a t' [= _ <-]. split; simpl; try done; try lia.
  eexists. split; [done|]. by repeat constructor.
Qed.

Lemma AddIntoDeletedPageSet_grows id : steps grows (AddIntoDeletedPageSet id).
Proof.
  unfold AddIntoDeletedPageSet. grows_step; [grows_step|].
  apply set_deleted_page_set_grows.
Qed.

Lemma AdjustRoot_grows node : steps grows (AdjustRoot node).
Proof.
  unfold AdjustRoot. destruct (_ && _).
  - grows_step; [grows_step|].
    grows_step; [by_quiet FetchPage_quiet|].
    grows_step; [by_quiet write_quiet|].
    grows_step; [apply set_root_page_id_grows|].
    grows_step; [apply UpdateRootPageId_grows|]. grows_step.
  - destruct (_ && _); [|grows_step].
    grows_step; [apply set_root_page_id_grows|]. grows_step.
Qed.

Lemma Redistribute_quiet neighbor_id node_id parent_id index from_prev :
  steps quiet (Redistribute neighbor_id node_id parent_id index from_prev).
Proof.
  unfold Redistribute.
  quiet_step; [apply FetchPage_quiet|].
  quiet_step; [apply FetchPage_quiet|].
  quiet_step; [apply FetchPage_quiet|].
  destruct (IsLeafPage _), (negb from_prev);
    repeat first
      [ apply write_quiet
      | apply reparent_quiet
      | match goal with
        | |- steps _ (let '(_, _) := ?h in _) => destruct h
        end
      | quiet_step ].
Qed.

Lemma Coalesce_grows recur neighbor_id node_id parent_id index :
  (∀ id, steps grows (recur id)) →
  steps grows (Coalesce recur neighbor_id node_id parent_id index).
Proof.
  intros Hrec. unfold Coalesce.
  grows_step; [by_quiet FetchPage_quiet|].
  grows_step; [grows_step|].
  grows_step; [by_quiet FetchPage_quiet|].
  grows_step; [by_quiet FetchPage_quiet|].
  grows_step.
  - destruct (IsLeafPage _).
    + destruct (Leaf_MoveAllTo _ _).
      grows_step; by_quiet write_quiet.
    + grows_step; [grows_step|].
      grows_step; [by_quiet write_quiet|].
      grows_step; [by_quiet write_quiet|]. by_quiet reparent_quiet.
  - grows_step; [grows_step|].
    grows_step; [by_quiet write_quiet|]. apply Hrec.
Qed.

Lemma CoalesceOrRedistribute_grows fuel :
  ∀ node_id, steps grows (CoalesceOrRedistribute fuel node_id).
Proof.
  induction fuel as [|fuel IH]; intros node_id; simpl; [grows_step|].
  grows_step; [by_quiet FetchPage_quiet|].
  destruct (IsRootPage _); [apply AdjustRoot_grows|].
  destruct (_ <=? _); [grows_step|].
  grows_step; [by_quiet FetchPage_quiet|].
  grows_step; [grows_step|].
  match goal with
  | |- steps grows (if _ then _ else ?rs) =>
      assert (steps grows rs) as Hright
  end.
  { grows_step; [by_quiet FetchPage_quiet|].
    destruct (_ =? _); [grows_step|].
    grows_step; [grows_step|].
    grows_step; [by_quiet FetchPage_quiet|].
    destruct (_ <? _).
    - grows_step; [by_quiet Redistribute_quiet|]. grows_step.
    - grows_step; [grows_step|].
      grows_step; [by apply Coalesce_grows|].
      grows_step; [apply AddIntoDeletedPageSet_grows|].
      grows_step; [|grows_step].
      match goal with |- steps _ (if ?f then _ else _) => destruct f end;
        [apply AddIntoDeletedPageSet_grows|grows_step]. }
  destruct (0 <? _); [|exact Hright].
  grows_step; [grows_step|].
  grows_step; [by_quiet FetchPage_quiet|].
  destruct (_ <? _).
  - grows_step; [by_quiet Redistribute_quiet|]. grows_step.
  - grows_step; [by apply Coalesce_grows|].
    match goal with |- steps _ (if ?f then _ else _) => destruct f end;
      [|exact Hright].
    grows_step; [apply AddIntoDeletedPageSet_grows|]. grows_step.
Qed.

Lemma Remove_grows fuel key : steps grows (Remove fuel key).
Proof.
  unfold Remove. grows_step; [grows_step|].
  match goal with |- steps _ (if ?f then _ else _) => destruct f end;
    [grows_step|].
  grows_step; [by_quiet FindLeaf_quiet|].
  destruct (Leaf_RemoveAndDeleteRecord _ _).
  grows_step; [by_quiet write_quiet|].
  destruct (_ =? _); [grows_step|].
  grows_step; [apply CoalesceOrRedistribute_grows|].
  grows_step.
  { match goal with |- steps _ (if ?f then _ else _) => destruct f end;
      [apply AddIntoDeletedPageSet_grows|grows_step]. }
  grows_step; [grows_step|].
  grows_step; [by_quiet set_pages_quiet|]. apply set_deleted_page_set_grows.
Qed.

Lemma Remove_deleted_page_set fuel key t u t' :
  Remove fuel key t = Some (u, t') →
  deleted_page_set_ t = [] → deleted_page_set_ t' = [].
Proof.
  unfold Remove, bind at 1, get. destruct (IsEmpty t).
  { by intros [= _ <-]. }
  unfold bind at 1.
  destruct (FindLeaf fuel key false false t) as [[leaf t1]|] eqn:E1; [|done].
  apply FindLeaf_quiet in E1 as [_ _ _ _ Hd1 _].
  destruct (Leaf_RemoveAndDeleteRecord key leaf) as [new_size leaf1].
  unfold bind at 1. simpl.
  destruct (_ =? _).
  { intros [= _ <-] H0. simpl. congruence. }
  intros Hrun _. revert Hrun.
  match goal with
  | |- ?m ?s = _ → _ =>
      assert (steps (λ _ t', deleted_page_set_ t' = []) m) as Hm;
      [|by apply Hm]
  end.
  apply (steps_bind (λ _ _, True) (λ _ t', deleted_page_set_ t' = []));
    [done|done|intros ?].
  apply (steps_bind (λ _ _, True) (λ _ t', deleted_page_set_ t' = []));
    [done|done|intros ?].
  apply (steps_bind (λ _ _, True) (λ _ t', deleted_page_set_ t' = []));
    [done|done|intros ?].
  apply (steps_bind (λ _ _, True) (λ _ t', deleted_page_set_ t' = []));
    [done|done|intros ?].
  by intros t2 u2 t3 [= _ <-].
Qed.

(** X15: whatever [Insert] and [Remove] calls a client makes, if they
    all return: the size limits are never changed, the next page id never
    goes down, the header page's log only grows and only by
    [UpdateRecord] calls (the tree never calls [InsertRecord]), and a
    deleted-page set that was empty is empty again. *)
Theorem run_never_undoes fuel cs t t' :
  run fuel cs t = Some (tt, t') →
  leaf_max_size_ t' = leaf_max_size_ t ∧
  internal_max_size_ t' = internal_max_size_ t ∧
  bpm_next_page_id_ t ≤ bpm_next_page_id_ t' ∧
  (∃ l, header_calls_ t' = header_calls_ t ++ l ∧
        Forall (λ c, is_update c = true) l) ∧
  (deleted_page_set_ t = [] → deleted_page_set_ t' = []).
Proof.
  assert (grows t t' ∧ (deleted_page_set_ t = [] → deleted_page_set_ t' = [])
          → leaf_max_size_ t' = leaf_max_size_ t ∧
            internal_max_size_ t' = internal_max_size_ t ∧
            bpm_next_page_id_ t ≤ bpm_next_page_id_ t' ∧
            (∃ l, header_calls_ t' = header_calls_ t ++ l ∧
                  Forall (λ c, is_update c = true) l) ∧
            (deleted_page_set_ t = [] → deleted_page_set_ t' = [])) as Hfin.
  { by intros [[] ?]. }
  intros Hrun. apply Hfin. clear Hfin. revert t Hrun.
  induction cs as [|c cs IH]; simpl; intros t.
  - intros [= <-]. split; [apply grows_refl|done].
  - unfold bind at 1.
    destruct (call fuel c t) as [[u t1]|] eqn:Ec; [|done].
    intros [Hg Hd]%IH.
    assert (grows t t1 ∧ (deleted_page_set_ t = [] → deleted_page_set_ t1 = []))
      as [Hg1 Hd1].
    { destruct c as [key value|key]; simpl in Ec.
      - unfold bind in Ec.
        destruct (Insert fuel key value t) as [[b t1']|] eqn:Ei; [|done].
        injection Ec as _ <-.
        destruct (Insert_grows _ _ _ _ _ _ Ei) as (? & Hdel).
        split; [done|congruence].
      - split; [by eapply Remove_grows|by eapply Remove_deleted_page_set]. }
    split; [by eapply grows_trans|auto].
Qed.

(** ** Sorted leaf arrays *)

Lemma length_insert_sorted key value a :
  length (insert_sorted key value a) = S (length a).
Proof.
  induction a as [|[k v] a IH]; simpl; [done|].
  destruct (key <? k); simpl; by rewrite ?IH.
Qed.

Lemma find_key_insert_sorted k key value a :
  find_key key a = None →
  find_key k (insert_sorted key value a)
  = if key =? k then Some value else find_key k a.
Proof.
  induction a as [|[x v] a IH]; simpl; [done|].
  destruct (Z.eqb_spec x key) as [->|Hx]; [done|]. intros Hnone.
  destruct (key <? x); simpl; [done|].
  rewrite IH by done.
  destruct (Z.eqb_spec x k) as [->|?]; [|done].
  destruct (Z.eqb_spec key k); [congruence|done].
Qed.

Lemma find_key_None_keys key a : find_key key a = None → key ∉ a.*1.
Proof.
  induction a as [|[x v] a IH]; simpl; [intros _; apply not_elem_of_nil|].
  destruct (Z.eqb_spec x key) as [->|Hx]; [done|].
  intros Hn. apply not_elem_of_cons. split; [done|by apply IH].
Qed.

Lemma elem_of_insert_sorted_keys x key value a :
  x ∈ (insert_sorted key value a).*1 ↔ x = key ∨ x ∈ a.*1.
Proof.
  induction a as [|[k v] a IH]; simpl.
  - rewrite list_elem_of_singleton, elem_of_nil. tauto.
  - destruct (key <? k); simpl; rewrite !elem_of_cons; [done|].
    rewrite IH. tauto.
Qed.

Lemma insert_sorted_sorted key value a :
  key ∉ a.*1 → StronglySorted Z.lt a.*1 →
  StronglySorted Z.lt (insert_sorted key value a).*1.
Proof.
  induction a as [|[k v] a IH]; simpl; intros Hk Hs.
  - repeat constructor.
  - apply not_elem_of_cons in Hk as [Hne Hk].
    apply StronglySorted_inv in Hs as [Hs Hall].
    destruct (Z.ltb_spec key k); simpl.
    + constructor; [by constructor|]. constructor; [done|].
      eapply Forall_impl; [exact Hall|]. simpl. lia.
    + constructor; [by apply IH|].
      apply Forall_forall. intros x [->|Hx]%elem_of_insert_sorted_keys; [lia|].
      rewrite Forall_forall in Hall. by apply Hall.
Qed.

(** ** A tree that fits in its root leaf *)

Lemma lookup_one_leaf L I id a :
  pages_ (one_leaf L I id a) !! id
  = Some (mkPage LEAF_PAGE L INVALID_PAGE_ID id INVALID_PAGE_ID a).
Proof. unfold one_leaf. cbn [pages_]. apply lookup_singleton_eq. Qed.

Lemma FindLeaf_one_leaf fuel key lm rm L I id a :
  id ≠ INVALID_PAGE_ID →
  FindLeaf fuel key lm rm (one_leaf L I id a)
  = Some (mkPage LEAF_PAGE L INVALID_PAGE_ID id INVALID_PAGE_ID a,
          one_leaf L I id a).
Proof.
  intros Hid. unfold FindLeaf, bind, get, FetchPage.
  change (root_page_id_ (one_leaf L I id a)) with id.
  destruct (Z.eqb_spec id INVALID_PAGE_ID); [done|].
  rewrite lookup_one_leaf. by destruct fuel.
Qed.

Lemma GetValue_one_leaf fuel key L I id a :
  id ≠ INVALID_PAGE_ID →
  GetValue fuel key (one_leaf L I id a)
  = Some (find_key key a, one_leaf L I id a).
Proof.
  intros Hid. unfold GetValue, bind at 1. by rewrite FindLeaf_one_leaf.
Qed.

Lemma write_one_leaf L I id a a' :
  write (mkPage LEAF_PAGE L INVALID_PAGE_ID id INVALID_PAGE_ID a')
    (one_leaf L I id a)
  = Some (tt, one_leaf L I id a').
Proof.
  unfold write, set_pages, one_leaf. simpl. do 3 f_equal.
  apply insert_singleton_eq.
Qed.

Lemma Insert_no_leaf fuel key value L I n :
  Insert fuel key value (no_leaf L I n)
  = Some (true, one_leaf L I n [(key, value)]).
Proof.
  unfold Insert, bind at 1, get. simpl. unfold bind at 1.
  rewrite StartNewTree_run. simpl. unfold one_leaf. do 3 f_equal.
  by rewrite insert_insert_eq, insert_empty.
Qed.

Lemma Insert_one_leaf fuel key value L I id a :
  id ≠ INVALID_PAGE_ID →
  Z.of_nat (length a) + 1 < L →
  Insert fuel key value (one_leaf L I id a)
  = match find_key key a with
    | Some _ => Some (false, one_leaf L I id a)
    | None => Some (true, one_leaf L I id (insert_sorted key value a))
    end.
Proof.
  intros Hid Hlen. unfold Insert, bind at 1, get. simpl.
  unfold IsEmpty. simpl. destruct (Z.eqb_spec id INVALID_PAGE_ID); [done|].
  unfold InsertIntoLeaf, bind at 1. rewrite FindLeaf_one_leaf by done.
  unfold Leaf_Insert. simpl.
  destruct (find_key key a) as [v|] eqn:Ef.
  - unfold bind at 1. rewrite write_one_leaf.
    unfold bind at 1, get. simpl. by rewrite Z.eqb_refl.
  - unfold set_array, GetSize. simpl.
    unfold bind at 1. rewrite write_one_leaf.
    unfold bind at 1, get. simpl. rewrite length_insert_sorted.
    destruct (Z.eqb_spec (Z.of_nat (S (length a))) (Z.of_nat (length a))); [lia|].
    destruct (Z.ltb_spec (Z.of_nat (S (length a))) L); [done|lia].
Qed.

Lemma filter_length_eq {A} (P : A → Prop) `{!∀ x, Decision (P x)} (l : list A) :
  length (filter P l) = length l → filter P l = l.
Proof.
  induction l as [|x l IH]; [done|].
  rewrite filter_cons. destruct (decide (P x)); simpl.
  - intros [= Hl]. by rewrite IH.
  - pose proof (length_filter P l). lia.
Qed.

Lemma find_key_remove k key a :
  find_key k (filter (λ kv : Z * Z, kv.1 ≠ key) a)
  = if key =? k then None else find_key k a.
Proof.
  induction a as [|[x v] a IH]; simpl.
  - by destruct (key =? k).
  - rewrite filter_cons. simpl. destruct (decide (x ≠ key)) as [Hx|Hx]; simpl.
    + rewrite IH. destruct (Z.eqb_spec x k) as [->|?]; [|done].
      by destruct (Z.eqb_spec key k).
    + assert (x = key) as -> by (destruct (decide (x = key)); tauto).
      rewrite IH. destruct (Z.eqb_spec key k); done.
Qed.

Lemma filter_keys_sorted (P : Z * Z → Prop) `{!∀ x, Decision (P x)} a :
  StronglySorted Z.lt a.*1 → StronglySorted Z.lt (filter P a).*1.
Proof.
  induction a as [|x a IH]; simpl; [done|]. intros [Hs Hall]%StronglySorted_inv.
  rewrite filter_cons. destruct (decide (P x)); simpl; [|by apply IH].
  constructor; [by apply IH|].
  apply Forall_forall. intros y (kv & -> & [_ Hkv]%list_elem_of_filter)%list_elem_of_fmap.
  rewrite Forall_forall in Hall. apply Hall. by apply list_elem_of_fmap_2.
Qed.

Lemma Remove_one_leaf fuel key L I id a :
  id ≠ INVALID_PAGE_ID →
  Remove (S fuel) key (one_leaf L I id a)
  = Some (tt, match filter (λ kv : Z * Z, kv.1 ≠ key) a with
              | [] => if decide (a = []) then one_leaf L I id a
                      else no_leaf L I (id + 1)
              | a' => one_leaf L I id a'
              end).
Proof.
  intros Hid. unfold Remove, bind at 1, get. simpl.
  unfold IsEmpty. simpl. destruct (Z.eqb_spec id INVALID_PAGE_ID); [done|].
  unfold bind at 1. rewrite FindLeaf_one_leaf by done.
  unfold Leaf_RemoveAndDeleteRecord, set_array, GetSize. simpl.
  unfold bind at 1. rewrite write_one_leaf.
  pose proof (filter_length_eq (λ kv : Z * Z, kv.1 ≠ key) a) as Heq.
  pose proof (length_filter (λ kv : Z * Z, kv.1 ≠ key) a) as Hle.
  destruct (Z.eqb_spec (Z.of_nat (length a))
              (Z.of_nat (length (filter (λ kv : Z * Z, kv.1 ≠ key) a))))
    as [Hl|Hl].
  - rewrite Heq by lia. destruct a as [|kv a]; [done|]. done.
  - assert (a ≠ []) as Ha by (by intros ->).
    unfold bind at 1. cbn [CoalesceOrRedistribute GetPageId page_id_].
    unfold bind at 1, FetchPage.
    rewrite lookup_one_leaf. unfold IsRootPage. cbn [parent_page_id_].
    rewrite Z.eqb_refl. unfold AdjustRoot, IsLeafPage, GetSize. simpl.
    destruct (filter (λ kv : Z * Z, kv.1 ≠ key) a) as [|kv a'] eqn:Ef; simpl.
    + rewrite decide_False by done.
      unfold no_leaf, AddIntoDeletedPageSet, bind, get, set_deleted_page_set,
        set_pages, one_leaf.
      cbn [deleted_page_set_ pages_ root_page_id_ leaf_max_size_
           internal_max_size_ bpm_next_page_id_ header_calls_ app foldr
           GetPageId page_id_].
      do 3 f_equal. apply delete_singleton_eq.
    + done.
Qed.

Lemma Remove_no_leaf fuel key L I n :
  Remove fuel key (no_leaf L I n) = Some (tt, no_leaf L I n).
Proof. reflexivity. Qed.

Lemma find_key_all_None (a : list (Z * Z)) :
  (∀ k, find_key k a = None) → a = [].
Proof.
  destruct a as [|[x v] a]; [done|]. intros H. specialize (H x).
  simpl in H. by rewrite Z.eqb_refl in H.
Qed.

(** X16: a tree that fits in its root leaf refines a map.  For any
    [Insert] and [Remove] calls, fewer than [leaf_max_size] of them, on
    a fresh tree: all calls return; if the map they describe ([Insert]
    binds a key not bound yet and leaves a bound key alone, [Remove]
    unbinds) is empty, the tree is empty and holds no page; otherwise
    [GetValue(k)] returns, with any fuel and for every key, what the map
    holds, and the tree is a single leaf with strictly increasing keys. *)
Theorem small_tree_refines_map fuel L I cs :
  Z.of_nat (length cs) < L →
  ∃ t, run (S fuel) cs (BPlusTree L I) = Some (tt, t) ∧
       if decide (first_wins_map cs = ∅)
       then IsEmpty t = true ∧ pages_ t = ∅
       else (∀ fuel' k,
               GetValue fuel' k t = Some (first_wins_map cs !! k, t)) ∧
            ∃ p, pages_ t = {[ root_page_id_ t := p ]} ∧
                 IsLeafPage p = true ∧
                 StronglySorted Z.lt (array_ p).*1.
Proof.
  intros Hlen.
  set (St := λ (m : gmap Z Z) (t : Tree) (cnt : nat),
         (m = ∅ ∧ ∃ n, t = no_leaf L I n ∧ 1 ≤ n) ∨
         (∃ id a, t = one_leaf L I id a ∧ 1 ≤ id ∧ a ≠ [] ∧
                  StronglySorted Z.lt a.*1 ∧
                  (∀ k, find_key k a = m !! k) ∧
                  (length a ≤ cnt)%nat)).
  assert (∀ cs m t cnt,
            St m t cnt → Z.of_nat (cnt + length cs) < L →
            ∃ t', run (S fuel) cs t = Some (tt, t') ∧
                  St (foldl first_wins_call m cs) t' (cnt + length cs)%nat)
    as Hgen.
  { clear cs Hlen. induction cs as [|c cs IH]; intros m t cnt Hst Hl.
    - exists t. split; [done|]. simpl. rewrite Nat.add_0_r. done.
    - cbn [run foldl length] in *.
      assert (∃ t1, call (S fuel) c t = Some (tt, t1) ∧
                    St (first_wins_call m c) t1 (S cnt)) as (t1 & Hc & Hst1).
      { destruct Hst as [(Hm & n & Ht & Hn)|(id & a & Ht & Hid1 & Ha & Hs & Hf & Hla)];
          subst t.
        - subst m. destruct c as [key value|key]; cbn [call first_wins_call].
          + unfold bind. rewrite Insert_no_leaf. eexists. split; [done|].
            right. exists n, [(key, value)].
            rewrite lookup_empty.
            split; [done|]. split; [done|]. split; [done|].
            split; [repeat constructor|]. split; [|simpl; lia].
            intros k. simpl. destruct (Z.eqb_spec key k) as [->|?].
            * by rewrite lookup_insert_eq.
            * by rewrite lookup_insert_ne, lookup_empty.
          + rewrite Remove_no_leaf. eexists. split; [done|].
            left. split; [apply delete_empty|eauto].
        - assert (id ≠ INVALID_PAGE_ID) as Hid by (unfold INVALID_PAGE_ID; lia).
          destruct c as [key value|key]; cbn [call first_wins_call].
          + unfold bind. rewrite Insert_one_leaf by (done || lia).
            rewrite <-Hf.
            destruct (find_key key a) as [v|] eqn:Ek.
            * eexists. split; [done|]. right. exists id, a.
              repeat (split; [done|]). lia.
            * eexists. split; [done|]. right.
              exists id, (insert_sorted key value a).
              split; [done|]. split; [done|]. split.
              { intros E. apply (f_equal length) in E.
                by rewrite length_insert_sorted in E. }
              split.
              { apply insert_sorted_sorted; [by apply find_key_None_keys|done]. }
              split; [|rewrite length_insert_sorted; lia].
              intros k. rewrite find_key_insert_sorted by done.
              destruct (Z.eqb_spec key k) as [->|?].
              -- by rewrite lookup_insert_eq.
              -- by rewrite lookup_insert_ne, Hf.
          + rewrite Remove_one_leaf by done. eexists. split; [done|].
            pose proof (λ k, find_key_remove k key a) as Hrem.
            pose proof (filter_keys_sorted (λ kv : Z * Z, kv.1 ≠ key) a Hs) as Hs'.
            pose proof (length_filter (λ kv : Z * Z, kv.1 ≠ key) a) as Hle.
            assert (∀ k, find_key k (filter (λ kv : Z * Z, kv.1 ≠ key) a)
                         = delete key m !! k) as Hf'.
            { intros k. rewrite Hrem.
              destruct (Z.eqb_spec key k) as [->|?].
              - by rewrite lookup_delete_eq.
              - by rewrite lookup_delete_ne, Hf. }
            destruct (filter (λ kv : Z * Z, kv.1 ≠ key) a) as [|kv a'] eqn:Ef.
            * rewrite decide_False by done. left. split.
              -- apply map_eq. intros k. by rewrite <-Hf', lookup_empty.
              -- exists (id + 1). split; [done|lia].
            * right. exists id, (kv :: a'). repeat (split; [done|]). lia. }
      destruct (IH _ _ _ Hst1) as (t' & Hrun & Hst'); [lia|].
      exists t'. unfold bind. rewrite Hc.
      split; [done|]. by rewrite <-Nat.add_succ_comm. }
  destruct (Hgen cs ∅ (BPlusTree L I) 0%nat) as (t & Hrun & Hst).
  { left. split; [done|]. exists 1. by split. }
  { simpl. lia. }
  exists t. split; [done|]. fold (first_wins_map cs) in Hst.
  destruct Hst as [(Hm & n & Ht & Hn)|(id & a & Ht & Hid1 & Ha & Hs & Hf & _)];
    subst t.
  - by rewrite decide_True.
  - assert (id ≠ INVALID_PAGE_ID) as Hid by (unfold INVALID_PAGE_ID; lia).
    rewrite decide_False.
    + split.
      * intros fuel' k. by rewrite GetValue_one_leaf, Hf.
      * eexists. split; [done|]. by split.
    + intros Hm. apply Ha, find_key_all_None. intros k.
      by rewrite Hf, Hm, lookup_empty.
Qed.

(** X17: inserting a pair into a fresh tree and removing its key leaves
    an empty tree: the root id is [INVALID] again, the leaf page is
    deleted from the pool, the deleted-page set is empty and the header
    page was never called; only the page id is used up. *)
Theorem Insert_then_Remove_only_key fuel key value L I :
  run (S fuel) [CInsert key value; CRemove key] (BPlusTree L I)
  = Some (tt, mkTree INVALID_PAGE_ID L I ∅ 2 [] []).
Proof.
  cbn [run call]. unfold bind at 1. unfold bind at 1.
  change (BPlusTree L I) with (no_leaf L I 1). rewrite Insert_no_leaf.
  unfold ret at 1. unfold bind at 1. rewrite Remove_one_leaf by done.
  rewrite filter_cons_False by (simpl; tauto). rewrite filter_nil.
  by rewrite decide_False.
Qed.

Lemma small_tree_refines_map_witness :
  ∃ t, run 1 [CInsert 2 20; CInsert 1 10; CInsert 2 30; CRemove 1]
         (BPlusTree 5 4) = Some (tt, t) ∧
       if decide (first_wins_map
                    [CInsert 2 20; CInsert 1 10; CInsert 2 30; CRemove 1] = ∅)
       then IsEmpty t = true ∧ pages_ t = ∅
       else (∀ fuel' k,
               GetValue fuel' k t
               = Some (first_wins_map
                         [CInsert 2 20; CInsert 1 10; CInsert 2 30; CRemove 1]
                       !! k, t)) ∧
            ∃ p, pages_ t = {[ root_page_id_ t := p ]} ∧
                 IsLeafPage p = true ∧
                 StronglySorted Z.lt (array_ p).*1.
Proof.
  apply (small_tree_refines_map 0 5 4
           [CInsert 2 20; CInsert 1 10; CInsert 2 30; CRemove 1]).
  simpl. lia.
Defined.

(** X18: on an empty tree [GetValue] does not return [false]: it runs
    into [FindLeaf]'s assertion [root_page_id_ != INVALID_PAGE_ID];
    [Remove] returns at once and changes nothing. *)
Theorem empty_tree_GetValue_faults fuel key t :
  IsEmpty t = true →
  GetValue fuel key t = None ∧ Remove fuel key t = Some (tt, t).
Proof.
  intros He. unfold GetValue, Remove, FindLeaf, bind, get.
  unfold IsEmpty in *. by rewrite He.
Qed.

Lemma Insert_root_and_header_witness :
  grows three_keys_tree four_keys_tree ∧
  deleted_page_set_ four_keys_tree = deleted_page_set_ three_keys_tree ∧
  if IsEmpty three_keys_tree
  then true = true ∧
       root_page_id_ four_keys_tree = bpm_next_page_id_ three_keys_tree ∧
       header_calls_ four_keys_tree = header_calls_ three_keys_tree
  else (root_page_id_ four_keys_tree = root_page_id_ three_keys_tree ∧
        header_calls_ four_keys_tree = header_calls_ three_keys_tree) ∨
       (header_calls_ four_keys_tree
        = header_calls_ three_keys_tree
          ++ [UpdateRecord (root_page_id_ four_keys_tree)] ∧
        bpm_next_page_id_ three_keys_tree ≤ root_page_id_ four_keys_tree
          < bpm_next_page_id_ four_keys_tree).
Proof.
  apply (Insert_root_and_header 10 4 40 three_keys_tree true four_keys_tree).
  reflexivity.
Defined.

Lemma run_never_undoes_witness :
  leaf_max_size_ four_keys_tree = leaf_max_size_ (BPlusTree 4 4) ∧
  internal_max_size_ four_keys_tree = internal_max_size_ (BPlusTree 4 4) ∧
  bpm_next_page_id_ (BPlusTree 4 4) ≤ bpm_next_page_id_ four_keys_tree ∧
  (∃ l, header_calls_ four_keys_tree = header_calls_ (BPlusTree 4 4) ++ l ∧
        Forall (λ c, is_update c = true) l) ∧
  (deleted_page_set_ (BPlusTree 4 4) = [] →
   deleted_page_set_ four_keys_tree = []).
Proof.
  apply (run_never_undoes 10 (inserts [1; 2; 3; 4]) (BPlusTree 4 4)
           four_keys_tree).
  reflexivity.
Defined.

Lemma empty_tree_GetValue_faults_witness :
  GetValue 10 7 (BPlusTree 4 4) = None ∧
  Remove 10 7 (BPlusTree 4 4) = Some (tt, BPlusTree 4 4).
Proof.
  apply (empty_tree_GetValue_faults 10 7 (BPlusTree 4 4)). reflexivity.
Defined.

(** ** Reading the tree *)

Lemma descend_read fuel key lm rm :
  ∀ node t p t',
    descend fuel key lm rm node t = Some (p, t') →
    t' = t ∧ IsLeafPage p = true ∧
    (p = node ∨ ∃ id, 0 < id ∧ pages_ t !! id = Some p).
Proof.
  induction fuel as [|fuel IH]; intros node t p t'; simpl;
    (destruct (IsLeafPage node) eqn:El;
     [intros [= <- <-]; split; [done|]; split; [done|by left]|]).
  - done.
  - unfold bind at 1, lift.
    destruct (if lm then _ else _) as [child|]; [|done].
    destruct (Z.ltb_spec 0 child); simpl; [|done].
    unfold bind at 1, FetchPage.
    destruct (pages_ t !! child) as [cn|] eqn:Ec; [|done].
    intros (-> & Hl & Hp)%IH. split; [done|]. split; [done|]. right.
    destruct Hp as [->|Hp]; [|done]. eauto.
Qed.

Lemma FindLeaf_read fuel key lm rm t p t' :
  FindLeaf fuel key lm rm t = Some (p, t') →
  t' = t ∧ IsLeafPage p = true ∧ root_page_id_ t ≠ INVALID_PAGE_ID ∧
  ∃ id, pages_ t !! id = Some p.
Proof.
  unfold FindLeaf, bind at 1, get.
  destruct (Z.eqb_spec (root_page_id_ t) INVALID_PAGE_ID); [done|].
  unfold bind at 1, FetchPage.
  destruct (pages_ t !! root_page_id_ t) as [node|] eqn:Er; [|done].
  intros (-> & Hl & Hp)%descend_read. split; [done|]. split; [done|].
  split; [done|]. destruct Hp as [->|(id & _ & Hp)]; eauto.
Qed.

(** X19: [GetValue] only reads.  Whenever it returns, the tree, its
    pages included, is exactly as before, the tree was not empty, and the
    answer is the lookup of the key in a leaf page held by the pool. *)
Theorem GetValue_reads_a_leaf fuel key t r t' :
  GetValue fuel key t = Some (r, t') →
  t' = t ∧ IsEmpty t = false ∧
  ∃ id p, pages_ t !! id = Some p ∧ IsLeafPage p = true ∧
          r = Leaf_Lookup key p.
Proof.
  unfold GetValue, bind.
  destruct (FindLeaf fuel key false false t) as [[p t1]|] eqn:Ef; [|done].
  intros [= <- <-].
  apply FindLeaf_read in Ef as (-> & Hl & Hr & id & Hp).
  split; [done|]. split; [by apply Z.eqb_neq|]. eauto.
Qed.


Lemma GetValue_reads_a_leaf_witness :
  four_keys_tree = four_keys_tree ∧ IsEmpty four_keys_tree = false ∧
  ∃ id p, pages_ four_keys_tree !! id = Some p ∧ IsLeafPage p = true ∧
          Some 40 = Leaf_Lookup 4 p.
Proof.
  apply (GetValue_reads_a_leaf 10 4 four_keys_tree (Some 40) four_keys_tree).
  reflexivity.
Defined.


End BPTFacts.
